(** * antares-sheet: the editor core (src/views/editor/editorCore.ts)

    A shallow embedding of the edit-operation coordinator
    ([AtomEditOperation]), of the undo/redo bridge ([UndoableEditor]) and of
    the structural editor ([SheetEditorCore]) with its underline algorithms.

    The TypeScript code works on heap objects with parent pointers.  Here a
    document is a pure rose tree and a node reference is the list of child
    indices that leads to the node from the root; the parent of a node is
    the reference without its last index.  A failure ([throw], a failed
    [assert]) keeps every mutation made before it, as in JavaScript, so
    computations are functions from a state to a state and an outcome. *)

From Stdlib Require Import List ZArith String Ascii Bool Arith Lia.
Import ListNotations.

Open Scope string_scope.
Open Scope list_scope.
Open Scope Z_scope.
Open Scope nat_scope.

Set Implicit Arguments.

(** ** Computations that mutate a state and may throw *)

Module Eff.

Inductive Outcome (A : Type) : Type :=
| Done (a : A)
| Raised (msg : string).
Arguments Done {A} a.
Arguments Raised {A} msg.

Definition M (St A : Type) : Type := St -> St * Outcome A.

Definition ret {St A} (a : A) : M St A := fun s => (s, Done a).

Definition bind {St A B} (m : M St A) (k : A -> M St B) : M St B :=
  fun s =>
    match m s with
    | (s1, Done a) => k a s1
    | (s1, Raised e) => (s1, Raised e)
    end.

(** [throw e] *)
Definition raise {St A} (e : string) : M St A := fun s => (s, Raised e).

Definition gets {St A} (f : St -> A) : M St A := fun s => (s, Done (f s)).

Definition modify {St} (f : St -> St) : M St unit := fun s => (f s, Done tt).

(** Modelled from the spec: [assert(cond, msg)] of [@/utils/assert], a
    fatal assertion that throws its message when [cond] is false. *)
Definition assert {St} (cond : bool) (msg : string) : M St unit :=
  if cond then ret tt else raise msg.

Definition failed {A} (r : Outcome A) : bool :=
  match r with Done _ => false | Raised _ => true end.

End Eff.
Import Eff.

Declare Scope eff_scope.
Delimit Scope eff_scope with eff.
Notation "x <- m ;; k" := (bind m (fun x => k))
  (at level 61, m at next level, right associativity) : eff_scope.
Notation "m ;; k" := (bind m (fun _ => k))
  (at level 61, right associativity) : eff_scope.
Open Scope eff_scope.

(** ** The document tree ([@/utils/sheetNode]) *)

Module ENodeType.
(** Modelled from the spec: the discriminant tags of a document node
    (section 3), with a tag for the implicit root container. *)
Inductive t : Set :=
| Root | Text | Mark | NewLine | Chord | ChordPure | Underline | UnderlinePure.

Definition eqb (a b : t) : bool :=
  match a, b with
  | Root, Root | Text, Text | Mark, Mark | NewLine, NewLine
  | Chord, Chord | ChordPure, ChordPure
  | Underline, Underline | UnderlinePure, UnderlinePure => true
  | _, _ => false
  end.
End ENodeType.

(** Modelled from the spec: the chord data of [@/utils/chord] is opaque to
    the editor apart from [shiftKey]; a chord is its pitch class and a key
    its tonic, both counted in semitones. *)
Definition ChordData : Set := Z.
Definition Key : Set := Z.

Module KeyOps.
(** Modelled from the spec: [Key.isEqual], [Key.getOffset] and
    [Chord.shiftKey] ("rewrites its chord data by a computed
    transposition offset"). *)
Definition isEqual (a b : Key) : bool := Z.eqb a b.
Definition getOffset (oldKey newKey : Key) : Z := (newKey - oldKey)%Z.
Definition shiftKey (c : ChordData) (offset : Z) : ChordData := ((c + offset) mod 12)%Z.
End KeyOps.

(** Modelled from the spec: a document node (section 3) has a tag, a string
    content, chord data for the chord family and an ordered list of owned
    children.  The parent back-reference is the reference of the node. *)
#[local] Unset Elimination Schemes.
Inductive SheetNode : Type :=
  mkNode (type : ENodeType.t) (content : string) (chord : option ChordData)
         (children : list SheetNode).
#[local] Set Elimination Schemes.

Definition type (n : SheetNode) : ENodeType.t := let (t, _, _, _) := n in t.
Definition content (n : SheetNode) : string := let (_, c, _, _) := n in c.
Definition chord (n : SheetNode) : option ChordData := let (_, _, d, _) := n in d.
Definition children (n : SheetNode) : list SheetNode := let (_, _, _, cs) := n in cs.

Definition setType (t : ENodeType.t) (n : SheetNode) : SheetNode :=
  mkNode t (content n) (chord n) (children n).
Definition setContent (c : string) (n : SheetNode) : SheetNode :=
  mkNode (type n) c (chord n) (children n).
Definition setChord (d : option ChordData) (n : SheetNode) : SheetNode :=
  mkNode (type n) (content n) d (children n).
Definition setChildren (cs : list SheetNode) (n : SheetNode) : SheetNode :=
  mkNode (type n) (content n) (chord n) cs.

(** A node reference: the child indices from the root down to the node. *)
Definition NodeRef : Set := list nat.

Fixpoint ref_eqb (p q : NodeRef) : bool :=
  match p, q with
  | [], [] => true
  | i :: p', j :: q' => Nat.eqb i j && ref_eqb p' q'
  | _, _ => false
  end.

(** [q] is a prefix of [p]: the node at [q] is the node at [p] or one of its
    ancestors. *)
Fixpoint isPrefix (q p : NodeRef) : bool :=
  match q, p with
  | [], _ => true
  | i :: q', j :: p' => Nat.eqb i j && isPrefix q' p'
  | _ :: _, [] => false
  end.

Fixpoint commonPrefix (p q : NodeRef) : NodeRef :=
  match p, q with
  | i :: p', j :: q' => if Nat.eqb i j then i :: commonPrefix p' q' else []
  | _, _ => []
  end.

(** JavaScript's [Array.prototype.slice(a, b)] for [0 <= a]. *)
Definition slice {A} (a b : nat) (l : list A) : list A := firstn (b - a) (skipn a l).

(** [arr.splice(i, 0, ...xs)] *)
Definition spliceIn {A} (i : nat) (xs l : list A) : list A := firstn i l ++ xs ++ skipn i l.

(** [arr.splice(a, len)]: removal of [len] elements from index [a] on. *)
Definition spliceOut {A} (a len : nat) (l : list A) : list A := firstn a l ++ skipn (a + len) l.

(** The element at index [i] replaced by [f] of it. *)
Fixpoint modifyNth {A} (i : nat) (f : A -> A) (l : list A) : list A :=
  match l, i with
  | [], _ => []
  | x :: l', O => f x :: l'
  | x :: l', S i' => x :: modifyNth i' f l'
  end.

Fixpoint getNode (n : SheetNode) (p : NodeRef) : option SheetNode :=
  match p with
  | [] => Some n
  | i :: p' =>
      match nth_error (children n) i with
      | Some c => getNode c p'
      | None => None
      end
  end.

Fixpoint modifyNode (p : NodeRef) (f : SheetNode -> SheetNode) (n : SheetNode) : SheetNode :=
  match p with
  | [] => f n
  | i :: p' => setChildren (modifyNth i (modifyNode p' f) (children n)) n
  end.

(** The children of the node at [p] replaced by [g] of them. *)
Definition modifyChildren (p : NodeRef) (g : list SheetNode -> list SheetNode)
    (root : SheetNode) : SheetNode :=
  modifyNode p (fun n => setChildren (g (children n)) n) root.

Module NodeUtils.

(** Modelled from the spec: [SheetNode.isChord], a chord-family node. *)
Definition isChord (n : SheetNode) : bool :=
  match type n with
  | ENodeType.Chord | ENodeType.ChordPure => true
  | _ => false
  end.

(** Modelled from the spec: [SheetNode.isUnderline], an underline span. *)
Definition isUnderline (n : SheetNode) : bool :=
  match type n with
  | ENodeType.Underline | ENodeType.UnderlinePure => true
  | _ => false
  end.

(** Modelled from the spec: [node.parent], absent for the root. *)
Definition parent (p : NodeRef) : option NodeRef :=
  match p with
  | [] => None
  | _ => Some (removelast p)
  end.

(** Modelled from the spec: [node.getSelfIndex()], the index of the node
    among the children of its parent. *)
Definition getSelfIndex (p : NodeRef) : nat := last p 0.

(** Modelled from the spec: [node.isFirstChild()] and
    [node.prevSibling() == null]. *)
Definition isFirstChild (p : NodeRef) : bool := Nat.eqb (getSelfIndex p) 0.

(** Modelled from the spec: [node.isLastChild()] and
    [node.nextSibling() == null]. *)
Definition isLastChild (root : SheetNode) (p : NodeRef) : bool :=
  match getNode root (removelast p) with
  | Some par => Nat.eqb (S (getSelfIndex p)) (List.length (children par))
  | None => false
  end.

(** Modelled from the spec: [NodeUtils.createUnderlineNode(isPure)]
    constructs an empty group node of the given purity. *)
Definition createUnderlineNode (isPure : bool) : SheetNode :=
  mkNode (if isPure then ENodeType.UnderlinePure else ENodeType.Underline) "" None [].

(** Modelled from the spec: [NodeUtils.createTextNode(content)]. *)
Definition createTextNode (c : string) : SheetNode :=
  mkNode ENodeType.Text c None [].

(** Modelled from the spec: [NodeUtils.createTextNodes(text)] constructs
    one text node per character, in order (invariant I3). *)
Fixpoint createTextNodes (text : string) : list SheetNode :=
  match text with
  | EmptyString => []
  | String c rest => createTextNode (String c EmptyString) :: createTextNodes rest
  end.

(** Modelled from the spec: [NodeUtils.createMarkNode(text)], a mark with
    free-length content. *)
Definition createMarkNode (text : string) : SheetNode :=
  mkNode ENodeType.Mark text None [].

(** Modelled from the spec: [NodeUtils.createNewLineNode()]. *)
Definition createNewLineNode : SheetNode :=
  mkNode ENodeType.NewLine "" None [].

(** Modelled from the spec: [NodeUtils.createChordNode(content, chord)],
    an annotated chord with the caller's chord data. *)
Definition createChordNode (c : string) (d : ChordData) : SheetNode :=
  mkNode ENodeType.Chord c (Some d) [].

(** The first node of type [ty] in the subtree of [n], in document
    (pre-order) order, as a reference relative to [n]. *)
Fixpoint findIn (ty : ENodeType.t) (n : SheetNode) : option NodeRef :=
  match n with
  | mkNode t _ _ cs =>
      if ENodeType.eqb t ty then Some []
      else
        (fix go (l : list SheetNode) (i : nat) : option NodeRef :=
           match l with
           | [] => None
           | c :: l' =>
               match findIn ty c with
               | Some q => Some (i :: q)
               | None => go l' (S i)
               end
           end) cs 0
  end.

(** The same search through a list of siblings, the first of which has
    index [i]. *)
Fixpoint findInList (ty : ENodeType.t) (l : list SheetNode) (i : nat) : option NodeRef :=
  match l with
  | [] => None
  | c :: l' =>
      match findIn ty c with
      | Some q => Some (i :: q)
      | None => findInList ty l' (S i)
      end
  end.

(** Modelled from the spec: [NodeUtils.findNextNodeByType(node, type)],
    the next node of the given type in forward document order, strictly
    after [node]; [None] is JavaScript's [null]. *)
Fixpoint findNextNodeByType (n : SheetNode) (p : NodeRef) (ty : ENodeType.t)
    : option NodeRef :=
  match p with
  | [] => findInList ty (children n) 0
  | i :: p' =>
      match nth_error (children n) i with
      | None => None
      | Some c =>
          match findNextNodeByType c p' ty with
          | Some q => Some (i :: q)
          | None => findInList ty (skipn (S i) (children n)) (S i)
          end
      end
  end.

(** The references of the nodes of a list of siblings and of their
    subtrees, in document (pre-order) order; the first sibling has
    index [i]. *)
Fixpoint preorderRefs (n : SheetNode) : list NodeRef :=
  match n with
  | mkNode _ _ _ cs =>
      [] :: (fix go (l : list SheetNode) (i : nat) : list NodeRef :=
               match l with
               | [] => []
               | c :: l' => map (cons i) (preorderRefs c) ++ go l' (S i)
               end) cs 0
  end.

Fixpoint preorderRefsList (l : list SheetNode) (i : nat) : list NodeRef :=
  match l with
  | [] => []
  | c :: l' => map (cons i) (preorderRefs c) ++ preorderRefsList l' (S i)
  end.

(** The references strictly after [p] in document order. *)
Fixpoint refsAfter (n : SheetNode) (p : NodeRef) : list NodeRef :=
  match p with
  | [] => preorderRefsList (children n) 0
  | i :: p' =>
      match nth_error (children n) i with
      | None => []
      | Some c =>
          map (cons i) (refsAfter c p')
            ++ preorderRefsList (skipn (S i) (children n)) (S i)
      end
  end.

(** The visit of a list of references with a callback that stops the
    traversal by returning [true]; the callback's captured variables are
    the accumulator. *)
Fixpoint visitRefs {Acc} (root : SheetNode) (callback : Acc -> NodeRef -> SheetNode -> Acc * bool)
    (refs : list NodeRef) (acc : Acc) : Acc :=
  match refs with
  | [] => acc
  | r :: rs =>
      match getNode root r with
      | None => acc
      | Some n =>
          let (acc', stop) := callback acc r n in
          if stop then acc' else visitRefs root callback rs acc'
      end
  end.

(** Modelled from the spec: [NodeUtils.traverseForward(node, includeSelf,
    callback)], the depth-first traversal in forward document order from
    [node] with an early-stop predicate. *)
Definition traverseForward {Acc} (root : SheetNode) (node : NodeRef) (includeSelf : bool)
    (callback : Acc -> NodeRef -> SheetNode -> Acc * bool) (acc : Acc) : Acc :=
  visitRefs root callback
    ((if includeSelf then [node] else []) ++ refsAfter root node) acc.

(** Modelled from the spec: [NodeUtils.getSiblingBetween(a, b, includeA,
    includeB)], the siblings from index [a] to index [b] of a children
    list, each end included or not. *)
Definition getSiblingBetween (cs : list SheetNode) (a b : nat)
    (includeA includeB : bool) : list SheetNode :=
  slice (if includeA then a else S a) (if includeB then S b else b) cs.

(** Modelled from the spec: [NodeUtils.parentsOf(node)], the ancestors of
    a node, nearest first. *)
Fixpoint parentsOf (p : NodeRef) : list NodeRef :=
  match p with
  | [] => []
  | i :: p' => map (cons i) (parentsOf p') ++ [[]]
  end.

(** [parents.includes(node)] for a node that may be [null]. *)
Definition includes (l : list NodeRef) (q : option NodeRef) : bool :=
  match q with
  | None => false
  | Some q' => existsb (ref_eqb q') l
  end.

(** Modelled from the spec: [NodeUtils.parentUntil(node, ancestor)], the
    node on the chain from [node] up to [ancestor] whose parent is
    [ancestor]. *)
Definition parentUntil (p ancestor : NodeRef) : NodeRef :=
  firstn (S (List.length ancestor)) p.

(** Modelled from the spec: [NodeUtils.commonAncestor(a, b)], the nearest
    common ancestor of two nodes; [None] when one of them has no
    parent. *)
Definition commonAncestor (a b : NodeRef) : option NodeRef :=
  match parent a, parent b with
  | Some pa, Some pb => Some (commonPrefix pa pb)
  | _, _ => None
  end.

(** The anchor nodes of the removal algorithm:
    [n => n.isChord() || n.isUnderline()]. *)
Definition isAnchor (n : SheetNode) : bool := isChord n || isUnderline n.

(** [anchorNodes.indexOf(node)] for the child at index [a] of [cs], where
    [anchorNodes = cs.filter(isAnchor)]: [-1] when the child is not an
    anchor. *)
Definition anchorIndexOf (cs : list SheetNode) (a : nat) : Z :=
  match nth_error cs a with
  | Some n =>
      if isAnchor n then Z.of_nat (List.length (filter isAnchor (firstn a cs)))
      else (-1)%Z
  | None => (-1)%Z
  end.

End NodeUtils.

(** ** The snapshot history ([@/utils/history]) *)

Module History.

(** Modelled from the spec: the bounded undo/redo buffer with a cursor
    (section 6).  The entries before the cursor are kept nearest first,
    then the entry at the cursor, then the entries after it; at most
    [maxSize] entries are kept. *)
Record t (T : Type) : Type := mk {
  maxSize : nat;
  prev : list T;
  current : T;
  next : list T
}.
Arguments mk {T} maxSize prev current next.

Section Ops.
Context {T : Type}.

(** Modelled from the spec: [new History(maxSize, initialValue)]. *)
Definition new (maxSize : nat) (initialValue : T) : t T :=
  mk maxSize [] initialValue [].

(** Modelled from the spec: [clear(seed)] resets to one entry. *)
Definition clear (seed : T) (h : t T) : t T := mk (maxSize h) [] seed [].

Definition getCurrent (h : t T) : T := current h.

Definition hasPrev (h : t T) : bool :=
  match prev h with [] => false | _ => true end.

Definition hasNext (h : t T) : bool :=
  match next h with [] => false | _ => true end.

(** Modelled from the spec: [add(snapshot)] truncates the forward
    (redo) entries beyond the cursor and evicts the oldest entry once
    the capacity is exceeded. *)
Definition add (v : T) (h : t T) : t T :=
  mk (maxSize h) (firstn (maxSize h - 1) (current h :: prev h)) v [].

(** Modelled from the spec: [goPrev()] moves the cursor back and
    returns the entry there. *)
Definition goPrev (h : t T) : t T :=
  match prev h with
  | [] => h
  | p :: ps => mk (maxSize h) ps p (current h :: next h)
  end.

(** Modelled from the spec: [goNext()] moves the cursor forward and
    returns the entry there. *)
Definition goNext (h : t T) : t T :=
  match next h with
  | [] => h
  | n :: ns => mk (maxSize h) (current h :: prev h) n ns
  end.

Definition size (h : t T) : nat := List.length (prev h) + 1 + List.length (next h).

(** The entries from the oldest to the newest, and the position of the
    cursor among them. *)
Definition entries (h : t T) : list T := rev (prev h) ++ current h :: next h.
Definition cursor (h : t T) : nat := List.length (prev h).

(** The entries up to the cursor, the newest first. *)
Definition past (h : t T) : list T := current h :: prev h.
End Ops.

End History.

(** ** The operation coordinator ([class AtomEditOperation]) *)

Module AtomEditOperation.

Section Coordinator.
Context {St : Type}.
(** The [count] field and the two callbacks given to the constructor. *)
Variable getCount : St -> Z.
Variable setCount : Z -> St -> St.
Variable onDone : M St unit.
Variable onFailed : M St unit.

Definition beginOperation : M St unit :=
  modify (fun s => setCount (getCount s + 1)%Z s).

Definition endOperation (failed : bool) : M St unit :=
  modify (fun s => setCount (getCount s - 1)%Z s) ;;
  c <- gets getCount ;;
  assert (0 <=? c)%Z "should not resume more than pause" ;;
  (if (c =? 0)%Z && negb failed then onDone else ret tt) ;;
  (if failed then onFailed else ret tt).

(** [try { return func() } catch (e) { failed = true; throw e }
    finally { this.endOperation(failed) }]: a failure of the [finally]
    block replaces the pending result. *)
Definition run {A} (func : M St A) : M St A :=
  fun s =>
    let (s1, _) := beginOperation s in
    let (s2, r) := func s1 in
    let (s3, r') := endOperation (Eff.failed r) s2 in
    match r' with
    | Done _ => (s3, r)
    | Raised e' => (s3, Raised e')
    end.
End Coordinator.

End AtomEditOperation.

(** ** The editor ([UndoableEditor], [SheetEditorCore]) *)

Definition MAX_UNDO_TIMES : nat := 100.

(** Modelled from the spec: the document metadata ([@/utils/sheetMeta])
    holds the sheet's key. *)
Record SheetMeta : Set := mkMeta { sheetKey : Key }.

Record SheetEditorCore : Type := mkEditor {
  meta : SheetMeta;
  root : SheetNode;
  history : History.t SheetNode;
  (** [atomOperation.count] *)
  count : Z
}.

Definition setMetaField (m : SheetMeta) (s : SheetEditorCore) : SheetEditorCore :=
  mkEditor m (root s) (history s) (count s).
Definition setRoot (r : SheetNode) (s : SheetEditorCore) : SheetEditorCore :=
  mkEditor (meta s) r (history s) (count s).
Definition setHistory (h : History.t SheetNode) (s : SheetEditorCore) : SheetEditorCore :=
  mkEditor (meta s) (root s) h (count s).
Definition setCount (c : Z) (s : SheetEditorCore) : SheetEditorCore :=
  mkEditor (meta s) (root s) (history s) c.

(** Computations of the editor. *)
Definition E (A : Type) : Type := M SheetEditorCore A.

(** Modelled from the spec: [SheetNode.clone()], the deep copy of a
    subtree; a pure tree is its own deep copy. *)
Definition clone (n : SheetNode) : SheetNode := n.

Definition modifyRoot (f : SheetNode -> SheetNode) : E unit :=
  modify (fun s => setRoot (f (root s)) s).

(** The use of a node reference: the node it denotes in the live tree. *)
Definition deref (p : NodeRef) : E SheetNode :=
  fun s =>
    match getNode (root s) p with
    | Some n => (s, Done n)
    | None => (s, Raised "TypeError: the node is not in the tree")
    end.

(** The use of [node.parent]: [null] for the root. *)
Definition parentOf (p : NodeRef) : E NodeRef :=
  match NodeUtils.parent p with
  | Some q => ret q
  | None => raise "TypeError: the parent is null"
  end.

Definition getToHistory : E SheetNode := gets (fun s => clone (root s)).

(** [this.root.children = []; if (clone) root = root.clone();
    NodeUtils.append(this.root, root.children)] *)
Definition __replaceSheet (newRoot : SheetNode) (doClone : bool) : E unit :=
  modifyRoot (setChildren []) ;;
  let newRoot := if doClone then clone newRoot else newRoot in
  modifyRoot (fun r => setChildren (children r ++ children newRoot) r).

Definition setFromHistory (h : SheetNode) : E unit := __replaceSheet h true.

Definition canUndo : E bool := gets (fun s => History.hasPrev (history s)).
Definition canRedo : E bool := gets (fun s => History.hasNext (history s)).

Definition undo : E unit :=
  b <- canUndo ;;
  assert b "no more histroy for undo" ;;
  modify (fun s => setHistory (History.goPrev (history s)) s) ;;
  h <- gets (fun s => History.getCurrent (history s)) ;;
  setFromHistory h.

Definition redo : E unit :=
  b <- canRedo ;;
  assert b "no more histroy for redo" ;;
  modify (fun s => setHistory (History.goNext (history s)) s) ;;
  h <- gets (fun s => History.getCurrent (history s)) ;;
  setFromHistory h.

Definition addHistory : E unit :=
  snapshot <- getToHistory ;;
  modify (fun s => setHistory (History.add snapshot (history s)) s).

Definition retoreNewestHistory : E unit :=
  h <- gets (fun s => History.getCurrent (history s)) ;;
  setFromHistory h.

Definition clearHistory : E unit :=
  snapshot <- getToHistory ;;
  modify (fun s => setHistory (History.clear snapshot (history s)) s).

(** [new SheetEditorCore(meta, root)] *)
Definition newEditor (m : SheetMeta) (r : SheetNode) : SheetEditorCore :=
  mkEditor m r (History.new MAX_UNDO_TIMES (clone r)) 0%Z.

Definition replaceSheet (newRoot : SheetNode) (doClone clearHist : bool) : E unit :=
  __replaceSheet newRoot doClone ;;
  if clearHist then clearHistory else addHistory.

Definition clearSheet : E unit :=
  modifyRoot (setChildren []) ;;
  addHistory.

Definition runAtomOperation {A} (func : E A) : E A :=
  AtomEditOperation.run count setCount addHistory retoreNewestHistory func.

(** ** Tree surgery of the structural editor *)

Module Surgery.
Import NodeUtils.

(** Modelled from the spec: [NodeUtils.append(parent, nodes)]. *)
Definition append (nodes : list SheetNode) (par : SheetNode) : SheetNode :=
  setChildren (children par ++ nodes) par.

(** Modelled from the spec: [NodeUtils.prepend(parent, nodes)]. *)
Definition prepend (nodes : list SheetNode) (par : SheetNode) : SheetNode :=
  setChildren (nodes ++ children par) par.

(** Modelled from the spec: [NodeUtils.replace(node, newNodes)] on the
    children of the parent, [u] being the index of [node]. *)
Definition replaceAt (u : nat) (newNodes : list SheetNode) (cs : list SheetNode)
    : list SheetNode :=
  firstn u cs ++ newNodes ++ skipn (S u) cs.

Definition parentIsUnderline (root : SheetNode) (p : NodeRef) : bool :=
  match parent p with
  | None => false
  | Some q =>
      match getNode root q with
      | Some par => isUnderline par
      | None => false
      end
  end.

(** [while (targetNode.isLastChild() && targetNode.parent.isUnderline())
    targetNode = targetNode.parent], on the reversed reference. *)
Fixpoint walkOutLast (root : SheetNode) (rp : list nat) : list nat :=
  match rp with
  | [] => []
  | _ :: rq =>
      if isLastChild root (rev rp) && parentIsUnderline root (rev rp)
      then walkOutLast root rq
      else rp
  end.

(** [while (targetNode.isFirstChild() && targetNode.parent.isUnderline())
    targetNode = targetNode.parent], on the reversed reference. *)
Fixpoint walkOutFirst (root : SheetNode) (rp : list nat) : list nat :=
  match rp with
  | [] => []
  | _ :: rq =>
      if isFirstChild (rev rp) && parentIsUnderline root (rev rp)
      then walkOutFirst root rq
      else rp
  end.

(** The first loop of [__assertBeginAndEnd]: [true] when the descent
    through first children ends at a chord. *)
Fixpoint beginsWithChord (n : SheetNode) : bool :=
  match n with
  | mkNode t _ _ cs =>
      match t with
      | ENodeType.Chord | ENodeType.ChordPure => true
      | ENodeType.Underline | ENodeType.UnderlinePure =>
          match cs with
          | c :: _ => beginsWithChord c
          | [] => false
          end
      | _ => false
      end
  end.

(** The second loop of [__assertBeginAndEnd]. *)
Fixpoint endsWithChord (n : SheetNode) : bool :=
  match n with
  | mkNode t _ _ cs =>
      match t with
      | ENodeType.Chord | ENodeType.ChordPure => true
      | ENodeType.Underline | ENodeType.UnderlinePure =>
          (fix lastOf (l : list SheetNode) : bool :=
             match l with
             | [] => false
             | [c] => endsWithChord c
             | _ :: l' => lastOf l'
             end) cs
      | _ => false
      end
  end.

(** The chord data of every chord of the subtree shifted, in depth-first
    order; [false] when a chord without chord data stopped the traversal
    ([node.chord.shiftKey] of [undefined]). *)
Fixpoint shiftChords (offset : Z) (n : SheetNode) : SheetNode * bool :=
  match n with
  | mkNode t c d cs =>
      let go :=
        fix go (l : list SheetNode) : list SheetNode * bool :=
          match l with
          | [] => ([], true)
          | x :: l' =>
              let (x', ok) := shiftChords offset x in
              if ok then let (l'', ok') := go l' in (x' :: l'', ok')
              else (x' :: l', false)
          end in
      if isChord n then
        match d with
        | Some v =>
            let (cs', ok) := go cs in
            (mkNode t c (Some (KeyOps.shiftKey v offset)) cs', ok)
        | None => (n, false)
        end
      else
        let (cs', ok) := go cs in (mkNode t c d cs', ok)
  end.

End Surgery.
Import Surgery.

(** ** The commands of [SheetEditorCore] *)

(** [insertAfter(node, data)] *)
Definition insertAfter (node : NodeRef) (data : list SheetNode) : E unit :=
  runAtomOperation (
    _ <- deref node ;;
    _ <- parentOf node ;;
    r <- gets root ;;
    let targetNode := rev (walkOutLast r (rev node)) in
    par <- parentOf targetNode ;;
    let index := NodeUtils.getSelfIndex targetNode + 1 in
    modifyRoot (modifyChildren par (spliceIn index data))).

(** [insertBefore(node, data)] *)
Definition insertBefore (node : NodeRef) (data : list SheetNode) : E unit :=
  runAtomOperation (
    _ <- deref node ;;
    _ <- parentOf node ;;
    r <- gets root ;;
    let targetNode := rev (walkOutFirst r (rev node)) in
    par <- parentOf targetNode ;;
    let index := NodeUtils.getSelfIndex targetNode in
    modifyRoot (modifyChildren par (spliceIn index data))).

(** [content[0]] of a non-empty string. *)
Definition firstChar (s : string) : string :=
  match s with
  | EmptyString => EmptyString
  | String c _ => String c EmptyString
  end.

(** [content.slice(1)] *)
Definition restChars (s : string) : string :=
  match s with
  | EmptyString => EmptyString
  | String _ rest => rest
  end.

(** [updateContent(node, content)] *)
Definition updateContent (node : NodeRef) (newContent : string) : E unit :=
  runAtomOperation (
    n <- deref node ;;
    assert (existsb (ENodeType.eqb (type n))
              [ENodeType.Text; ENodeType.Chord; ENodeType.Mark])
           "cannot edit the content of this node" ;;
    assert (0 <? String.length newContent) "the new content must not be empty" ;;
    (if ENodeType.eqb (type n) ENodeType.Text || ENodeType.eqb (type n) ENodeType.Chord
     then assert (String.length (content n) =? 1)
                 "the content of a text or chord node should be one character"
     else ret tt) ;;
    match type n with
    | ENodeType.Text | ENodeType.Chord =>
        modifyRoot (modifyNode node (setContent (firstChar newContent))) ;;
        let remaining := restChars newContent in
        if 0 <? String.length remaining
        then insertAfter node (NodeUtils.createTextNodes remaining)
        else ret tt
    | ENodeType.Mark =>
        modifyRoot (modifyNode node (setContent newContent))
    | _ => ret tt
    end).

(** [replace(node, newNode)] *)
Definition replace (node : NodeRef) (newNode : SheetNode) : E unit :=
  runAtomOperation (
    _ <- deref node ;;
    par <- parentOf node ;;
    modifyRoot (modifyChildren par (replaceAt (NodeUtils.getSelfIndex node) [newNode]))).

(** [updateChord(node, chord)] *)
Definition updateChord (node : NodeRef) (d : ChordData) : E unit :=
  runAtomOperation (
    _ <- deref node ;;
    modifyRoot (modifyNode node (setChord (Some d)))).

(** [convertToChord(node, chord)]; the result is the reference of the chord
    node, which takes the place of [node]. *)
Definition convertToChord (node : NodeRef) (d : ChordData) : E NodeRef :=
  runAtomOperation (
    n <- deref node ;;
    if NodeUtils.isChord n then
      updateChord node d ;;
      ret node
    else if ENodeType.eqb (type n) ENodeType.Text then
      let chordNode := NodeUtils.createChordNode (content n) d in
      par <- parentOf node ;;
      modifyRoot (modifyChildren par (replaceAt (NodeUtils.getSelfIndex node) [chordNode])) ;;
      ret node
    else raise "type error: the node cannot be converted to a chord").

(** [setKey(newKey, shiftChord)] *)
Definition setKey (newKey : Key) (shiftChord : bool) : E unit :=
  oldKey <- gets (fun s => sheetKey (meta s)) ;;
  if KeyOps.isEqual newKey oldKey then ret tt
  else
    modify (setMetaField (mkMeta newKey)) ;;
    if shiftChord then
      let offset := KeyOps.getOffset oldKey newKey in
      r <- gets root ;;
      let (r', ok) := shiftChords offset r in
      modifyRoot (fun _ => r') ;;
      if ok then ret tt else raise "TypeError: the chord is undefined"
    else ret tt.

(** [insert(node, type, insertBefore)]; [prompt] is the text provider,
    whose answer is [None] when the request is cancelled. *)
Definition insert (prompt : string -> string -> option string)
    (node : NodeRef) (ty : string) (before : bool) : E unit :=
  runAtomOperation (
    let place (newNodes : list SheetNode) : E unit :=
      if before then insertBefore node newNodes else insertAfter node newNodes in
    let isEmpty (text : option string) : bool :=
      match text with
      | None => true
      | Some t => String.eqb t ""
      end in
    if String.eqb ty "text" then
      let text := prompt "insert text" "enter the text" in
      if isEmpty text then ret tt
      else place (NodeUtils.createTextNodes (match text with Some t => t | None => "" end))
    else if String.eqb ty "space" then
      place (NodeUtils.createTextNodes " ")
    else if String.eqb ty "mark" then
      let text := prompt "insert mark" "enter the mark" in
      if isEmpty text then ret tt
      else place [NodeUtils.createMarkNode (match text with Some t => t | None => "" end)]
    else if String.eqb ty "newline" then
      place [NodeUtils.createNewLineNode]
    else raise "wrong type of node to insert").

(** *** Adding an underline *)

Definition option_ref_eqb (a b : option NodeRef) : bool :=
  match a, b with
  | Some p, Some q => ref_eqb p q
  | None, None => true
  | _, _ => false
  end.

(** [__assertBeginAndEnd(nodes)] *)
Definition __assertBeginAndEnd (nodes : list SheetNode) : E unit :=
  match nodes with
  | [] => raise "TypeError: the node is undefined"
  | beginNode :: _ =>
      (if beginsWithChord beginNode then ret tt
       else raise "the first element of an underline must be a chord") ;;
      (if endsWithChord (last nodes beginNode) then ret tt
       else raise "the last element of an underline must be a chord")
  end.

(** The callback of the purity check; the captured [hasChord] and
    [hasPureChord] are the accumulator. *)
Definition purityCallback (endChordNode : NodeRef) (acc : bool * bool)
    (r : NodeRef) (n : SheetNode) : (bool * bool) * bool :=
  let (hasChord, hasPureChord) := acc in
  ((hasChord || ENodeType.eqb (type n) ENodeType.Chord,
    hasPureChord || ENodeType.eqb (type n) ENodeType.ChordPure),
   ref_eqb r endChordNode).

(** The branch [startChordNode.parent == endChordNode.parent]. *)
Definition addUnderline_sameLevel (startChordNode endChordNode : NodeRef) : E unit :=
  parentRef <- parentOf startChordNode ;;
  par <- deref parentRef ;;
  let i := NodeUtils.getSelfIndex startChordNode in
  let j := NodeUtils.getSelfIndex endChordNode in
  let betweenNodes := NodeUtils.getSiblingBetween (children par) i j true true in
  assert (2 <=? List.length betweenNodes) "wrong number of nodes in between" ;;
  __assertBeginAndEnd betweenNodes ;;
  r <- gets root ;;
  let (hasChord, hasPureChord) :=
    NodeUtils.traverseForward r startChordNode false
      (purityCallback endChordNode) (false, false) in
  assert (negb (hasChord && hasPureChord))
         "an underline cannot hold both annotated and pure chords" ;;
  let underlineNode := NodeUtils.createUnderlineNode hasPureChord in
  (* NodeUtils.insertBefore(betweenNodes[0], underlineNode) *)
  modifyRoot (modifyChildren parentRef (spliceIn i [underlineNode])) ;;
  (* NodeUtils.removeFromParent(betweenNodes), now from index i + 1 on *)
  modifyRoot (modifyChildren parentRef (spliceOut (S i) (List.length betweenNodes))) ;;
  (* NodeUtils.append(underlineNode, betweenNodes) *)
  modifyRoot (modifyNode (parentRef ++ [i]) (append betweenNodes)).

(** The branch [parentsOf(startChordNode).includes(endChordNode.parent)]:
    the underline of the start is extended forwards. *)
Definition addUnderline_extendForward (startChordNode endChordNode : NodeRef) : E unit :=
  parentRef <- parentOf endChordNode ;;
  let startUnderlineNode := NodeUtils.parentUntil startChordNode parentRef in
  assert (negb (ref_eqb startUnderlineNode endChordNode))
         "the boundary node cannot be the underline itself" ;;
  assert (option_ref_eqb (NodeUtils.parent startUnderlineNode) (Some parentRef))
         "the node to extend to must be on the same level" ;;
  endNode <- deref endChordNode ;;
  assert (NodeUtils.isChord endNode) "the end of an extended underline must be a chord" ;;
  par <- deref parentRef ;;
  let k := NodeUtils.getSelfIndex startUnderlineNode in
  let j := NodeUtils.getSelfIndex endChordNode in
  let betweenNodes := NodeUtils.getSiblingBetween (children par) k j false true in
  (* NodeUtils.removeFromParent(betweenNodes) *)
  modifyRoot (modifyChildren parentRef (spliceOut (S k) (List.length betweenNodes))) ;;
  (* NodeUtils.append(startUnderlineNode, betweenNodes) *)
  modifyRoot (modifyNode startUnderlineNode (append betweenNodes)).

(** The branch [parentsOf(endChordNode).includes(startChordNode.parent)]:
    the underline of the end is extended backwards. *)
Definition addUnderline_extendBackward (startChordNode endChordNode : NodeRef) : E unit :=
  parentRef <- parentOf startChordNode ;;
  let endUnderlineNode := NodeUtils.parentUntil endChordNode parentRef in
  assert (negb (ref_eqb endUnderlineNode startChordNode))
         "the boundary node cannot be the underline itself" ;;
  assert (option_ref_eqb (NodeUtils.parent endUnderlineNode) (Some parentRef))
         "the node to extend to must be on the same level" ;;
  startNode <- deref startChordNode ;;
  assert (NodeUtils.isChord startNode) "the start of an extended underline must be a chord" ;;
  par <- deref parentRef ;;
  let i := NodeUtils.getSelfIndex startChordNode in
  let k := NodeUtils.getSelfIndex endUnderlineNode in
  let betweenNodes := NodeUtils.getSiblingBetween (children par) i k true false in
  (* NodeUtils.removeFromParent(betweenNodes) *)
  modifyRoot (modifyChildren parentRef (spliceOut i (List.length betweenNodes))) ;;
  (* NodeUtils.prepend(endUnderlineNode, betweenNodes); the underline has
     moved down by the number of nodes removed before it *)
  modifyRoot (modifyNode (parentRef ++ [k - List.length betweenNodes]) (prepend betweenNodes)).

(** The last branch: two underlines and the nodes between them are merged. *)
Definition addUnderline_merge (startChordNode endChordNode : NodeRef) : E unit :=
  match NodeUtils.commonAncestor startChordNode endChordNode with
  | None => raise "TypeError: the common ancestor is null"
  | Some commonAncestorNode =>
      let startUnderlineNode := NodeUtils.parentUntil startChordNode commonAncestorNode in
      let endUnderlineNode := NodeUtils.parentUntil endChordNode commonAncestorNode in
      su <- deref startUnderlineNode ;;
      eu <- deref endUnderlineNode ;;
      assert (NodeUtils.isUnderline su && NodeUtils.isUnderline eu)
             "the nodes to merge must be underlines" ;;
      assert (negb (ref_eqb startUnderlineNode endUnderlineNode))
             "an underline cannot be merged with itself" ;;
      assert (option_ref_eqb (NodeUtils.parent startUnderlineNode)
                             (NodeUtils.parent endUnderlineNode))
             "the underlines to merge must be on the same level" ;;
      assert (ENodeType.eqb (type su) (type eu))
             "the underlines to merge must have the same type" ;;
      (* if (startUnderlineNode.getSelfIndex() > endUnderlineNode.getSelfIndex()) swap *)
      let swap :=
        NodeUtils.getSelfIndex endUnderlineNode <? NodeUtils.getSelfIndex startUnderlineNode in
      let startRef := if swap then endUnderlineNode else startUnderlineNode in
      let endRef := if swap then startUnderlineNode else endUnderlineNode in
      let su' := if swap then eu else su in
      let eu' := if swap then su else eu in
      let a := NodeUtils.getSelfIndex startRef in
      let b := NodeUtils.getSelfIndex endRef in
      par <- deref commonAncestorNode ;;
      let betweenNodes := NodeUtils.getSiblingBetween (children par) a b false false in
      let mergedNode :=
        NodeUtils.createUnderlineNode (ENodeType.eqb (type su') ENodeType.UnderlinePure) in
      (* NodeUtils.removeFromParent(betweenNodes) *)
      modifyRoot (modifyChildren commonAncestorNode (spliceOut (S a) (List.length betweenNodes))) ;;
      (* the three NodeUtils.append calls on the detached mergedNode *)
      let mergedNode := append (children su') mergedNode in
      let mergedNode := append betweenNodes mergedNode in
      let mergedNode := append (children eu') mergedNode in
      (* NodeUtils.removeFromParent(endUnderlineNode), now at b - length *)
      modifyRoot (modifyChildren commonAncestorNode (spliceOut (b - List.length betweenNodes) 1)) ;;
      (* NodeUtils.replace(startUnderlineNode, mergedNode) *)
      modifyRoot (modifyChildren commonAncestorNode (replaceAt a [mergedNode]))
  end.

(** [addUnderlineForChord(chordNode)] *)
Definition addUnderlineForChord (chordNode : NodeRef) : E unit :=
  runAtomOperation (
    n <- deref chordNode ;;
    assert (NodeUtils.isChord n) "only a chord can get an underline" ;;
    let chordType := type n in
    r <- gets root ;;
    match NodeUtils.findNextNodeByType r chordNode chordType with
    | None => raise "cannot add an underline: no next chord"
    | Some nextChordNode =>
        let startChordNode := chordNode in
        let endChordNode := nextChordNode in
        if option_ref_eqb (NodeUtils.parent startChordNode) (NodeUtils.parent endChordNode)
        then addUnderline_sameLevel startChordNode endChordNode
        else if NodeUtils.includes (NodeUtils.parentsOf startChordNode)
                                   (NodeUtils.parent endChordNode)
        then addUnderline_extendForward startChordNode endChordNode
        else if NodeUtils.includes (NodeUtils.parentsOf endChordNode)
                                   (NodeUtils.parent startChordNode)
        then addUnderline_extendBackward startChordNode endChordNode
        else addUnderline_merge startChordNode endChordNode
    end).

(** *** Removing an underline *)

(** The branch [isBegin && isEnd]: the underline is dissolved. *)
Definition removeUnderline_dissolve (commonUnderlineNode : NodeRef) : E unit :=
  u <- deref commonUnderlineNode ;;
  par <- parentOf commonUnderlineNode ;;
  (* NodeUtils.replace(commonUnderlineNode, commonUnderlineNode.children) *)
  modifyRoot (modifyChildren par
                (replaceAt (NodeUtils.getSelfIndex commonUnderlineNode) (children u))).

(** The branch [!isBegin && isEnd]: the tail of the underline is moved out. *)
Definition removeUnderline_shrinkTail (commonUnderlineNode startNode : NodeRef) : E unit :=
  u <- deref commonUnderlineNode ;;
  sn <- deref startNode ;;
  assert (option_ref_eqb (NodeUtils.parent startNode) (Some commonUnderlineNode))
         "the base node of a shrink must be in the underline" ;;
  assert (NodeUtils.isChord sn || NodeUtils.isUnderline u)
         "the base node of a shrink should be a chord or an underline" ;;
  let a := NodeUtils.getSelfIndex startNode in
  let anchorCount := Z.of_nat (List.length (filter NodeUtils.isAnchor (children u))) in
  let baseNodeIndex := NodeUtils.anchorIndexOf (children u) a in
  assert (NodeUtils.isUnderline sn || (baseNodeIndex <? anchorCount - 1)%Z)
         "the base node of a tail shrink should not be the last chord" ;;
  let slicedNodes := skipn (S a) (children u) in
  (* NodeUtils.removeFromParent(slicedNodes) *)
  modifyRoot (modifyChildren commonUnderlineNode (spliceOut (S a) (List.length slicedNodes))) ;;
  (* NodeUtils.insertAfter(commonUnderlineNode, slicedNodes) *)
  par <- parentOf commonUnderlineNode ;;
  modifyRoot (modifyChildren par
                (spliceIn (NodeUtils.getSelfIndex commonUnderlineNode + 1) slicedNodes)).

(** The branch [isBegin && !isEnd]: the head of the underline is moved out. *)
Definition removeUnderline_shrinkHead (commonUnderlineNode endNode : NodeRef) : E unit :=
  u <- deref commonUnderlineNode ;;
  en <- deref endNode ;;
  assert (option_ref_eqb (NodeUtils.parent endNode) (Some commonUnderlineNode))
         "the base node of a shrink must be in the underline" ;;
  assert (NodeUtils.isChord en || NodeUtils.isUnderline en)
         "the base node of a shrink should be a chord or an underline" ;;
  let b := NodeUtils.getSelfIndex endNode in
  let baseNodeIndex := NodeUtils.anchorIndexOf (children u) b in
  assert (NodeUtils.isUnderline en || (0 <? baseNodeIndex)%Z)
         "the base node of a head shrink should not be the first chord" ;;
  let slicedNodes := slice 0 b (children u) in
  (* NodeUtils.removeFromParent(slicedNodes) *)
  modifyRoot (modifyChildren commonUnderlineNode (spliceOut 0 (List.length slicedNodes))) ;;
  (* NodeUtils.insertBefore(commonUnderlineNode, slicedNodes) *)
  par <- parentOf commonUnderlineNode ;;
  modifyRoot (modifyChildren par
                (spliceIn (NodeUtils.getSelfIndex commonUnderlineNode) slicedNodes)).

(** The last branch: the underline is split in two. *)
Definition removeUnderline_split (commonUnderlineNode startNode endNode : NodeRef) : E unit :=
  u <- deref commonUnderlineNode ;;
  assert (NodeUtils.isUnderline u) "the node to split must be an underline" ;;
  assert (option_ref_eqb (NodeUtils.parent startNode) (Some commonUnderlineNode)
          && option_ref_eqb (NodeUtils.parent endNode) (Some commonUnderlineNode))
         "the start and the end should be children of the underline" ;;
  (* if (startNode.getSelfIndex() > endNode.getSelfIndex()) swap *)
  let swap := NodeUtils.getSelfIndex endNode <? NodeUtils.getSelfIndex startNode in
  let startRef := if swap then endNode else startNode in
  let endRef := if swap then startNode else endNode in
  sn <- deref startRef ;;
  en <- deref endRef ;;
  let a := NodeUtils.getSelfIndex startRef in
  let b := NodeUtils.getSelfIndex endRef in
  let anchorCount := Z.of_nat (List.length (filter NodeUtils.isAnchor (children u))) in
  let startNodeIndex := NodeUtils.anchorIndexOf (children u) a in
  let endNodeIndex := NodeUtils.anchorIndexOf (children u) b in
  assert (NodeUtils.isUnderline sn || (0 <? startNodeIndex)%Z)
         "the start of a split should not be the first chord" ;;
  assert (NodeUtils.isUnderline en || (endNodeIndex <? anchorCount - 1)%Z)
         "the end of a split should not be the last chord" ;;
  let betweenNodes := NodeUtils.getSiblingBetween (children u) a b false false in
  let isPure := ENodeType.eqb (type u) ENodeType.UnderlinePure in
  let leftUnderline := NodeUtils.createUnderlineNode isPure in
  let rightUnderline := NodeUtils.createUnderlineNode isPure in
  par <- parentOf commonUnderlineNode ;;
  let ui := NodeUtils.getSelfIndex commonUnderlineNode in
  let len := List.length betweenNodes in
  (* NodeUtils.insertBefore(commonUnderlineNode, leftUnderline) *)
  modifyRoot (modifyChildren par (spliceIn ui [leftUnderline])) ;;
  (* NodeUtils.insertBefore(commonUnderlineNode, betweenNodes) *)
  modifyRoot (modifyChildren par (spliceIn (ui + 1) betweenNodes)) ;;
  (* NodeUtils.insertBefore(commonUnderlineNode, rightUnderline) *)
  modifyRoot (modifyChildren par (spliceIn (ui + 1 + len) [rightUnderline])) ;;
  (* NodeUtils.removeFromParent(commonUnderlineNode) *)
  modifyRoot (modifyChildren par (spliceOut (ui + 2 + len) 1)) ;;
  (* the children of the detached underline go to the two new ones *)
  modifyRoot (modifyNode (par ++ [ui]) (append (slice 0 (a + 1) (children u)))) ;;
  modifyRoot (modifyNode (par ++ [ui + 1 + len]) (append (skipn b (children u)))).

(** [removeUnderlineFromChordToNext(chordNode)] *)
Definition removeUnderlineFromChordToNext (chordNode : NodeRef) : E unit :=
  runAtomOperation (
    n <- deref chordNode ;;
    assert (NodeUtils.isChord n) "only a chord can lose an underline" ;;
    _ <- parentOf chordNode ;;
    r <- gets root ;;
    assert (parentIsUnderline r chordNode) "the chord is not under an underline" ;;
    assert (negb (NodeUtils.isLastChild r chordNode))
           "no underline between the chord and the next chord" ;;
    let chordType := type n in
    match NodeUtils.findNextNodeByType r chordNode chordType with
    | None => raise "next chord not found"
    | Some nextChordNode =>
        match NodeUtils.commonAncestor chordNode nextChordNode with
        | None => raise "no underline between the chord and the next chord"
        | Some commonUnderlineNode =>
            u <- deref commonUnderlineNode ;;
            assert (NodeUtils.isUnderline u)
                   "no underline between the chord and the next chord" ;;
            let startNode := NodeUtils.parentUntil chordNode commonUnderlineNode in
            let endNode := NodeUtils.parentUntil nextChordNode commonUnderlineNode in
            assert (NodeUtils.isUnderline u) "common ancestor is suppose to be underline" ;;
            let isBegin := NodeUtils.isFirstChild chordNode in
            let isEnd := NodeUtils.isLastChild r nextChordNode in
            if isBegin && isEnd then
              removeUnderline_dissolve commonUnderlineNode
            else if negb isBegin && isEnd then
              removeUnderline_shrinkTail commonUnderlineNode startNode
            else if isBegin && negb isEnd then
              removeUnderline_shrinkHead commonUnderlineNode endNode
            else
              removeUnderline_split commonUnderlineNode startNode endNode
        end
    end).

(** ** Notions used by the properties *)

(** The document is in a committed state: its content is the snapshot at
    the cursor of the history. *)
Definition committed (s : SheetEditorCore) : Prop :=
  children (root s) = children (History.getCurrent (history s)).

(** The effect of the rollback on the state. *)
Definition rolledBack (s : SheetEditorCore) : SheetEditorCore :=
  setRoot (setChildren (children (History.getCurrent (history s))) (root s)) s.

(** The effect of a commit on the state. *)
Definition committedNow (s : SheetEditorCore) : SheetEditorCore :=
  setHistory (History.add (clone (root s)) (history s)) s.

(** An action that runs inside a transaction: it mutates the tree and may
    nest further atom operations, and leaves the history and the nesting
    counter as it found them. *)
Definition stable {A} (f : E A) : Prop :=
  forall s, (0 < count s)%Z ->
    history (fst (f s)) = history s /\ count (fst (f s)) = count s.

(** A command pushes exactly one snapshot, that of the tree it leaves, when
    it is called outside any other operation and succeeds. *)
Definition commitsOnce {A} (f : E A) : Prop :=
  forall s s' a, count s = 0%Z -> f s = (s', Done a) ->
    history s' = History.add (clone (root s')) (history s).

(** A sequence of transactions, each one an atom operation. *)
Fixpoint runAll (fs : list (E unit)) : E unit :=
  match fs with
  | [] => ret tt
  | f :: fs' => runAtomOperation f ;; runAll fs'
  end.

(** A command applied [n] times. *)
Fixpoint times (n : nat) (c : E unit) : E unit :=
  match n with
  | O => ret tt
  | S n' => c ;; times n' c
  end.

(** The flattened leaf-content sequence: the contents of the text, chord,
    pure chord and mark nodes in document order. *)
Definition hasContent (t : ENodeType.t) : bool :=
  match t with
  | ENodeType.Text | ENodeType.Chord | ENodeType.ChordPure | ENodeType.Mark => true
  | _ => false
  end.

Fixpoint leafContents (n : SheetNode) : list string :=
  match n with
  | mkNode t c _ cs => (if hasContent t then [c] else []) ++ flat_map leafContents cs
  end.

Definition flattened (n : SheetNode) : string := String.concat "" (leafContents n).

(** The contents of a list of siblings. *)
Definition contentsOf (cs : list SheetNode) : list string := flat_map leafContents cs.


(** The node after which [insertAfter] inserts: the node itself, or the
    outermost underline reached from it through last children. *)
Definition insertionTarget (root : SheetNode) (node : NodeRef) : NodeRef :=
  rev (walkOutLast root (rev node)).

(** The leaf tags: only the root and the underlines have children. *)
Definition isLeafType (t : ENodeType.t) : bool :=
  match t with
  | ENodeType.Root | ENodeType.Underline | ENodeType.UnderlinePure => false
  | _ => true
  end.

Fixpoint wellFormed (n : SheetNode) : bool :=
  match n with
  | mkNode t _ _ cs =>
      (if isLeafType t then match cs with [] => true | _ => false end else true)
      && forallb wellFormed cs
  end.

(** Invariant I1, the anchor rule: the first and the last child of every
    underline resolve, through nested underlines, to a chord. *)
Fixpoint invariantI1 (n : SheetNode) : bool :=
  match n with
  | mkNode _ _ _ cs =>
      (if NodeUtils.isUnderline n then beginsWithChord n && endsWithChord n else true)
      && forallb invariantI1 cs
  end.

Fixpoint hasDescendantOfType (ty : ENodeType.t) (n : SheetNode) : bool :=
  match n with
  | mkNode t _ _ cs =>
      existsb (fun c => ENodeType.eqb (type c) ty || hasDescendantOfType ty c) cs
  end.

(** Invariant I2, the purity rule: an underline has no pure chord below it
    and a pure underline no annotated chord. *)
Fixpoint invariantI2 (n : SheetNode) : bool :=
  match n with
  | mkNode t _ _ cs =>
      match t with
      | ENodeType.Underline => negb (hasDescendantOfType ENodeType.ChordPure n)
      | ENodeType.UnderlinePure => negb (hasDescendantOfType ENodeType.Chord n)
      | _ => true
      end
      && forallb invariantI2 cs
  end.

(** ** A coordinator that records the calls of its callbacks *)

Module Probe.

Inductive Event : Set :=
| DoneAt (c : Z)      (* [onDone] called when the counter was [c] *)
| FailedAt (c : Z).   (* [onFailed] called when the counter was [c] *)

(** The state of a client of the coordinator: its own data, the counter
    and the calls of the callbacks so far, the latest first. *)
Record t (D : Type) : Type := mk {
  data : D;
  count : Z;
  log : list Event
}.
Arguments mk {D} data count log.

Section Client.
Context {D : Type}.

Definition setCount (c : Z) (s : t D) : t D := mk (data s) c (log s).
Definition onData (g : D -> D) : M (t D) unit :=
  modify (fun s => mk (g (data s)) (count s) (log s)).
Definition onDone : M (t D) unit :=
  modify (fun s => mk (data s) (count s) (DoneAt (count s) :: log s)).
Definition onFailed : M (t D) unit :=
  modify (fun s => mk (data s) (count s) (FailedAt (count s) :: log s)).

Definition run {A} (func : M (t D) A) : M (t D) A :=
  AtomEditOperation.run (@count D) setCount onDone onFailed func.

(** A chain of nested [run] calls: every frame does some work of its
    own and then calls the next one; the innermost frame runs
    [body]. *)
Fixpoint nested {A} (frames : list (D -> D)) (body : M (t D) A) : M (t D) A :=
  match frames with
  | [] => run body
  | g :: frames' => run (onData g ;; nested frames' body)
  end.

(** The calls of [onFailed] of a failed chain of the given depth whose
    outermost frame was entered with the counter at [c]: the latest
    call, that of the outermost frame, comes first. *)
Fixpoint failedTrail (c : Z) (depth : nat) : list Event :=
  match depth with
  | O => []
  | S d => FailedAt c :: failedTrail (c + 1)%Z d
  end.

Definition failedCalls (s : t D) : nat :=
  List.length (filter (fun e => match e with FailedAt _ => true | _ => false end) (log s)).
End Client.

End Probe.

(** ** Sample documents *)

Module Sample.
Definition chordNode (c : string) : SheetNode := mkNode ENodeType.Chord c (Some 0%Z) [].
Definition pureNode (c : string) : SheetNode := mkNode ENodeType.ChordPure c (Some 0%Z) [].
Definition textNode (c : string) : SheetNode := mkNode ENodeType.Text c None [].
Definition underlineOf (cs : list SheetNode) : SheetNode :=
  mkNode ENodeType.Underline "" None cs.
Definition rootOf (cs : list SheetNode) : SheetNode := mkNode ENodeType.Root "" None cs.
Definition editorOf (cs : list SheetNode) : SheetEditorCore :=
  newEditor (mkMeta 0%Z) (rootOf cs).

(** A sheet with one chord, after a key shift with chord transposition. *)
Definition shifted : SheetEditorCore :=
  fst (setKey 2%Z true (editorOf [chordNode "a"])).

(** The text provider of a user who cancels every request. *)
Definition cancelled (_ _ : string) : option string := None.

(** One hundred and one transactions, each adding a space after the
    first node. *)
Definition manySpaces : list (E unit) :=
  repeat (insertAfter [0] (NodeUtils.createTextNodes " ")) 101.
End Sample.
(** ** The deferred handle ([class AsyncAtomEditOperation]) *)

Module AsyncAtomEditOperation.

Section Handle.
Context {St : Type}.
(** The [disposed] field of the handle and the two callbacks given to the
    constructor. *)
Variable getDisposed : St -> bool.
Variable setDisposed : bool -> St -> St.
Variable onEnd : M St unit.
Variable onFailed : M St unit.

(** [end()] *)
Definition end_ : M St unit :=
  d <- gets getDisposed ;;
  if negb d then modify (setDisposed true) ;; onEnd else ret tt.

(** [fail()] *)
Definition fail : M St unit :=
  d <- gets getDisposed ;;
  if negb d then modify (setDisposed true) ;; onFailed else ret tt.

(** [run(func)]: [if (this.disposed) return; try { func() }
    catch (e) { this.fail(); throw e }]; a failure of [fail] inside the
    [catch] block replaces the one being handled. *)
Definition run (func : M St unit) : M St unit :=
  fun s =>
    if getDisposed s then (s, Done tt)
    else
      match func s with
      | (s1, Done a) => (s1, Done a)
      | (s1, Raised e) =>
          match fail s1 with
          | (s2, Done _) => (s2, Raised e)
          | (s2, Raised e') => (s2, Raised e')
          end
      end.
End Handle.

End AsyncAtomEditOperation.

(** An editor together with the deferred handles handed out so far: the
    [disposed] flag of each, by order of creation. *)
Record EditorSession : Type := mkSession {
  editor : SheetEditorCore;
  handles : list bool
}.

(** A handle is its position among the handles of the session. *)
Definition Handle : Set := nat.

(** A computation of the editor, run in a session. *)
Definition liftE {A} (m : E A) : M EditorSession A :=
  fun x => let (s', r) := m (editor x) in (mkSession s' (handles x), r).

(** A handle that was never handed out reads as disposed. *)
Definition isDisposed (h : Handle) (x : EditorSession) : bool := nth h (handles x) true.

Definition setDisposedAt (h : Handle) (d : bool) (x : EditorSession) : EditorSession :=
  mkSession (editor x) (modifyNth h (fun _ => d) (handles x)).

(** [atomOperation.endOperation(failed)] of the editor. *)
Definition editorEndOperation (failed : bool) : E unit :=
  AtomEditOperation.endOperation count setCount addHistory retoreNewestHistory failed.

(** [runAtomOperationAsync()]: [this.beginOperation()] and a new handle
    with [() => this.endOperation(false)] and
    [() => this.endOperation(true)]. *)
Definition runAtomOperationAsync : M EditorSession Handle :=
  liftE (AtomEditOperation.beginOperation count setCount) ;;
  h <- gets (fun x => List.length (handles x)) ;;
  modify (fun x => mkSession (editor x) (handles x ++ [false])) ;;
  ret h.

(** [handle.end()], [handle.fail()] and [handle.run(func)] for the handle
    [h] of the session. *)
Definition handleEnd (h : Handle) : M EditorSession unit :=
  AsyncAtomEditOperation.end_ (isDisposed h) (setDisposedAt h)
    (liftE (editorEndOperation false)).

Definition handleFail (h : Handle) : M EditorSession unit :=
  AsyncAtomEditOperation.fail (isDisposed h) (setDisposedAt h)
    (liftE (editorEndOperation true)).

Definition handleRun (h : Handle) (func : M EditorSession unit) : M EditorSession unit :=
  AsyncAtomEditOperation.run (isDisposed h) (setDisposedAt h)
    (liftE (editorEndOperation true)) func.

(** ** The edition of a run of texts *)

(** The number of text nodes at the head of a list of siblings: the steps
    of [while (cur) { if (cur.type != ENodeType.Text) break; ...;
    cur = cur.nextSibling() }] through the list. *)
Fixpoint textRun (l : list SheetNode) : nat :=
  match l with
  | x :: l' => if ENodeType.eqb (type x) ENodeType.Text then S (textRun l') else 0
  | [] => 0
  end.

(** [editTextWithNeighbor(node)]; [None] is a [null] node, and [prompt] the
    text provider.  Modelled from the spec: [prevSibling] and [nextSibling]
    are the sibling queries of the tree layer, and [NodeUtils.insertAfter]
    and [NodeUtils.removeFromParent] its splices in the children of the
    parent. *)
Definition editTextWithNeighbor (prompt : string -> string -> option string)
    (node : option NodeRef) : E unit :=
  runAtomOperation (
    match node with
    | None => raise "the node is empty"
    | Some node =>
        n <- deref node ;;
        r <- gets root ;;
        (* the siblings of the node; the root has none *)
        let siblings :=
          match NodeUtils.parent node with
          | Some q => match getNode r q with Some par => children par | None => [] end
          | None => []
          end in
        let i := NodeUtils.getSelfIndex node in
        (* backwards from node.prevSibling(), forwards from node.nextSibling() *)
        let before := textRun (rev (firstn i siblings)) in
        let after := textRun (skipn (S i) siblings) in
        let text :=
          String.append (String.concat "" (map content (slice (i - before) i siblings)))
            (String.append (content n)
               (String.concat "" (map content (slice (S i) (S i + after) siblings)))) in
        match prompt "edit text" text with
        | None => ret tt
        | Some newText =>
            if String.eqb newText "" then ret tt
            else
              let newNodes := NodeUtils.createTextNodes newText in
              par <- parentOf node ;;
              (* NodeUtils.insertAfter(node, newNodes) *)
              modifyRoot (modifyChildren par (spliceIn (i + 1) newNodes)) ;;
              (* NodeUtils.removeFromParent(textNodes): the texts before the
                 node and the node itself, then the texts after it, which
                 follow the new nodes *)
              modifyRoot (modifyChildren par (spliceOut (i - before) (before + 1))) ;;
              modifyRoot (modifyChildren par
                            (spliceOut (i - before + List.length newNodes) after))
        end
    end).

(** ** The purity toggle and the removal of a node *)

(** Modelled from the spec: [NodeUtils.isInUnderline(node)], the node has
    an enclosing underline. *)
Fixpoint isInUnderline (n : SheetNode) (p : NodeRef) : bool :=
  match p with
  | [] => false
  | i :: p' =>
      NodeUtils.isUnderline n
      || match nth_error (children n) i with
         | Some c => isInUnderline c p'
         | None => false
         end
  end.

(** [let cur = node; let topUnderline = null;
    while (cur) { if (cur.isUnderline()) topUnderline = cur; cur = cur.parent }],
    on the reversed reference of [cur]. *)
Fixpoint topUnderlineLoop (root : SheetNode) (rcur : list nat) (topUnderline : option NodeRef)
    : option NodeRef :=
  let topUnderline' :=
    match getNode root (rev rcur) with
    | Some cur => if NodeUtils.isUnderline cur then Some (rev rcur) else topUnderline
    | None => topUnderline
    end in
  match rcur with
  | [] => topUnderline'
  | _ :: rparent => topUnderlineLoop root rparent topUnderline'
  end.

(** Modelled from the spec: [NodeUtils.traverseDFS(node, callback)], the
    depth-first traversal of the subtree of [node], [node] included, with
    a callback that assigns the tag of the node it visits. *)
Fixpoint mapTags (f : ENodeType.t -> ENodeType.t) (n : SheetNode) : SheetNode :=
  match n with
  | mkNode t c d cs => mkNode (f t) c d (map (mapTags f) cs)
  end.

(** The same traversal with the callback
    [n => { if (n.type == ENodeType.Text && n.content != " ") hasNonEmptyTextNode = true }]. *)
Fixpoint hasNonEmptyTextNode (n : SheetNode) : bool :=
  match n with
  | mkNode t c _ cs =>
      (ENodeType.eqb t ENodeType.Text && negb (String.eqb c " "))
      || existsb hasNonEmptyTextNode cs
  end.

(** [if (n.type == ENodeType.Chord) n.type = ENodeType.ChordPure;
    if (n.type == ENodeType.Underline) n.type = ENodeType.UnderlinePure] *)
Definition toPure (t : ENodeType.t) : ENodeType.t :=
  let t := if ENodeType.eqb t ENodeType.Chord then ENodeType.ChordPure else t in
  if ENodeType.eqb t ENodeType.Underline then ENodeType.UnderlinePure else t.

(** [if (n.type == ENodeType.ChordPure) n.type = ENodeType.Chord;
    if (n.type == ENodeType.UnderlinePure) n.type = ENodeType.Underline] *)
Definition toAnnotated (t : ENodeType.t) : ENodeType.t :=
  let t := if ENodeType.eqb t ENodeType.ChordPure then ENodeType.Chord else t in
  if ENodeType.eqb t ENodeType.UnderlinePure then ENodeType.Underline else t.

Section ChainedRemoval.
(** [removeAllUnderlineOfChord(node)], the chained removal of the
    underlines around a chord, is a parameter of the two commands below:
    a computation of the editor that gives back the reference the chord
    has in the tree it leaves. *)
Variable removeAllUnderlineOfChord : NodeRef -> E NodeRef.

(** [remove(node)] *)
Definition remove (node : NodeRef) : E unit :=
  runAtomOperation (
    n <- deref node ;;
    node <- (if NodeUtils.isChord n then removeAllUnderlineOfChord node else ret node) ;;
    (* NodeUtils.removeFromParent(node) *)
    par <- parentOf node ;;
    modifyRoot (modifyChildren par (spliceOut (NodeUtils.getSelfIndex node) 1))).

(** [toggleChordType(node)] *)
Definition toggleChordType (node : NodeRef) : E unit :=
  runAtomOperation (
    n <- deref node ;;
    r <- gets root ;;
    if ENodeType.eqb (type n) ENodeType.Chord then
      if negb (isInUnderline r node) then
        modifyRoot (modifyNode node (setType ENodeType.ChordPure))
      else
        match topUnderlineLoop r (rev node) None with
        | None => raise "TypeError: the top underline is null"
        | Some topUnderline =>
            u <- deref topUnderline ;;
            if hasNonEmptyTextNode u then
              node <- removeAllUnderlineOfChord node ;;
              modifyRoot (modifyNode node (setType ENodeType.ChordPure))
            else
              modifyRoot (modifyNode topUnderline (mapTags toPure))
        end
    else if ENodeType.eqb (type n) ENodeType.ChordPure then
      if negb (isInUnderline r node) then
        modifyRoot (modifyNode node (setType ENodeType.Chord))
      else
        match topUnderlineLoop r (rev node) None with
        | None => raise "TypeError: the top underline is null"
        | Some topUnderline =>
            _ <- deref topUnderline ;;
            modifyRoot (modifyNode topUnderline (mapTags toAnnotated))
        end
    else raise "wrong type of node").
End ChainedRemoval.

(** ** The chained removals of underlines and the conversions to text *)

Section ChainedCommands.
(** The node objects of the source keep their identity when a command
    moves them in the tree; a reference by position does not.
    [follow before after node] is the reference, in the tree [after] that
    a command leaves, of the node that [node] denotes in the tree [before]
    the command.  The commands below are defined for every such tracking. *)
Variable follow : SheetNode -> SheetNode -> NodeRef -> NodeRef.
(** [NodeUtils.findPrevNodeByType(node, type)], the backward search of the
    tree layer, and [NodeUtils.isPlaceholder(content)], its test for the
    content of an empty chord; [None] is JavaScript's [null]. *)
Variable findPrevNodeByType : SheetNode -> NodeRef -> ENodeType.t -> option NodeRef.
Variable isPlaceholder : string -> bool.
(** The rounds that a [while] loop is given; a loop that needs more ends
    with a failure of its own. *)
Variable rounds : nat.

(** [while (chordNode.parent.isUnderline())
    { this.removeUnderlineFromChordToNext(prevChordNode) }]; the result is
    the reference of the chord after the loop. *)
Fixpoint prevToThisLoop (n : nat) (chordNode : NodeRef) (prevChordNode : option NodeRef)
    : E NodeRef :=
  _ <- parentOf chordNode ;;
  r <- gets root ;;
  if parentIsUnderline r chordNode then
    match n with
    | O => raise "the loop needs more rounds"
    | S n' =>
        match prevChordNode with
        | Some prev => removeUnderlineFromChordToNext prev
        | None => runAtomOperation (raise "TypeError: the chord is null")
        end ;;
        r' <- gets root ;;
        prevToThisLoop n' (follow r r' chordNode) (option_map (follow r r') prevChordNode)
    end
  else ret chordNode.

(** [removeUnderlineFromPrevToThisChord(chordNode)]; the result is the
    reference of the chord in the tree that the command leaves. *)
Definition removeUnderlineFromPrevToThisChord (chordNode : NodeRef) : E NodeRef :=
  runAtomOperation (
    n <- deref chordNode ;;
    assert (NodeUtils.isChord n) "only a chord can lose an underline" ;;
    _ <- parentOf chordNode ;;
    r <- gets root ;;
    assert (parentIsUnderline r chordNode) "the chord is not under an underline" ;;
    let prevChordNode := findPrevNodeByType r chordNode (type n) in
    prevToThisLoop rounds chordNode prevChordNode).

(** [while (node.parent.isUnderline()) { if (node.isLastChild())
    this.removeUnderlineFromPrevToThisChord(node)
    else this.removeUnderlineFromChordToNext(node) }]; the result is the
    reference of the chord after the loop. *)
Fixpoint allUnderlinesLoop (n : nat) (node : NodeRef) : E NodeRef :=
  _ <- parentOf node ;;
  r <- gets root ;;
  if parentIsUnderline r node then
    match n with
    | O => raise "the loop needs more rounds"
    | S n' =>
        node' <- (if NodeUtils.isLastChild r node then
                    removeUnderlineFromPrevToThisChord node
                  else
                    removeUnderlineFromChordToNext node ;;
                    r' <- gets root ;;
                    ret (follow r r' node)) ;;
        allUnderlinesLoop n' node'
    end
  else ret node.

(** [removeAllUnderlineOfChord(node)]; the result is the reference of the
    chord in the tree that the command leaves. *)
Definition removeAllUnderlineOfChord (node : NodeRef) : E NodeRef :=
  runAtomOperation (
    n <- deref node ;;
    assert (NodeUtils.isChord n) "the input must be a chord" ;;
    allUnderlinesLoop rounds node).

(** [convertToText(node, removeEmptyNode)]; the result is the new text
    node, [None] being [null]. *)
Definition convertToText (node : NodeRef) (removeEmptyNode : bool)
    : E (option SheetNode) :=
  runAtomOperation (
    n <- deref node ;;
    assert (NodeUtils.isChord n) "only a chord can be converted to a text" ;;
    node <- removeAllUnderlineOfChord node ;;
    n <- deref node ;;
    let content := content n in
    if isPlaceholder content && removeEmptyNode then
      remove removeAllUnderlineOfChord node ;;
      ret None
    else
      let content := if isPlaceholder content then " " else content in
      let textNode := NodeUtils.createTextNode content in
      replace node textNode ;;
      ret (Some textNode)).

(** [convertChordToText(node, removeEmptyNode)]; the result is the list of
    the new text nodes, [None] being [null]. *)
Definition convertChordToText (node : NodeRef) (removeEmptyNode : bool)
    : E (option (list SheetNode)) :=
  runAtomOperation (
    n <- deref node ;;
    assert (NodeUtils.isChord n) "node should be chord to convert to text" ;;
    node <- removeAllUnderlineOfChord node ;;
    n <- deref node ;;
    let content := content n in
    if isPlaceholder content && removeEmptyNode then
      (* NodeUtils.removeFromParent(node) *)
      par <- parentOf node ;;
      modifyRoot (modifyChildren par (spliceOut (NodeUtils.getSelfIndex node) 1)) ;;
      ret None
    else
      let content := if isPlaceholder content then " " else content in
      let textNodes := NodeUtils.createTextNodes content in
      (* NodeUtils.replace(node, textNodes) *)
      par <- parentOf node ;;
      modifyRoot (modifyChildren par (replaceAt (NodeUtils.getSelfIndex node) textNodes)) ;;
      ret (Some textNodes)).
End ChainedCommands.

(** ** Notions used by the further properties *)

(** The traversal of [shiftChords] through a list of siblings. *)
Fixpoint shiftChordsList (offset : Z) (l : list SheetNode) : list SheetNode * bool :=
  match l with
  | [] => ([], true)
  | x :: l' =>
      let (x', ok) := shiftChords offset x in
      if ok then let (l'', ok') := shiftChordsList offset l' in (x' :: l'', ok')
      else (x' :: l', false)
  end.

(** The tree without its chord data: the tags, the contents and the shape. *)
Fixpoint eraseChords (n : SheetNode) : SheetNode :=
  match n with
  | mkNode t c _ cs => mkNode t c None (map eraseChords cs)
  end.

(** Every chord of the subtree has chord data. *)
Fixpoint chordsHaveData (n : SheetNode) : bool :=
  match n with
  | mkNode t c d cs =>
      (if NodeUtils.isChord n then match d with Some _ => true | None => false end else true)
      && forallb chordsHaveData cs
  end.

(** The chord data of every chord of the subtree shifted by [offset]. *)
Fixpoint shiftAll (offset : Z) (n : SheetNode) : SheetNode :=
  match n with
  | mkNode t c d cs =>
      mkNode t c
        (if NodeUtils.isChord n then option_map (fun v => KeyOps.shiftKey v offset) d else d)
        (map (shiftAll offset) cs)
  end.

(** The node before which [insertBefore] inserts: the node itself, or the
    outermost underline reached from it through first children. *)
Definition insertionTargetBefore (root : SheetNode) (node : NodeRef) : NodeRef :=
  rev (walkOutFirst root (rev node)).

(** What the anchor rule sees of a node from above: its tag and whether
    the walks through its first and last children end at a chord. *)
Definition anchors (n : SheetNode) : ENodeType.t * bool * bool :=
  (type n, beginsWithChord n, endsWithChord n).

(** The nodes of a list are texts. *)
Definition allTexts (l : list SheetNode) : bool :=
  forallb (fun x => ENodeType.eqb (type x) ENodeType.Text) l.

(** A list of siblings does not begin with a text. *)
Definition noTextAhead (l : list SheetNode) : bool :=
  match l with
  | x :: _ => negb (ENodeType.eqb (type x) ENodeType.Text)
  | [] => true
  end.

(** What the purity rule sees of a node from above: its tag and whether
    annotated and pure chords are below it. *)
Definition purities (n : SheetNode) : ENodeType.t * bool * bool :=
  (type n, hasDescendantOfType ENodeType.Chord n, hasDescendantOfType ENodeType.ChordPure n).

(** A subtree without chords. *)
Definition chordFree (n : SheetNode) : bool :=
  negb (NodeUtils.isChord n)
  && negb (hasDescendantOfType ENodeType.Chord n)
  && negb (hasDescendantOfType ENodeType.ChordPure n).

(** * Properties *)

(** ** Basic facts *)

Lemma ENodeType_eqb_eq a b : ENodeType.eqb a b = true <-> a = b.
Proof. destruct a, b; simpl; split; intros H; try reflexivity; discriminate H. Qed.

Lemma ENodeType_eqb_refl a : ENodeType.eqb a a = true.
Proof. destruct a; reflexivity. Qed.

(** ** The coordinator *)

Section ProbeFacts.
Context {D : Type}.

Lemma probe_run_raise A (func : M (Probe.t D) A) s s2 e :
  func (Probe.setCount (Probe.count s + 1)%Z s) = (s2, Raised e) ->
  (0 <= Probe.count s2 - 1)%Z ->
  Probe.run func s =
    (Probe.mk (Probe.data s2) (Probe.count s2 - 1)%Z
              (Probe.FailedAt (Probe.count s2 - 1)%Z :: Probe.log s2),
     Raised e).
Proof.
  intros Hf Hc.
  unfold Probe.run, AtomEditOperation.run, AtomEditOperation.beginOperation, modify.
  rewrite Hf. simpl.
  unfold AtomEditOperation.endOperation, bind, modify, gets, assert. simpl.
  apply Z.leb_le in Hc. rewrite Hc. simpl.
  rewrite andb_false_r. reflexivity.
Qed.

Lemma probe_nested_raise A (frames : list (D -> D)) (g : D -> D) (e : string) :
  forall s, (0 <= Probe.count s)%Z ->
    exists d,
      Probe.nested (A := A) frames (Probe.onData g ;; raise e) s =
        (Probe.mk d (Probe.count s)
           (Probe.failedTrail (Probe.count s) (S (List.length frames)) ++ Probe.log s),
         Raised e).
Proof.
  induction frames as [|f frames IH]; intros s Hs.
  - simpl. eexists.
    erewrite probe_run_raise; cycle 1.
    + reflexivity.
    + simpl. lia.
    + simpl.
      replace (Probe.count s + 1 - 1)%Z with (Probe.count s) by lia.
      reflexivity.
  - cbn [Probe.nested].
    destruct (IH (Probe.mk (f (Probe.data s)) (Probe.count s + 1)%Z (Probe.log s)))
      as [d Hd]; [simpl; lia|].
    eexists.
    erewrite probe_run_raise; cycle 1.
    + exact Hd.
    + simpl. lia.
    + cbn [Probe.data Probe.count Probe.log].
      replace (Probe.count s + 1 - 1)%Z with (Probe.count s) by lia.
      reflexivity.
Qed.
End ProbeFacts.

(** ** Atom operations of the editor *)

Lemma setCount_same s c : count s = c -> setCount c s = s.
Proof. intros <-. destruct s; reflexivity. Qed.

Lemma setCount_setCount c c' s : setCount c (setCount c' s) = setCount c s.
Proof. reflexivity. Qed.

(** An atom operation nested in another one neither commits nor touches
    the counter of its caller; when it fails it rolls the tree back. *)
Lemma runAtomOperation_nested A (f : E A) s :
  (0 < count s)%Z -> stable f ->
  runAtomOperation f s =
    match f (setCount (count s + 1)%Z s) with
    | (s2, Done a) => (setCount (count s) s2, Done a)
    | (s2, Raised e) => (rolledBack (setCount (count s) s2), Raised e)
    end.
Proof.
  intros Hc Hf.
  unfold runAtomOperation, AtomEditOperation.run, AtomEditOperation.beginOperation, modify.
  destruct (Hf (setCount (count s + 1)%Z s)) as [_ Hcnt]; [simpl; lia|].
  destruct (f (setCount (count s + 1)%Z s)) as [s2 r] eqn:E.
  simpl in Hcnt.
  unfold AtomEditOperation.endOperation, bind, modify, gets, assert.
  cbn [count setCount].
  rewrite Hcnt.
  replace (count s + 1 - 1)%Z with (count s) by lia.
  assert (H1 : (0 <=? count s)%Z = true) by (apply Z.leb_le; lia).
  assert (H2 : (count s =? 0)%Z = false) by (apply Z.eqb_neq; lia).
  rewrite H1, H2. destruct r; reflexivity.
Qed.

(** The outermost atom operation commits one snapshot on success and rolls
    the tree back on failure. *)
Lemma runAtomOperation_outer A (f : E A) s :
  count s = 0%Z -> stable f ->
  runAtomOperation f s =
    match f (setCount 1%Z s) with
    | (s2, Done a) => (committedNow (setCount 0%Z s2), Done a)
    | (s2, Raised e) => (rolledBack (setCount 0%Z s2), Raised e)
    end.
Proof.
  intros Hc Hf.
  unfold runAtomOperation, AtomEditOperation.run, AtomEditOperation.beginOperation, modify.
  rewrite Hc. change (0 + 1)%Z with 1%Z.
  destruct (Hf (setCount 1%Z s)) as [_ Hcnt]; [simpl; lia|].
  destruct (f (setCount 1%Z s)) as [s2 r] eqn:E.
  simpl in Hcnt.
  unfold AtomEditOperation.endOperation, bind, modify, gets, assert.
  cbn [count setCount].
  rewrite Hcnt. simpl.
  destruct r; reflexivity.
Qed.

(** *** Stable actions *)

Lemma stable_ret A (a : A) : stable (ret a).
Proof. intros s _. split; reflexivity. Qed.

Lemma stable_raise A e : stable (raise (A := A) e).
Proof. intros s _. split; reflexivity. Qed.

Lemma stable_assert b msg : stable (assert b msg).
Proof. destruct b; [apply stable_ret | apply stable_raise]. Qed.

Lemma stable_gets A (g : SheetEditorCore -> A) : stable (gets g).
Proof. intros s _. split; reflexivity. Qed.

Lemma stable_modifyRoot g : stable (modifyRoot g).
Proof. intros s _. split; reflexivity. Qed.

Lemma stable_deref p : stable (deref p).
Proof. intros s _. unfold deref. destruct (getNode (root s) p); split; reflexivity. Qed.

Lemma stable_parentOf p : stable (parentOf p).
Proof. unfold parentOf. destruct (NodeUtils.parent p); [apply stable_ret | apply stable_raise]. Qed.

Lemma stable_bind A B (m : E A) (k : A -> E B) :
  stable m -> (forall a, stable (k a)) -> stable (bind m k).
Proof.
  intros Hm Hk s Hs. unfold bind.
  destruct (Hm s Hs) as [H1 H2].
  destruct (m s) as [s1 [a|e]]; simpl in *.
  - destruct (Hk a s1) as [H3 H4]; [lia|]. split; congruence.
  - split; assumption.
Qed.

Lemma stable_runAtomOperation A (f : E A) : stable f -> stable (runAtomOperation f).
Proof.
  intros Hf s Hs.
  rewrite runAtomOperation_nested by assumption.
  destruct (Hf (setCount (count s + 1)%Z s)) as [H1 H2]; [simpl; lia|].
  destruct (f (setCount (count s + 1)%Z s)) as [s2 [a|e]]; simpl in *; split; congruence.
Qed.

Create HintDb stable discriminated.
#[local] Hint Resolve stable_ret stable_raise stable_assert stable_gets
  stable_modifyRoot stable_deref stable_parentOf stable_runAtomOperation : stable.

(** The stability of an action built from the primitives above. *)
Ltac stable_step :=
  match goal with
  | |- stable (bind _ _) => apply stable_bind; [| intro]
  | |- stable (runAtomOperation _) => apply stable_runAtomOperation
  | |- stable (if ?b then _ else _) => destruct b
  | |- stable (match ?x with _ => _ end) => destruct x
  | |- stable (let (_, _) := ?x in _) => destruct x
  | |- stable (let _ := _ in _) => cbv zeta
  | |- stable _ => solve [auto with stable]
  end.

Ltac solve_stable := repeat stable_step.

Lemma stable_insertAfter node data : stable (insertAfter node data).
Proof. unfold insertAfter. solve_stable. Qed.

Lemma stable_insertBefore node data : stable (insertBefore node data).
Proof. unfold insertBefore. solve_stable. Qed.

#[local] Hint Resolve stable_insertAfter stable_insertBefore : stable.

Lemma stable_updateContent node newContent : stable (updateContent node newContent).
Proof. unfold updateContent. solve_stable. Qed.

Lemma stable_replace node newNode : stable (replace node newNode).
Proof. unfold replace. solve_stable. Qed.

Lemma stable_updateChord node d : stable (updateChord node d).
Proof. unfold updateChord. solve_stable. Qed.

#[local] Hint Resolve stable_updateContent stable_replace stable_updateChord : stable.

Lemma stable_convertToChord node d : stable (convertToChord node d).
Proof. unfold convertToChord. solve_stable. Qed.

Lemma stable_insert prompt node ty before : stable (insert prompt node ty before).
Proof. unfold insert. solve_stable. Qed.

Lemma stable___assertBeginAndEnd nodes : stable (__assertBeginAndEnd nodes).
Proof. unfold __assertBeginAndEnd. solve_stable. Qed.

#[local] Hint Resolve stable___assertBeginAndEnd : stable.

Lemma stable_addUnderlineForChord chordNode : stable (addUnderlineForChord chordNode).
Proof.
  unfold addUnderlineForChord, addUnderline_sameLevel, addUnderline_extendForward,
    addUnderline_extendBackward, addUnderline_merge.
  solve_stable.
Qed.

Lemma stable_removeUnderlineFromChordToNext chordNode :
  stable (removeUnderlineFromChordToNext chordNode).
Proof.
  unfold removeUnderlineFromChordToNext, removeUnderline_dissolve,
    removeUnderline_shrinkTail, removeUnderline_shrinkHead, removeUnderline_split.
  solve_stable.
Qed.

#[local] Hint Resolve stable_addUnderlineForChord stable_removeUnderlineFromChordToNext
  : stable.

Lemma stable_editTextWithNeighbor prompt node : stable (editTextWithNeighbor prompt node).
Proof. unfold editTextWithNeighbor. solve_stable. Qed.

(** The chained removals and the conversions to text, for every tracking
    of the moved nodes and every number of rounds. *)
Section ChainedStability.
Variable follow : SheetNode -> SheetNode -> NodeRef -> NodeRef.
Variable findPrevNodeByType : SheetNode -> NodeRef -> ENodeType.t -> option NodeRef.
Variable isPlaceholder : string -> bool.
Variable rounds : nat.

Lemma stable_prevToThisLoop n chordNode prevChordNode :
  stable (prevToThisLoop follow n chordNode prevChordNode).
Proof.
  revert chordNode prevChordNode.
  induction n as [|n IH]; intros chordNode prevChordNode; cbn [prevToThisLoop].
  - solve_stable.
  - apply stable_bind; [auto with stable | intros _].
    apply stable_bind; [auto with stable | intros r].
    destruct (parentIsUnderline r chordNode); [|apply stable_ret].
    apply stable_bind; [destruct prevChordNode; solve_stable | intros _].
    apply stable_bind; [auto with stable | intros r'].
    apply IH.
Qed.

Lemma stable_removeUnderlineFromPrevToThisChord_body chordNode :
  stable (n <- deref chordNode ;;
          assert (NodeUtils.isChord n) "only a chord can lose an underline" ;;
          _ <- parentOf chordNode ;;
          r <- gets root ;;
          assert (parentIsUnderline r chordNode) "the chord is not under an underline" ;;
          prevToThisLoop follow rounds chordNode (findPrevNodeByType r chordNode (type n))).
Proof.
  repeat (apply stable_bind; [auto with stable | intro]).
  apply stable_prevToThisLoop.
Qed.

Lemma stable_removeUnderlineFromPrevToThisChord chordNode :
  stable (removeUnderlineFromPrevToThisChord follow findPrevNodeByType rounds chordNode).
Proof.
  apply stable_runAtomOperation, stable_removeUnderlineFromPrevToThisChord_body.
Qed.

Lemma stable_allUnderlinesLoop n node :
  stable (allUnderlinesLoop follow findPrevNodeByType rounds n node).
Proof.
  revert node. induction n as [|n IH]; intros node; cbn [allUnderlinesLoop].
  - solve_stable.
  - apply stable_bind; [auto with stable | intros _].
    apply stable_bind; [auto with stable | intros r].
    destruct (parentIsUnderline r node); [|apply stable_ret].
    apply stable_bind; [|intros node'; apply IH].
    destruct (NodeUtils.isLastChild r node).
    + apply stable_removeUnderlineFromPrevToThisChord.
    + solve_stable.
Qed.

Lemma stable_removeAllUnderlineOfChord_body node :
  stable (n <- deref node ;;
          assert (NodeUtils.isChord n) "the input must be a chord" ;;
          allUnderlinesLoop follow findPrevNodeByType rounds rounds node).
Proof.
  repeat (apply stable_bind; [auto with stable | intro]).
  apply stable_allUnderlinesLoop.
Qed.

Lemma stable_removeAllUnderlineOfChord node :
  stable (removeAllUnderlineOfChord follow findPrevNodeByType rounds node).
Proof. apply stable_runAtomOperation, stable_removeAllUnderlineOfChord_body. Qed.
End ChainedStability.

(** A command that is an atom operation around a stable action is stable
    and commits once. *)
Lemma wrapped_command A (body : E A) :
  stable body -> stable (runAtomOperation body) /\ commitsOnce (runAtomOperation body).
Proof.
  intros Hb. split; [apply stable_runAtomOperation; exact Hb|].
  intros s s' a Hc Hrun.
  rewrite runAtomOperation_outer in Hrun by assumption.
  destruct (body (setCount 1%Z s)) as [s2 [b|e]] eqn:Eb; [|discriminate Hrun].
  injection Hrun as <- _.
  destruct (Hb (setCount 1%Z s)) as [Hh _]; [simpl; lia|].
  rewrite Eb in Hh. simpl in Hh. unfold committedNow. simpl. rewrite Hh. reflexivity.
Qed.

Lemma wrapped_remove (R : NodeRef -> E NodeRef) node :
  (forall p, stable (R p)) -> stable (remove R node) /\ commitsOnce (remove R node).
Proof.
  intros HR. unfold remove. apply wrapped_command.
  apply stable_bind; [auto with stable | intros n].
  apply stable_bind; [destruct (NodeUtils.isChord n); [apply HR | apply stable_ret] | intros p].
  solve_stable.
Qed.

Lemma wrapped_toggleChordType (R : NodeRef -> E NodeRef) node :
  (forall p, stable (R p)) ->
  stable (toggleChordType R node) /\ commitsOnce (toggleChordType R node).
Proof.
  intros HR. unfold toggleChordType. apply wrapped_command.
  apply stable_bind; [auto with stable | intros n].
  apply stable_bind; [auto with stable | intros r].
  destruct (ENodeType.eqb (type n) ENodeType.Chord).
  - destruct (negb (isInUnderline r node)); [auto with stable|].
    destruct (topUnderlineLoop r (rev node) None) as [topUnderline|]; [|auto with stable].
    apply stable_bind; [auto with stable | intros u].
    destruct (hasNonEmptyTextNode u); [|auto with stable].
    apply stable_bind; [apply HR | intros p; auto with stable].
  - solve_stable.
Qed.

Lemma wrapped_convertToText follow findPrevNodeByType isPlaceholder rounds node removeEmptyNode :
  stable (convertToText follow findPrevNodeByType isPlaceholder rounds node removeEmptyNode)
  /\ commitsOnce (convertToText follow findPrevNodeByType isPlaceholder rounds
                    node removeEmptyNode).
Proof.
  unfold convertToText. apply wrapped_command.
  apply stable_bind; [auto with stable | intros n].
  apply stable_bind; [auto with stable | intros _].
  apply stable_bind; [apply stable_removeAllUnderlineOfChord | intros p].
  apply stable_bind; [auto with stable | intros n'].
  cbv zeta.
  destruct (isPlaceholder (content n') && removeEmptyNode).
  - apply stable_bind; [|intros _; apply stable_ret].
    apply wrapped_remove. intros q. apply stable_removeAllUnderlineOfChord.
  - solve_stable.
Qed.

Lemma wrapped_convertChordToText follow findPrevNodeByType isPlaceholder rounds node
    removeEmptyNode :
  stable (convertChordToText follow findPrevNodeByType isPlaceholder rounds node
            removeEmptyNode)
  /\ commitsOnce (convertChordToText follow findPrevNodeByType isPlaceholder rounds
                    node removeEmptyNode).
Proof.
  unfold convertChordToText. apply wrapped_command.
  apply stable_bind; [auto with stable | intros n].
  apply stable_bind; [auto with stable | intros _].
  apply stable_bind; [apply stable_removeAllUnderlineOfChord | intros p].
  solve_stable.
Qed.

(** *** Success and failure of the outermost atom operation *)

Lemma runAtomOperation_commitsOnce A (f : E A) : stable f -> commitsOnce (runAtomOperation f).
Proof.
  intros Hf s s' a Hc H.
  rewrite runAtomOperation_outer in H by assumption.
  destruct (Hf (setCount 1%Z s)) as [Hh _]; [simpl; lia|].
  destruct (f (setCount 1%Z s)) as [s2 [a'|e]]; [|discriminate H].
  injection H as <- _. simpl in *. rewrite Hh. reflexivity.
Qed.

Lemma runAtomOperation_failure A (f : E A) s s' e :
  stable f -> count s = 0%Z -> runAtomOperation f s = (s', Raised e) ->
  history s' = history s
  /\ children (root s') = children (History.getCurrent (history s))
  /\ count s' = 0%Z
  /\ snd (f (setCount 1%Z s)) = Raised e.
Proof.
  intros Hf Hc H.
  rewrite runAtomOperation_outer in H by assumption.
  destruct (Hf (setCount 1%Z s)) as [Hh _]; [simpl; lia|].
  destruct (f (setCount 1%Z s)) as [s2 [a'|e']]; [discriminate H|].
  injection H as <- <-. simpl in *. rewrite Hh. auto.
Qed.

(** ** The snapshot history *)

Section HistoryFacts.
Context {T : Type}.
Implicit Types h : History.t T.

Lemma entries_goPrev h :
  History.entries (History.goPrev h) = History.entries h.
Proof.
  destruct h as [m [|p ps] c n]; [reflexivity|].
  unfold History.entries, History.goPrev. simpl.
  rewrite <- app_assoc. reflexivity.
Qed.

Lemma entries_goNext h :
  History.entries (History.goNext h) = History.entries h.
Proof.
  destruct h as [m p c [|n ns]]; [reflexivity|].
  unfold History.entries, History.goNext. simpl.
  rewrite <- app_assoc. reflexivity.
Qed.

Lemma cursor_goPrev h :
  0 < History.cursor h -> S (History.cursor (History.goPrev h)) = History.cursor h.
Proof.
  destruct h as [m [|p ps] c n]; unfold History.cursor, History.goPrev; simpl;
    [lia | reflexivity].
Qed.

Lemma cursor_goNext h :
  History.next h <> [] -> History.cursor (History.goNext h) = S (History.cursor h).
Proof.
  destruct h as [m p c [|n ns]]; unfold History.cursor, History.goNext; simpl;
    [congruence | reflexivity].
Qed.

Lemma entries_at_cursor h :
  nth_error (History.entries h) (History.cursor h) = Some (History.current h).
Proof.
  unfold History.entries, History.cursor.
  rewrite nth_error_app2; rewrite length_rev; [|lia].
  rewrite Nat.sub_diag. reflexivity.
Qed.

Lemma length_entries h :
  List.length (History.entries h) = History.cursor h + 1 + List.length (History.next h).
Proof.
  unfold History.entries, History.cursor.
  rewrite length_app, length_rev. simpl. lia.
Qed.

Lemma hasPrev_cursor h : History.hasPrev h = true <-> 0 < History.cursor h.
Proof.
  unfold History.hasPrev, History.cursor.
  destruct (History.prev h); simpl; split; intros; try lia; try discriminate; reflexivity.
Qed.

Lemma hasNext_entries h :
  History.hasNext h = true <-> S (History.cursor h) < List.length (History.entries h).
Proof.
  rewrite length_entries. unfold History.hasNext.
  destruct (History.next h); simpl; split; intros; try lia; try discriminate; reflexivity.
Qed.

Lemma firstn_app_firstn (m : nat) (a b : list T) :
  firstn m (a ++ firstn m b) = firstn m (a ++ b).
Proof.
  rewrite !firstn_app.
  f_equal. rewrite firstn_firstn. f_equal. lia.
Qed.

Lemma past_add v h :
  0 < History.maxSize h ->
  History.past (History.add v h) = firstn (History.maxSize h) (v :: History.past h).
Proof.
  intros Hm. unfold History.past, History.add. simpl.
  destruct (History.maxSize h) as [|m]; [lia|].
  simpl. rewrite Nat.sub_0_r. reflexivity.
Qed.

Lemma maxSize_fold_add vs : forall h,
  History.maxSize (fold_left (fun h v => History.add v h) vs h) = History.maxSize h.
Proof. induction vs as [|v vs IH]; intros h; simpl; [reflexivity | rewrite IH; reflexivity]. Qed.

Lemma past_fold_add vs : forall h,
  0 < History.maxSize h ->
  List.length (History.past h) <= History.maxSize h ->
  History.past (fold_left (fun h v => History.add v h) vs h)
    = firstn (History.maxSize h) (rev vs ++ History.past h).
Proof.
  induction vs as [|v vs IH]; intros h Hm Hl.
  - simpl. rewrite firstn_all2; [reflexivity | assumption].
  - simpl fold_left. rewrite IH.
    + change (History.maxSize (History.add v h)) with (History.maxSize h).
      rewrite past_add by assumption.
      rewrite firstn_app_firstn. simpl rev. rewrite <- app_assoc. reflexivity.
    + assumption.
    + change (History.maxSize (History.add v h)) with (History.maxSize h).
      rewrite past_add by assumption. rewrite length_firstn. lia.
Qed.

Lemma next_fold_add vs : forall h,
  vs <> [] -> History.next (fold_left (fun h v => History.add v h) vs h) = [].
Proof.
  induction vs as [|v vs IH]; intros h Hne; [congruence|].
  simpl. destruct vs as [|v' vs']; [reflexivity|].
  apply IH. discriminate.
Qed.

(** After the commit of the snapshots [vs], fewer than the capacity, the
    history holds the entry it started from followed by [vs], and its
    cursor is on the last of them. *)
Lemma history_after_commits vs h :
  vs <> [] -> List.length vs < History.maxSize h ->
  let h' := fold_left (fun h v => History.add v h) vs h in
  exists older,
    History.entries h' = older ++ History.current h :: vs
    /\ History.cursor h' = List.length older + List.length vs
    /\ History.next h' = [].
Proof.
  intros Hne Hlen h'.
  destruct vs as [|v vs]; [congruence|]. simpl in Hlen.
  assert (Hp : History.past h' = firstn (History.maxSize h) (rev vs ++ v :: History.past h)).
  { subst h'. simpl fold_left. rewrite past_fold_add.
    - change (History.maxSize (History.add v h)) with (History.maxSize h).
      rewrite past_add by lia. rewrite firstn_app_firstn. reflexivity.
    - simpl. lia.
    - change (History.maxSize (History.add v h)) with (History.maxSize h).
      rewrite past_add by lia. rewrite length_firstn. lia. }
  assert (Hn : History.next h' = []) by (apply next_fold_add; discriminate).
  unfold History.past in Hp.
  replace (rev vs ++ v :: History.current h :: History.prev h)
    with ((rev (v :: vs) ++ [History.current h]) ++ History.prev h) in Hp
    by (simpl; rewrite <- !app_assoc; reflexivity).
  rewrite firstn_app in Hp.
  rewrite firstn_all2 in Hp by (rewrite length_app, length_rev; simpl; lia).
  set (rest := firstn (History.maxSize h - List.length (rev (v :: vs) ++ [History.current h]))
                      (History.prev h)) in Hp.
  exists (rev rest).
  unfold History.entries, History.cursor. rewrite Hn.
  destruct (rev (v :: vs)) as [|x xs] eqn:Er.
  { apply (f_equal (@List.length T)) in Er. rewrite length_rev in Er. discriminate Er. }
  simpl in Hp. injection Hp as Hc Hpv.
  rewrite Hc, Hpv.
  assert (Hvs : v :: vs = rev xs ++ [x]).
  { rewrite <- (rev_involutive (v :: vs)), Er. reflexivity. }
  rewrite Hvs.
  split; [|split; [|reflexivity]].
  - rewrite !rev_app_distr. simpl. rewrite <- !app_assoc. reflexivity.
  - rewrite !length_app, !length_rev. simpl. lia.
Qed.
End HistoryFacts.

(** ** Undo and redo *)

Lemma undo_ok s :
  History.hasPrev (history s) = true ->
  undo s =
    (setRoot (setChildren (children (History.current (History.goPrev (history s)))) (root s))
       (setHistory (History.goPrev (history s)) s),
     Done tt).
Proof.
  intros H. unfold undo, canUndo, bind, gets, assert. rewrite H. reflexivity.
Qed.

Lemma redo_ok s :
  History.hasNext (history s) = true ->
  redo s =
    (setRoot (setChildren (children (History.current (History.goNext (history s)))) (root s))
       (setHistory (History.goNext (history s)) s),
     Done tt).
Proof.
  intros H. unfold redo, canRedo, bind, gets, assert. rewrite H. reflexivity.
Qed.

Lemma undo_times n : forall s,
  n <= History.cursor (history s) ->
  exists s',
    times n undo s = (s', Done tt)
    /\ History.entries (history s') = History.entries (history s)
    /\ History.cursor (history s') + n = History.cursor (history s)
    /\ (0 < n -> children (root s') = children (History.current (history s'))).
Proof.
  induction n as [|n IH]; intros s Hn.
  - exists s. simpl. unfold ret. repeat split; try reflexivity; intros; lia.
  - assert (Hp : History.hasPrev (history s) = true) by (apply hasPrev_cursor; lia).
    pose proof (undo_ok s Hp) as Hu.
    set (s1 := setRoot _ _) in Hu.
    assert (Hc1 : S (History.cursor (history s1)) = History.cursor (history s)).
    { apply cursor_goPrev. lia. }
    destruct (IH s1) as (s' & Ht & He & Hc & Hr); [lia|].
    exists s'. simpl. unfold bind. rewrite Hu, Ht.
    split; [reflexivity|]. split; [|split].
    + rewrite He. apply entries_goPrev.
    + lia.
    + intros _. destruct n as [|n'].
      * simpl in Ht. unfold ret in Ht. injection Ht as <-. reflexivity.
      * apply Hr. lia.
Qed.

Lemma redo_times n : forall s,
  History.cursor (history s) + n < List.length (History.entries (history s)) ->
  exists s',
    times n redo s = (s', Done tt)
    /\ History.entries (history s') = History.entries (history s)
    /\ History.cursor (history s') = History.cursor (history s) + n
    /\ (0 < n -> children (root s') = children (History.current (history s'))).
Proof.
  induction n as [|n IH]; intros s Hn.
  - exists s. simpl. unfold ret. repeat split; try reflexivity; intros; lia.
  - assert (Hp : History.hasNext (history s) = true) by (apply hasNext_entries; lia).
    pose proof (redo_ok s Hp) as Hu.
    set (s1 := setRoot _ _) in Hu.
    assert (Hne : History.next (history s) <> []).
    { unfold History.hasNext in Hp. destruct (History.next (history s)); discriminate. }
    assert (Hc1 : History.cursor (history s1) = S (History.cursor (history s))).
    { apply cursor_goNext. assumption. }
    assert (He1 : History.entries (history s1) = History.entries (history s)).
    { apply entries_goNext. }
    destruct (IH s1) as (s' & Ht & He & Hc & Hr); [rewrite He1, Hc1; lia|].
    exists s'. simpl. unfold bind. rewrite Hu, Ht.
    split; [reflexivity|]. split; [|split].
    + congruence.
    + lia.
    + intros _. destruct n as [|n'].
      * simpl in Ht. unfold ret in Ht. injection Ht as <-. reflexivity.
      * apply Hr. lia.
Qed.

Lemma runAtomOperation_success A (f : E A) s s' a :
  stable f -> count s = 0%Z -> runAtomOperation f s = (s', Done a) ->
  history s' = History.add (clone (root s')) (history s) /\ count s' = 0%Z.
Proof.
  intros Hf Hc H. split.
  - eapply runAtomOperation_commitsOnce; eassumption.
  - rewrite runAtomOperation_outer in H by assumption.
    destruct (f (setCount 1%Z s)) as [s2 [a'|e]]; [|discriminate H].
    injection H as <- _. reflexivity.
Qed.

Lemma last_cons_default A (l : list A) (a d : A) : last (a :: l) d = last l a.
Proof.
  revert a d. induction l as [|x l IH]; intros a d; [reflexivity|].
  change (last (a :: x :: l) d) with (last (x :: l) d).
  rewrite IH. symmetry. apply IH.
Qed.

Lemma nth_error_last A (l : list A) (d : A) :
  nth_error (d :: l) (List.length l) = Some (last l d).
Proof.
  revert d. induction l as [|x l IH]; intros d; [reflexivity|].
  simpl List.length. change (nth_error (d :: x :: l) (S (List.length l)))
    with (nth_error (x :: l) (List.length l)).
  rewrite IH. rewrite last_cons_default. reflexivity.
Qed.

(** The snapshots committed by a sequence of successful transactions. *)
Lemma runAll_commits fs : forall s sN,
  count s = 0%Z -> Forall stable fs -> runAll fs s = (sN, Done tt) ->
  exists vs,
    List.length vs = List.length fs
    /\ history sN = fold_left (fun h v => History.add v h) vs (history s)
    /\ last vs (root s) = root sN.
Proof.
  induction fs as [|f fs IH]; intros s sN Hc Hst Hrun.
  - simpl in Hrun. unfold ret in Hrun. injection Hrun as <-.
    exists []. repeat split.
  - simpl in Hrun. unfold bind in Hrun.
    destruct (runAtomOperation f s) as [s1 [[]|e]] eqn:E1; [|discriminate Hrun].
    inversion Hst as [|? ? Hf Hfs]; subst.
    destruct (@runAtomOperation_success _ f s s1 tt Hf Hc E1) as [Hh1 Hc1].
    destruct (IH s1 sN Hc1 Hfs Hrun) as (vs & Hl & Hh & Hlast).
    exists (clone (root s1) :: vs). split; [simpl; lia|]. split.
    + simpl. rewrite <- Hh1. exact Hh.
    + rewrite last_cons_default. exact Hlast.
Qed.

(** ** The coordinator: failure of a nested chain (C5) *)

Lemma failedCalls_trail D (s : Probe.t D) c n l :
  Probe.log s = Probe.failedTrail c n ++ l ->
  Probe.failedCalls s
    = n + List.length (filter (fun e => match e with Probe.FailedAt _ => true | _ => false end) l).
Proof.
  unfold Probe.failedCalls. intros ->. revert c.
  induction n as [|n IH]; intros c; simpl; [reflexivity|].
  rewrite IH. reflexivity.
Qed.

(** C5, as the code has it: in a chain of nested [run] calls whose
    innermost action raises, [onFailed] is invoked once by every frame the
    failure passes through, the innermost frame first and the outermost
    one last, and never [onDone]; the failure reaches the caller unchanged
    and the counter is back at its initial value. *)
Theorem failed_chain_rolls_back_in_every_frame
    (D A : Type) (frames : list (D -> D)) (g : D -> D) (e : string) (s : Probe.t D) :
  (0 <= Probe.count s)%Z ->
  snd (Probe.nested (A := A) frames (Probe.onData g ;; raise e) s) = Raised e
  /\ Probe.count (fst (Probe.nested (A := A) frames (Probe.onData g ;; raise e) s))
     = Probe.count s
  /\ Probe.log (fst (Probe.nested (A := A) frames (Probe.onData g ;; raise e) s))
     = Probe.failedTrail (Probe.count s) (S (List.length frames)) ++ Probe.log s
  /\ Probe.failedCalls (fst (Probe.nested (A := A) frames (Probe.onData g ;; raise e) s))
     = S (List.length frames) + Probe.failedCalls s.
Proof.
  intros Hs.
  destruct (@probe_nested_raise D A frames g e s Hs) as [d Hd].
  rewrite Hd. cbn [fst snd Probe.count Probe.log].
  repeat split.
  apply failedCalls_trail with (c := Probe.count s). reflexivity.
Qed.

Lemma failed_chain_rolls_back_in_every_frame_witness :
  (0 <= Probe.count (Probe.mk 7 0%Z []))%Z
  /\ Probe.log (fst (Probe.nested (A := unit) [S; S] (Probe.onData S ;; raise "boom")
                       (Probe.mk 7 0%Z [])))
     = [Probe.FailedAt 0%Z; Probe.FailedAt 1%Z; Probe.FailedAt 2%Z].
Proof.
  split; [simpl; lia|].
  exact (proj1 (proj2 (proj2
    (@failed_chain_rolls_back_in_every_frame nat unit [S; S] S "boom"
       (Probe.mk 7 0%Z []) (Z.le_refl 0%Z))))).
Defined.

(** C5, as the claim states it, fails for a chain of two frames: the
    rollback callback is called twice, the first time when the inner frame
    exits. *)
Lemma nested_failure_calls_onFailed_twice :
  snd (Probe.nested (A := unit) [fun d : nat => d] (Probe.onData (fun d => d) ;; raise "boom")
         (Probe.mk 0 0%Z [])) = Raised "boom"
  /\ Probe.log (fst (Probe.nested (A := unit) [fun d : nat => d]
                       (Probe.onData (fun d => d) ;; raise "boom") (Probe.mk 0 0%Z [])))
     = [Probe.FailedAt 0%Z; Probe.FailedAt 1%Z]
  /\ Probe.failedCalls (fst (Probe.nested (A := unit) [fun d : nat => d]
                       (Probe.onData (fun d => d) ;; raise "boom") (Probe.mk 0 0%Z [])))
     <> 1.
Proof. repeat split. vm_compute. discriminate. Qed.

(** ** Transactions of the editor: failure (C1) *)

(** C1, as the code has it: when the document is in a committed state (its
    content is the snapshot at the cursor of the history), no operation is
    open and the action leaves the history and the nesting counter as it
    found them whenever it runs inside an open operation, a transaction
    whose action raises, at any depth of nested atom operations, leaves
    the content of the document equal to what it was before the
    transaction and the history as it was, and re-raises the failure of
    the action; a transaction that succeeds adds one snapshot. *)
Theorem failed_transaction_restores_committed_document
    (A : Type) (f : E A) (s : SheetEditorCore) :
  stable f -> count s = 0%Z -> committed s ->
  match runAtomOperation f s with
  | (s', Done _) => history s' = History.add (clone (root s')) (history s)
  | (s', Raised e) =>
      children (root s') = children (root s)
      /\ history s' = history s
      /\ snd (f (setCount 1%Z s)) = Raised e
  end.
Proof.
  intros Hf Hc Hcom.
  destruct (runAtomOperation f s) as [s' [a|e]] eqn:E.
  - exact (runAtomOperation_commitsOnce Hf s Hc E).
  - destruct (@runAtomOperation_failure A f s s' e Hf Hc E) as (Hh & Hr & _ & He).
    rewrite Hr. unfold committed in Hcom. auto.
Qed.

Lemma failed_transaction_restores_committed_document_witness :
  children (root (fst (runAtomOperation (updateContent [0] "")
                         (Sample.editorOf [Sample.chordNode "a"]))))
    = [Sample.chordNode "a"]
  /\ history (fst (runAtomOperation (updateContent [0] "")
                     (Sample.editorOf [Sample.chordNode "a"])))
    = history (Sample.editorOf [Sample.chordNode "a"]).
Proof.
  pose proof (@failed_transaction_restores_committed_document unit
                (updateContent [0] "") (Sample.editorOf [Sample.chordNode "a"])
                (stable_updateContent [0] "") eq_refl eq_refl) as H.
  change (runAtomOperation (updateContent [0] "") (Sample.editorOf [Sample.chordNode "a"]))
    with (Sample.editorOf [Sample.chordNode "a"],
          Raised (A := unit) "the new content must not be empty") in *.
  destruct H as (H1 & H2 & _). split; assumption.
Defined.

(** After a key shift the shifted chords were never committed, and the
    rollback of a later failed transaction takes them back too. *)
Lemma failed_transaction_after_key_shift_changes_document :
  count Sample.shifted = 0%Z
  /\ snd (updateContent [0] "" Sample.shifted) = Raised "the new content must not be empty"
  /\ children (root (fst (updateContent [0] "" Sample.shifted)))
     <> children (root Sample.shifted).
Proof. repeat split. vm_compute. discriminate. Qed.

(** C1, as the claim states it, fails in two ways.  An action that calls
    [clearSheet] has the cleared sheet pushed to the history at once, and
    the rollback of the failed transaction restores that snapshot: the
    document is not what it was before the transaction and the history has
    a new entry.  And after a key shift the shifted chords are in no
    snapshot, and the rollback of a later failed transaction takes them
    back too. *)
Lemma failed_transaction_does_not_restore_the_document :
  (count (Sample.editorOf [Sample.chordNode "a"]) = 0%Z
   /\ committed (Sample.editorOf [Sample.chordNode "a"])
   /\ snd (runAtomOperation (clearSheet ;; raise (A := unit) "stop")
             (Sample.editorOf [Sample.chordNode "a"])) = Raised "stop"
   /\ children (root (fst (runAtomOperation (clearSheet ;; raise (A := unit) "stop")
                             (Sample.editorOf [Sample.chordNode "a"]))))
      <> children (root (Sample.editorOf [Sample.chordNode "a"]))
   /\ history (fst (runAtomOperation (clearSheet ;; raise (A := unit) "stop")
                      (Sample.editorOf [Sample.chordNode "a"])))
      <> history (Sample.editorOf [Sample.chordNode "a"]))
  /\ (count Sample.shifted = 0%Z
      /\ snd (updateContent [0] "" Sample.shifted)
         = Raised "the new content must not be empty"
      /\ children (root (fst (updateContent [0] "" Sample.shifted)))
         <> children (root Sample.shifted)).
Proof.
  split.
  - repeat split; try (vm_compute; discriminate).
  - exact failed_transaction_after_key_shift_changes_document.
Qed.

(** ** Commands and snapshots (C6) *)

(** C6, as the code has it: every command that wraps its body in
    [runAtomOperation] (the sixteen commands below; the chained removals
    and the conversions to text for every tracking of the moved nodes and
    every number of rounds of their loops) pushes exactly one snapshot,
    that of the tree it leaves, when it is called outside any other
    operation and succeeds; [clearSheet] and [replaceSheet] do not enter
    the coordinator and update the history themselves. *)
Theorem coordinated_commands_commit_once :
  (forall node data, commitsOnce (insertAfter node data))
  /\ (forall node data, commitsOnce (insertBefore node data))
  /\ (forall node newContent, commitsOnce (updateContent node newContent))
  /\ (forall node newNode, commitsOnce (replace node newNode))
  /\ (forall node d, commitsOnce (updateChord node d))
  /\ (forall node d, commitsOnce (convertToChord node d))
  /\ (forall prompt node ty before, commitsOnce (insert prompt node ty before))
  /\ (forall chordNode, commitsOnce (addUnderlineForChord chordNode))
  /\ (forall chordNode, commitsOnce (removeUnderlineFromChordToNext chordNode))
  /\ (forall prompt node, commitsOnce (editTextWithNeighbor prompt node))
  /\ (forall follow findPrevNodeByType rounds chordNode,
        commitsOnce (removeUnderlineFromPrevToThisChord follow findPrevNodeByType rounds
                       chordNode))
  /\ (forall follow findPrevNodeByType rounds node,
        commitsOnce (removeAllUnderlineOfChord follow findPrevNodeByType rounds node))
  /\ (forall follow findPrevNodeByType rounds node,
        commitsOnce (remove (removeAllUnderlineOfChord follow findPrevNodeByType rounds)
                       node))
  /\ (forall follow findPrevNodeByType rounds node,
        commitsOnce (toggleChordType
                       (removeAllUnderlineOfChord follow findPrevNodeByType rounds) node))
  /\ (forall follow findPrevNodeByType isPlaceholder rounds node removeEmptyNode,
        commitsOnce (convertToText follow findPrevNodeByType isPlaceholder rounds
                       node removeEmptyNode))
  /\ (forall follow findPrevNodeByType isPlaceholder rounds node removeEmptyNode,
        commitsOnce (convertChordToText follow findPrevNodeByType isPlaceholder rounds
                       node removeEmptyNode))
  /\ (forall s, history (fst (clearSheet s))
                = History.add (clone (root (fst (clearSheet s)))) (history s))
  /\ (forall newRoot doClone s,
        history (fst (replaceSheet newRoot doClone false s))
        = History.add (clone (root (fst (replaceSheet newRoot doClone false s)))) (history s))
  /\ (forall newRoot doClone s,
        history (fst (replaceSheet newRoot doClone true s))
        = History.clear (clone (root (fst (replaceSheet newRoot doClone true s)))) (history s)).
Proof.
  repeat match goal with |- _ /\ _ => split end.
  - intros. unfold insertAfter. apply runAtomOperation_commitsOnce. solve_stable.
  - intros. unfold insertBefore. apply runAtomOperation_commitsOnce. solve_stable.
  - intros. unfold updateContent. apply runAtomOperation_commitsOnce. solve_stable.
  - intros. unfold replace. apply runAtomOperation_commitsOnce. solve_stable.
  - intros. unfold updateChord. apply runAtomOperation_commitsOnce. solve_stable.
  - intros. unfold convertToChord. apply runAtomOperation_commitsOnce. solve_stable.
  - intros. unfold insert. apply runAtomOperation_commitsOnce. solve_stable.
  - intros. unfold addUnderlineForChord, addUnderline_sameLevel, addUnderline_extendForward,
      addUnderline_extendBackward, addUnderline_merge.
    apply runAtomOperation_commitsOnce. solve_stable.
  - intros. unfold removeUnderlineFromChordToNext, removeUnderline_dissolve,
      removeUnderline_shrinkTail, removeUnderline_shrinkHead, removeUnderline_split.
    apply runAtomOperation_commitsOnce. solve_stable.
  - intros. unfold editTextWithNeighbor. apply runAtomOperation_commitsOnce. solve_stable.
  - intros. unfold removeUnderlineFromPrevToThisChord.
    apply runAtomOperation_commitsOnce, stable_removeUnderlineFromPrevToThisChord_body.
  - intros. unfold removeAllUnderlineOfChord.
    apply runAtomOperation_commitsOnce, stable_removeAllUnderlineOfChord_body.
  - intros. apply wrapped_remove. intros p. apply stable_removeAllUnderlineOfChord.
  - intros. apply wrapped_toggleChordType. intros p. apply stable_removeAllUnderlineOfChord.
  - intros. apply wrapped_convertToText.
  - intros. apply wrapped_convertChordToText.
  - intros. reflexivity.
  - intros. reflexivity.
  - intros. reflexivity.
Qed.

Lemma coordinated_commands_commit_once_witness :
  history (fst (insertAfter [0] [Sample.textNode " "] (Sample.editorOf [Sample.chordNode "a"])))
  = History.add (Sample.rootOf [Sample.chordNode "a"; Sample.textNode " "])
      (history (Sample.editorOf [Sample.chordNode "a"]))
  /\ history (fst (convertToText (fun _ _ _ => [0]) (fun _ _ _ => None)
                     (fun c => String.eqb c "") 2 [0; 0] true
                     (Sample.editorOf
                        [Sample.underlineOf [Sample.chordNode "a"; Sample.chordNode "b"]])))
     = History.add (Sample.rootOf [Sample.textNode "a"; Sample.chordNode "b"])
         (history (Sample.editorOf
                     [Sample.underlineOf [Sample.chordNode "a"; Sample.chordNode "b"]])).
Proof.
  destruct coordinated_commands_commit_once
    as (HinsertAfter & _ & _ & _ & _ & _ & _ & _ & _ & _ & _ & _ & _ & _
        & HconvertToText & _).
  split.
  - exact (HinsertAfter [0] [Sample.textNode " "]
             (Sample.editorOf [Sample.chordNode "a"]) _ tt eq_refl eq_refl).
  - exact (HconvertToText (fun _ _ _ => [0]) (fun _ _ _ => None)
             (fun c => String.eqb c "") 2 [0; 0] true
             (Sample.editorOf
                [Sample.underlineOf [Sample.chordNode "a"; Sample.chordNode "b"]])
             _ (Some (Sample.textNode "a")) eq_refl eq_refl).
Defined.

(** [setKey] does not enter the coordinator and pushes no snapshot,
    although it rewrites the chords of the tree. *)
Lemma setKey_pushes_no_snapshot :
  snd (setKey 2%Z true (Sample.editorOf [Sample.chordNode "a"])) = Done tt
  /\ history (fst (setKey 2%Z true (Sample.editorOf [Sample.chordNode "a"])))
     = history (Sample.editorOf [Sample.chordNode "a"])
  /\ root (fst (setKey 2%Z true (Sample.editorOf [Sample.chordNode "a"])))
     <> root (Sample.editorOf [Sample.chordNode "a"])
  /\ history (fst (setKey 2%Z true (Sample.editorOf [Sample.chordNode "a"])))
     <> History.add (clone (root (fst (setKey 2%Z true (Sample.editorOf [Sample.chordNode "a"])))))
          (history (Sample.editorOf [Sample.chordNode "a"])).
Proof. repeat split; vm_compute; discriminate. Qed.

(** [setKey] never touches the history. *)
Lemma setKey_history newKey shiftChord s :
  history (fst (setKey newKey shiftChord s)) = history s.
Proof.
  unfold setKey, bind, gets, modify, modifyRoot.
  destruct (KeyOps.isEqual newKey (sheetKey (meta s))); [reflexivity|].
  destruct shiftChord; [|reflexivity].
  simpl. destruct (shiftChords _ _) as [r' [|]]; reflexivity.
Qed.

(** C6, as the claim states it, fails in two ways.  [clearSheet] does not
    enter the coordinator and pushes its snapshot itself: in a transaction
    it does so at once, and the outermost completion pushes a second one.
    And the key shift pushes no snapshot, although it rewrites the chords
    of the tree. *)
Lemma commands_outside_the_coordinator :
  (snd (runAtomOperation clearSheet (Sample.editorOf [Sample.chordNode "a"])) = Done tt
   /\ History.size (history (Sample.editorOf [Sample.chordNode "a"])) = 1
   /\ History.size (history (fst (runAtomOperation clearSheet
                                    (Sample.editorOf [Sample.chordNode "a"])))) = 3)
  /\ (snd (setKey 2%Z true (Sample.editorOf [Sample.chordNode "a"])) = Done tt
      /\ history (fst (setKey 2%Z true (Sample.editorOf [Sample.chordNode "a"])))
         = history (Sample.editorOf [Sample.chordNode "a"])
      /\ root (fst (setKey 2%Z true (Sample.editorOf [Sample.chordNode "a"])))
         <> root (Sample.editorOf [Sample.chordNode "a"])
      /\ history (fst (setKey 2%Z true (Sample.editorOf [Sample.chordNode "a"])))
         <> History.add
              (clone (root (fst (setKey 2%Z true (Sample.editorOf [Sample.chordNode "a"])))))
              (history (Sample.editorOf [Sample.chordNode "a"]))).
Proof.
  split.
  - repeat split.
  - exact setKey_pushes_no_snapshot.
Qed.

(** ** An insertion without text (C10) *)

(** C10, as the code has it: when the text provider answers with an empty
    or cancelled result, the insertion of a text or of a mark, called
    outside any other operation, returns without raising and leaves the
    tree as it is, and the atom operation still commits: a snapshot of the
    unchanged tree is added to the history, with the same content as the
    snapshot before it when the document was in a committed state. *)
Theorem insert_without_text_commits_unchanged_tree
    (prompt : string -> string -> option string) (node : NodeRef) (ty : string)
    (before : bool) (s : SheetEditorCore) :
  count s = 0%Z ->
  ty = "text" \/ ty = "mark" ->
  (forall message default, prompt message default = None \/ prompt message default = Some "") ->
  snd (insert prompt node ty before s) = Done tt
  /\ root (fst (insert prompt node ty before s)) = root s
  /\ history (fst (insert prompt node ty before s)) = History.add (clone (root s)) (history s)
  /\ (committed s ->
      children (History.getCurrent (history (fst (insert prompt node ty before s))))
      = children (History.getCurrent (history s))).
Proof.
  intros Hc Hty Hp.
  assert (Hrun : insert prompt node ty before s = (committedNow s, Done tt)).
  { unfold insert. rewrite runAtomOperation_outer; [|assumption|solve_stable].
    assert (He : forall m d,
      match prompt m d with None => true | Some t => String.eqb t "" end = true).
    { intros m d. destruct (Hp m d) as [-> | ->]; reflexivity. }
    destruct s as [m r h c]. simpl in Hc. subst c.
    destruct Hty as [-> | ->]; simpl; rewrite He; reflexivity. }
  rewrite Hrun. simpl. repeat split.
  intros Hcom. exact Hcom.
Qed.

Lemma insert_without_text_commits_unchanged_tree_witness :
  History.size (history (fst (insert Sample.cancelled [0] "text" false
                                (Sample.editorOf [Sample.chordNode "a"])))) = 2
  /\ root (fst (insert Sample.cancelled [0] "text" false
                  (Sample.editorOf [Sample.chordNode "a"])))
     = Sample.rootOf [Sample.chordNode "a"].
Proof.
  destruct (@insert_without_text_commits_unchanged_tree Sample.cancelled [0] "text" false
              (Sample.editorOf [Sample.chordNode "a"]) eq_refl (or_introl eq_refl)
              (fun _ _ => or_introl eq_refl)) as (_ & Hr & Hh & _).
  split; [rewrite Hh; reflexivity | exact Hr].
Defined.

(** C10, as the claim states it, fails in two ways.  Inside an open
    operation the insertion without text adds no snapshot: the commit is
    left to the outermost operation.  And after a key shift the snapshot
    that it adds, that of the unchanged tree, has the shifted chords, which
    the snapshot before it has not. *)
Lemma insert_without_text_snapshot_differs :
  (snd (insert Sample.cancelled [0] "text" false
          (setCount 1%Z (Sample.editorOf [Sample.chordNode "a"]))) = Done tt
   /\ history (fst (insert Sample.cancelled [0] "text" false
                      (setCount 1%Z (Sample.editorOf [Sample.chordNode "a"]))))
      = history (Sample.editorOf [Sample.chordNode "a"]))
  /\ (count Sample.shifted = 0%Z
      /\ snd (insert Sample.cancelled [0] "text" false Sample.shifted) = Done tt
      /\ root (fst (insert Sample.cancelled [0] "text" false Sample.shifted))
         = root Sample.shifted
      /\ History.getCurrent
           (history (fst (insert Sample.cancelled [0] "text" false Sample.shifted)))
         <> History.getCurrent (history Sample.shifted)
      /\ children (History.getCurrent
           (history (fst (insert Sample.cancelled [0] "text" false Sample.shifted))))
         <> children (History.getCurrent (history Sample.shifted))).
Proof.
  split.
  - split; reflexivity.
  - repeat split; try (vm_compute; discriminate).
Qed.

(** ** Undo and redo after a sequence of transactions (C3) *)

(** C3, as the code has it: after a sequence of successful transactions,
    fewer than the capacity of the history, started in a committed state
    outside any operation and each one an atom operation whose action
    leaves the history and the nesting counter as it found them whenever
    it runs inside an open operation, as many undos bring back the content
    the document had before the sequence, and as many redos then bring
    back the content it had after it. *)
Theorem undo_redo_after_transactions
    (fs : list (E unit)) (s0 sN : SheetEditorCore) :
  committed s0 -> count s0 = 0%Z -> Forall stable fs ->
  List.length fs < History.maxSize (history s0) ->
  runAll fs s0 = (sN, Done tt) ->
  exists sU sR,
    times (List.length fs) undo sN = (sU, Done tt)
    /\ children (root sU) = children (root s0)
    /\ times (List.length fs) redo sU = (sR, Done tt)
    /\ children (root sR) = children (root sN).
Proof.
  intros Hcom Hc Hst Hlen Hrun.
  destruct fs as [|f fs'] eqn:Efs.
  { simpl in Hrun. unfold ret in Hrun. injection Hrun as <-.
    exists s0, s0. simpl. unfold ret. repeat split. }
  rewrite <- Efs in *.
  destruct (runAll_commits s0 Hc Hst Hrun) as (vs & Hl & Hh & Hlast).
  assert (Hne : vs <> []).
  { intros ->. rewrite Efs in Hl. discriminate Hl. }
  destruct (@history_after_commits _ vs (history s0) Hne ltac:(lia))
    as (older & Hent & Hcur & Hnext).
  rewrite <- Hh in Hent, Hcur, Hnext. rewrite Hl in Hcur.
  destruct (@undo_times (List.length fs) sN ltac:(lia)) as (sU & HtU & HeU & HcU & HrU).
  assert (HcurU : History.cursor (history sU) = List.length older) by lia.
  assert (HatU : History.current (history sU) = History.current (history s0)).
  { pose proof (entries_at_cursor (history sU)) as Hat.
    rewrite HeU, Hent, HcurU in Hat.
    rewrite nth_error_app2, Nat.sub_diag in Hat by lia.
    simpl in Hat. injection Hat as ->. reflexivity. }
  destruct (@redo_times (List.length fs) sU) as (sR & HtR & HeR & HcR & HrR).
  { rewrite HeU, Hent, HcurU, length_app. simpl. lia. }
  assert (HatR : History.current (history sR) = root sN).
  { pose proof (entries_at_cursor (history sR)) as Hat.
    rewrite HeR, HeU, Hent, HcR, HcurU in Hat.
    rewrite nth_error_app2 in Hat by lia.
    replace (List.length older + List.length fs - List.length older)
      with (List.length vs) in Hat by lia.
    rewrite nth_error_last in Hat. injection Hat as Hat.
    rewrite <- Hat, <- Hlast.
    destruct vs as [|v vs']; [congruence|].
    rewrite !last_cons_default. reflexivity. }
  assert (Hpos : 0 < List.length fs) by (rewrite Efs; simpl; lia).
  exists sU, sR. repeat split.
  - exact HtU.
  - rewrite (HrU Hpos), HatU. symmetry. exact Hcom.
  - exact HtR.
  - rewrite (HrR Hpos), HatR. reflexivity.
Qed.

Lemma undo_redo_after_transactions_witness :
  exists sU sR,
    times 2 undo (fst (runAll [insertAfter [0] [Sample.textNode "x"];
                               updateContent [0] "b"]
                         (Sample.editorOf [Sample.chordNode "a"]))) = (sU, Done tt)
    /\ children (root sU) = [Sample.chordNode "a"]
    /\ times 2 redo sU = (sR, Done tt)
    /\ children (root sR) = [Sample.chordNode "b"; Sample.textNode "x"].
Proof.
  exact (@undo_redo_after_transactions
           [insertAfter [0] [Sample.textNode "x"]; updateContent [0] "b"]
           (Sample.editorOf [Sample.chordNode "a"])
           (fst (runAll [insertAfter [0] [Sample.textNode "x"]; updateContent [0] "b"]
                   (Sample.editorOf [Sample.chordNode "a"])))
           eq_refl eq_refl
           (Forall_cons _ (stable_insertAfter _ _)
              (Forall_cons _ (stable_updateContent _ _) (Forall_nil _)))
           ltac:(vm_compute; lia) eq_refl).
Defined.

(** After one hundred and one transactions the oldest snapshots are gone:
    the undo runs out of history and the document does not get back to
    where it started. *)
Lemma undo_runs_out_after_too_many_transactions :
  committed (Sample.editorOf [Sample.textNode "a"])
  /\ snd (runAll Sample.manySpaces (Sample.editorOf [Sample.textNode "a"])) = Done tt
  /\ snd (times 101 undo
            (fst (runAll Sample.manySpaces (Sample.editorOf [Sample.textNode "a"]))))
     = Raised "no more histroy for undo"
  /\ children (root (fst (times 101 undo
            (fst (runAll Sample.manySpaces (Sample.editorOf [Sample.textNode "a"]))))))
     <> children (root (Sample.editorOf [Sample.textNode "a"])).
Proof.
  repeat split; try (vm_compute; reflexivity).
  intros H. apply (f_equal (@List.length SheetNode)) in H.
  vm_compute in H. discriminate H.
Qed.

(** C3, as the claim states it, fails in two ways: for a sequence longer
    than the history, as above, and for a transaction whose action writes
    the history itself: [clearSheet] in a transaction leaves two
    snapshots, and one undo does not bring the document back. *)
Lemma undo_does_not_restore_the_start :
  (committed (Sample.editorOf [Sample.textNode "a"])
   /\ snd (runAll Sample.manySpaces (Sample.editorOf [Sample.textNode "a"])) = Done tt
   /\ snd (times 101 undo
             (fst (runAll Sample.manySpaces (Sample.editorOf [Sample.textNode "a"]))))
      = Raised "no more histroy for undo"
   /\ children (root (fst (times 101 undo
             (fst (runAll Sample.manySpaces (Sample.editorOf [Sample.textNode "a"]))))))
      <> children (root (Sample.editorOf [Sample.textNode "a"])))
  /\ (committed (Sample.editorOf [Sample.textNode "a"])
      /\ snd (runAll [clearSheet] (Sample.editorOf [Sample.textNode "a"])) = Done tt
      /\ snd (times 1 undo (fst (runAll [clearSheet] (Sample.editorOf [Sample.textNode "a"]))))
         = Done tt
      /\ children (root (fst (times 1 undo
                (fst (runAll [clearSheet] (Sample.editorOf [Sample.textNode "a"]))))))
         <> children (root (Sample.editorOf [Sample.textNode "a"]))).
Proof.
  split.
  - exact undo_runs_out_after_too_many_transactions.
  - repeat split. vm_compute. discriminate.
Qed.

(** ** The root of the tree after an atom operation *)

(** An atom operation that succeeds leaves the tree its action left. *)
Lemma runAtomOperation_done A (f : E A) s s2 a :
  stable f -> (0 <= count s)%Z ->
  f (setCount (count s + 1)%Z s) = (s2, Done a) ->
  snd (runAtomOperation f s) = Done a /\ root (fst (runAtomOperation f s)) = root s2.
Proof.
  intros Hf Hc Hrun.
  destruct (Z.eq_dec (count s) 0) as [H0|H0].
  - rewrite runAtomOperation_outer by assumption.
    rewrite H0 in Hrun. simpl in Hrun. rewrite Hrun. split; reflexivity.
  - rewrite runAtomOperation_nested by (assumption || lia).
    rewrite Hrun. split; reflexivity.
Qed.

(** An atom operation succeeds only when its action does. *)
Lemma runAtomOperation_done_inv A (f : E A) s a :
  stable f -> (0 <= count s)%Z ->
  snd (runAtomOperation f s) = Done a ->
  exists s2, f (setCount (count s + 1)%Z s) = (s2, Done a)
             /\ root (fst (runAtomOperation f s)) = root s2.
Proof.
  intros Hf Hc Hrun.
  destruct (f (setCount (count s + 1)%Z s)) as [s2 [a'|e]] eqn:Ef.
  - destruct (@runAtomOperation_done A f s s2 a' Hf Hc Ef) as [H1 H2].
    rewrite H1 in Hrun. injection Hrun as ->. exists s2. split; [reflexivity | exact H2].
  - exfalso.
    destruct (Z.eq_dec (count s) 0) as [H0|H0].
    + rewrite runAtomOperation_outer in Hrun by assumption.
      rewrite H0 in Ef. simpl in Ef. rewrite Ef in Hrun. discriminate Hrun.
    + rewrite runAtomOperation_nested in Hrun by (assumption || lia).
      rewrite Ef in Hrun. discriminate Hrun.
Qed.

(** ** Three sibling chords (C7) *)

(** C7: when the children of the root are exactly three chords of the same
    purity (leaves, with any content and chord data), the addition of an
    underline at the first one succeeds and the children become an
    underline of that purity holding the first two chords, followed by the
    third chord. *)
Theorem addUnderline_on_three_sibling_chords
    (s : SheetEditorCore) (ty rt : ENodeType.t) (rc c1 c2 c3 : string)
    (rd d1 d2 d3 : option ChordData) :
  ty = ENodeType.Chord \/ ty = ENodeType.ChordPure ->
  (0 <= count s)%Z ->
  root s = mkNode rt rc rd [mkNode ty c1 d1 []; mkNode ty c2 d2 []; mkNode ty c3 d3 []] ->
  snd (addUnderlineForChord [0] s) = Done tt
  /\ children (root (fst (addUnderlineForChord [0] s)))
     = [ mkNode (match ty with
                 | ENodeType.ChordPure => ENodeType.UnderlinePure
                 | _ => ENodeType.Underline
                 end) "" None [mkNode ty c1 d1 []; mkNode ty c2 d2 []];
         mkNode ty c3 d3 [] ].
Proof.
  intros Hty Hc Hroot.
  unfold addUnderlineForChord.
  match goal with
  | |- snd (runAtomOperation ?f s) = _ /\ _ =>
      assert (Hst : stable f)
        by (unfold addUnderline_sameLevel, addUnderline_extendForward,
              addUnderline_extendBackward, addUnderline_merge; solve_stable);
      assert (Hbody : exists s2, f (setCount (count s + 1)%Z s) = (s2, Done tt)
                /\ children (root s2)
                   = [ mkNode (match ty with
                               | ENodeType.ChordPure => ENodeType.UnderlinePure
                               | _ => ENodeType.Underline
                               end) "" None [mkNode ty c1 d1 []; mkNode ty c2 d2 []];
                       mkNode ty c3 d3 [] ])
  end.
  { destruct s as [m r h c]. simpl in Hroot. subst r.
    destruct Hty as [-> | ->]; eexists; (split; [cbv - [Z.add]; reflexivity|]);
      reflexivity. }
  destruct Hbody as (s2 & Hrun & Hch).
  destruct (@runAtomOperation_done unit _ s s2 tt Hst Hc Hrun) as [H1 H2].
  split; [exact H1 | rewrite H2; exact Hch].
Qed.

Lemma addUnderline_on_three_sibling_chords_witness :
  children (root (fst (addUnderlineForChord [0]
      (Sample.editorOf [Sample.pureNode "a"; Sample.pureNode "b"; Sample.pureNode "c"]))))
  = [ mkNode ENodeType.UnderlinePure "" None [Sample.pureNode "a"; Sample.pureNode "b"];
      Sample.pureNode "c" ].
Proof.
  exact (proj2 (@addUnderline_on_three_sibling_chords
                  (Sample.editorOf [Sample.pureNode "a"; Sample.pureNode "b"; Sample.pureNode "c"])
                  ENodeType.ChordPure ENodeType.Root "" "a" "b" "c"
                  None (Some 0%Z) (Some 0%Z) (Some 0%Z)
                  (or_intror eq_refl) (Z.le_refl 0%Z) eq_refl)).
Defined.

(** ** The invariants and the extension of an underline (C2) *)

(** C2 at a failing input: the tree [Underline[a, b], p, c] with a pure
    chord [p] between annotated chords satisfies I1 and I2; the addition of
    an underline at [b] extends the underline up to [c], over the pure
    chord, and the result violates I2. *)
Theorem extension_of_underline_mixes_purities :
  invariantI1 (Sample.rootOf [Sample.underlineOf [Sample.chordNode "a"; Sample.chordNode "b"];
                              Sample.pureNode "p"; Sample.chordNode "c"]) = true
  /\ invariantI2 (Sample.rootOf [Sample.underlineOf [Sample.chordNode "a"; Sample.chordNode "b"];
                                 Sample.pureNode "p"; Sample.chordNode "c"]) = true
  /\ addUnderlineForChord [0; 1]
       (Sample.editorOf [Sample.underlineOf [Sample.chordNode "a"; Sample.chordNode "b"];
                         Sample.pureNode "p"; Sample.chordNode "c"])
     = (committedNow
          (setRoot (Sample.rootOf [Sample.underlineOf
                      [Sample.chordNode "a"; Sample.chordNode "b";
                       Sample.pureNode "p"; Sample.chordNode "c"]])
             (Sample.editorOf [Sample.underlineOf [Sample.chordNode "a"; Sample.chordNode "b"];
                               Sample.pureNode "p"; Sample.chordNode "c"])),
        Done tt)
  /\ invariantI2 (Sample.rootOf [Sample.underlineOf
                      [Sample.chordNode "a"; Sample.chordNode "b";
                       Sample.pureNode "p"; Sample.chordNode "c"]]) = false.
Proof. repeat split. Qed.

(** The conversion of a text inside a pure underline to a chord makes an
    annotated chord, which breaks I2 as well. *)
Lemma convertToChord_in_pure_underline_mixes_purities :
  invariantI2 (Sample.rootOf [mkNode ENodeType.UnderlinePure "" None
                 [Sample.pureNode "a"; Sample.textNode " "; Sample.pureNode "b"]]) = true
  /\ snd (convertToChord [0; 1] 5%Z
            (Sample.editorOf [mkNode ENodeType.UnderlinePure "" None
                 [Sample.pureNode "a"; Sample.textNode " "; Sample.pureNode "b"]]))
     = Done [0; 1]
  /\ invariantI2 (root (fst (convertToChord [0; 1] 5%Z
            (Sample.editorOf [mkNode ENodeType.UnderlinePure "" None
                 [Sample.pureNode "a"; Sample.textNode " "; Sample.pureNode "b"]]))))
     = false.
Proof. repeat split. Qed.

(** ** Removal of an underline at the first of three chords (C8) *)

(** C8, as the claim states it, fails: the removal at the first chord of
    [Underline[a, b, c]] is the shrink-head case and leaves [a] followed
    by [Underline[b, c]]. *)
Lemma removeUnderline_at_first_chord_is_not_shrink_tail :
  snd (removeUnderlineFromChordToNext [0; 0]
         (Sample.editorOf [Sample.underlineOf
            [Sample.chordNode "a"; Sample.chordNode "b"; Sample.chordNode "c"]])) = Done tt
  /\ children (root (fst (removeUnderlineFromChordToNext [0; 0]
         (Sample.editorOf [Sample.underlineOf
            [Sample.chordNode "a"; Sample.chordNode "b"; Sample.chordNode "c"]]))))
     = [Sample.chordNode "a"; Sample.underlineOf [Sample.chordNode "b"; Sample.chordNode "c"]]
  /\ children (root (fst (removeUnderlineFromChordToNext [0; 0]
         (Sample.editorOf [Sample.underlineOf
            [Sample.chordNode "a"; Sample.chordNode "b"; Sample.chordNode "c"]]))))
     <> [Sample.underlineOf [Sample.chordNode "a"; Sample.chordNode "b"]; Sample.chordNode "c"].
Proof. repeat split. vm_compute. discriminate. Qed.

(** ** Content update (C9) *)


(** ** Lists, references and trees *)

Section ListFacts.
Context {A : Type}.
Implicit Types l : list A.

Lemma modifyNth_spec i (f : A -> A) l x :
  nth_error l i = Some x ->
  modifyNth i f l = firstn i l ++ f x :: skipn (S i) l.
Proof.
  revert i. induction l as [|y l IH]; intros [|i] H; simpl in *; try discriminate.
  - injection H as ->. reflexivity.
  - rewrite (IH i H). reflexivity.
Qed.

Lemma modifyNth_out i (f : A -> A) l :
  nth_error l i = None -> modifyNth i f l = l.
Proof.
  revert i. induction l as [|y l IH]; intros [|i] H; simpl in *; try discriminate;
    try reflexivity.
  rewrite (IH i H). reflexivity.
Qed.

Lemma modifyNth_compose i (f g : A -> A) l :
  modifyNth i g (modifyNth i f l) = modifyNth i (fun x => g (f x)) l.
Proof.
  revert i. induction l as [|y l IH]; intros [|i]; simpl; try reflexivity.
  rewrite IH. reflexivity.
Qed.

Lemma nth_error_modifyNth i (f : A -> A) l :
  nth_error (modifyNth i f l) i = option_map f (nth_error l i).
Proof.
  revert i. induction l as [|y l IH]; intros [|i]; simpl; try reflexivity.
  apply IH.
Qed.

Lemma modifyNth_ext i (f g : A -> A) l :
  (forall x, nth_error l i = Some x -> f x = g x) ->
  modifyNth i f l = modifyNth i g l.
Proof.
  revert i. induction l as [|y l IH]; intros [|i] H; simpl; try reflexivity.
  - rewrite (H y eq_refl). reflexivity.
  - rewrite (IH i); [reflexivity|]. intros x Hx. apply H. exact Hx.
Qed.

Lemma firstn_skipn_length (m : nat) l :
  firstn m l ++ skipn (List.length (firstn m l)) l = l.
Proof.
  rewrite length_firstn.
  destruct (Nat.le_ge_cases m (List.length l)) as [H|H].
  - rewrite Nat.min_l by assumption. apply firstn_skipn.
  - rewrite Nat.min_r by assumption.
    rewrite firstn_all2, skipn_all2 by lia. apply app_nil_r.
Qed.

Lemma nth_error_split_at i l x :
  nth_error l i = Some x -> l = firstn i l ++ x :: skipn (S i) l.
Proof.
  revert i. induction l as [|y l IH]; intros [|i] H; simpl in *; try discriminate.
  - injection H as ->. reflexivity.
  - f_equal. apply IH. exact H.
Qed.
End ListFacts.

Lemma ref_eqb_eq p q : ref_eqb p q = true <-> p = q.
Proof.
  revert q. induction p as [|i p IH]; intros [|j q]; simpl; split; intros H;
    try reflexivity; try discriminate.
  - apply andb_true_iff in H as [H1 H2].
    apply Nat.eqb_eq in H1. apply IH in H2. congruence.
  - injection H as -> ->. rewrite Nat.eqb_refl. simpl. apply IH. reflexivity.
Qed.

Lemma ref_eqb_refl p : ref_eqb p p = true.
Proof. apply ref_eqb_eq. reflexivity. Qed.

Lemma parent_snoc p i : NodeUtils.parent (p ++ [i]) = Some p.
Proof.
  unfold NodeUtils.parent. rewrite removelast_last.
  destruct p; reflexivity.
Qed.

Lemma parent_Some p q :
  NodeUtils.parent p = Some q -> p = q ++ [NodeUtils.getSelfIndex p].
Proof.
  unfold NodeUtils.parent, NodeUtils.getSelfIndex. destruct p as [|i p]; [discriminate|].
  intros H. injection H as <-. apply app_removelast_last. discriminate.
Qed.

Lemma getSelfIndex_snoc p i : NodeUtils.getSelfIndex (p ++ [i]) = i.
Proof. unfold NodeUtils.getSelfIndex. apply last_last. Qed.

Lemma option_ref_eqb_Some p q :
  option_ref_eqb (NodeUtils.parent p) (Some q) = true -> p = q ++ [NodeUtils.getSelfIndex p].
Proof.
  destruct (NodeUtils.parent p) as [q'|] eqn:E; simpl; [|discriminate].
  intros H. apply ref_eqb_eq in H. subst q'. apply parent_Some. exact E.
Qed.

Lemma commonPrefix_l p q : exists r, p = commonPrefix p q ++ r.
Proof.
  revert q. induction p as [|i p IH]; intros [|j q]; simpl; try (eexists; reflexivity).
  destruct (Nat.eqb i j); [|eexists; reflexivity].
  destruct (IH q) as [r Hr]. exists r. simpl. congruence.
Qed.

Lemma commonPrefix_r p q : exists r, q = commonPrefix p q ++ r.
Proof.
  revert q. induction p as [|i p IH]; intros [|j q]; simpl; try (eexists; reflexivity).
  destruct (Nat.eqb i j) eqn:E; [|eexists; reflexivity].
  apply Nat.eqb_eq in E. subst j.
  destruct (IH q) as [r Hr]. exists r. simpl. congruence.
Qed.

Lemma commonPrefix_refl p : commonPrefix p p = p.
Proof. induction p as [|i p IH]; simpl; [reflexivity|]. rewrite Nat.eqb_refl, IH. reflexivity. Qed.

(** Two references that continue their common prefix with the same index
    do not have that prefix as their longest one. *)
Lemma commonPrefix_maximal p q c r1 r2 i :
  commonPrefix p q = c -> p = c ++ i :: r1 -> q = c ++ i :: r2 -> False.
Proof.
  revert p q. induction c as [|j c IH]; intros p q Hc Hp Hq; subst p q; simpl in Hc.
  - rewrite Nat.eqb_refl in Hc. discriminate.
  - rewrite Nat.eqb_refl in Hc. injection Hc as Hc.
    eapply IH; [exact Hc | reflexivity | reflexivity].
Qed.

Lemma parentUntil_snoc c i r :
  NodeUtils.parentUntil (c ++ i :: r) c = c ++ [i].
Proof.
  unfold NodeUtils.parentUntil.
  induction c as [|j c IH]; simpl; [reflexivity|].
  simpl in IH. rewrite IH. reflexivity.
Qed.

Lemma includes_parentsOf p q :
  NodeUtils.includes (NodeUtils.parentsOf p) (Some q) = true ->
  exists i r, p = q ++ i :: r.
Proof.
  revert q. induction p as [|i p IH]; intros q H; simpl in H; [discriminate|].
  rewrite existsb_app in H. apply orb_true_iff in H as [H|H].
  - rewrite existsb_exists in H. destruct H as (x & Hin & Hx).
    apply in_map_iff in Hin as (y & <- & Hy).
    apply ref_eqb_eq in Hx. subst q.
    destruct (IH y) as (j & r & Hr).
    + simpl. rewrite existsb_exists. exists y. split; [exact Hy | apply ref_eqb_refl].
    + exists j, r. simpl. congruence.
  - simpl in H. rewrite orb_false_r in H. apply ref_eqb_eq in H. subst q.
    exists i, p. reflexivity.
Qed.

Section TreeFacts.

Lemma getNode_app p q root :
  getNode root (p ++ q)
  = match getNode root p with Some n => getNode n q | None => None end.
Proof.
  revert root. induction p as [|i p IH]; intros root; simpl; [reflexivity|].
  destruct (nth_error (children root) i); [apply IH | reflexivity].
Qed.

Lemma getNode_snoc p i root :
  getNode root (p ++ [i])
  = match getNode root p with Some n => nth_error (children n) i | None => None end.
Proof.
  rewrite getNode_app. destruct (getNode root p) as [n|]; [|reflexivity].
  simpl. destruct (nth_error (children n) i); reflexivity.
Qed.

Lemma getNode_prefix p q root n :
  getNode root (p ++ q) = Some n -> exists m, getNode root p = Some m /\ getNode m q = Some n.
Proof.
  rewrite getNode_app. destruct (getNode root p) as [m|]; [|discriminate].
  intros H. exists m. split; [reflexivity | exact H].
Qed.

Lemma children_setChildren cs n : children (setChildren cs n) = cs.
Proof. reflexivity. Qed.

Lemma setChildren_children n : setChildren (children n) n = n.
Proof. destruct n; reflexivity. Qed.

Lemma modifyNode_app p q f root :
  modifyNode (p ++ q) f root = modifyNode p (modifyNode q f) root.
Proof.
  revert root. induction p as [|i p IH]; intros root; simpl; [reflexivity|].
  f_equal. apply modifyNth_ext. intros x _. apply IH.
Qed.

Lemma modifyNode_compose p f g root :
  modifyNode p g (modifyNode p f root) = modifyNode p (fun n => g (f n)) root.
Proof.
  revert root. induction p as [|i p IH]; intros root; simpl; [reflexivity|].
  unfold setChildren at 1. simpl.
  unfold setChildren. f_equal.
  rewrite modifyNth_compose. apply modifyNth_ext. intros x _. apply IH.
Qed.

Lemma modifyNode_ext_at p f g root n :
  getNode root p = Some n -> f n = g n -> modifyNode p f root = modifyNode p g root.
Proof.
  revert root. induction p as [|i p IH]; intros root Hn Hfg; simpl in *.
  - injection Hn as ->. exact Hfg.
  - f_equal. apply modifyNth_ext. intros x Hx. rewrite Hx in Hn. apply IH; assumption.
Qed.

Lemma getNode_modifyNode p f root :
  getNode (modifyNode p f root) p = option_map f (getNode root p).
Proof.
  revert root. induction p as [|i p IH]; intros root; simpl; [reflexivity|].
  rewrite nth_error_modifyNth.
  destruct (nth_error (children root) i); simpl; [apply IH | reflexivity].
Qed.

Lemma modifyChildren_snoc p i g root :
  modifyChildren (p ++ [i]) g root
  = modifyChildren p (modifyNth i (fun n => setChildren (g (children n)) n)) root.
Proof.
  unfold modifyChildren. rewrite modifyNode_app. reflexivity.
Qed.

Lemma modifyNode_snoc p i f root :
  modifyNode (p ++ [i]) f root = modifyChildren p (modifyNth i f) root.
Proof.
  unfold modifyChildren. rewrite modifyNode_app. reflexivity.
Qed.

Lemma modifyChildren_compose p g1 g2 root :
  modifyChildren p g2 (modifyChildren p g1 root)
  = modifyChildren p (fun cs => g2 (g1 cs)) root.
Proof.
  unfold modifyChildren. rewrite modifyNode_compose. reflexivity.
Qed.

Lemma modifyChildren_ext_at p g1 g2 root n :
  getNode root p = Some n -> g1 (children n) = g2 (children n) ->
  modifyChildren p g1 root = modifyChildren p g2 root.
Proof.
  intros Hn H. unfold modifyChildren.
  apply modifyNode_ext_at with (n := n); [exact Hn | rewrite H; reflexivity].
Qed.

Lemma getNode_modifyChildren p g root :
  getNode (modifyChildren p g root) p
  = option_map (fun n => setChildren (g (children n)) n) (getNode root p).
Proof. unfold modifyChildren. apply getNode_modifyNode. Qed.

Lemma leafContents_eq n :
  leafContents n = (if hasContent (type n) then [content n] else []) ++ contentsOf (children n).
Proof. destruct n; reflexivity. Qed.

Lemma contentsOf_app a b : contentsOf (a ++ b) = contentsOf a ++ contentsOf b.
Proof. apply flat_map_app. Qed.

Lemma contentsOf_cons x l : contentsOf (x :: l) = leafContents x ++ contentsOf l.
Proof. reflexivity. Qed.

Lemma leafContents_modifyNode p f root n :
  getNode root p = Some n -> leafContents (f n) = leafContents n ->
  leafContents (modifyNode p f root) = leafContents root.
Proof.
  revert root. induction p as [|i p IH]; intros root Hn Hf; simpl in Hn.
  - injection Hn as ->. exact Hf.
  - destruct (nth_error (children root) i) as [c|] eqn:Ec; [|discriminate].
    change (modifyNode (i :: p) f root)
      with (setChildren (modifyNth i (modifyNode p f) (children root)) root).
    rewrite (leafContents_eq root), (leafContents_eq (setChildren _ _)).
    simpl. f_equal.
    rewrite modifyNth_spec with (x := c) by exact Ec.
    rewrite (@nth_error_split_at _ i (children root) c Ec) at 3.
    rewrite !contentsOf_app, !contentsOf_cons.
    rewrite (IH c Hn Hf). reflexivity.
Qed.

Lemma leafContents_modifyChildren p g root n :
  getNode root p = Some n -> contentsOf (g (children n)) = contentsOf (children n) ->
  leafContents (modifyChildren p g root) = leafContents root.
Proof.
  intros Hn Hg. unfold modifyChildren.
  apply leafContents_modifyNode with (n := n); [exact Hn|].
  rewrite (leafContents_eq n), (leafContents_eq (setChildren _ _)). simpl.
  rewrite Hg. reflexivity.
Qed.
End TreeFacts.

(** ** Steps of the computations of the editor *)

Lemma bind_eq St A B (m : M St A) (k : A -> M St B) s :
  bind m k s
  = match m s with
    | (s1, Done a) => k a s1
    | (s1, Raised e) => (s1, Raised e)
    end.
Proof. reflexivity. Qed.

Lemma deref_ok s p n : getNode (root s) p = Some n -> deref p s = (s, Done n).
Proof. intros H. unfold deref. rewrite H. reflexivity. Qed.

Lemma deref_inv s p s' n : deref p s = (s', Done n) -> s' = s /\ getNode (root s) p = Some n.
Proof.
  unfold deref. destruct (getNode (root s) p); intros H; [|discriminate H].
  injection H as <- <-. split; reflexivity.
Qed.

Lemma parentOf_ok s q i : parentOf (q ++ [i]) s = (s, Done q).
Proof. unfold parentOf. rewrite parent_snoc. reflexivity. Qed.

Lemma parentOf_inv s p s' q :
  parentOf p s = (s', Done q) -> s' = s /\ p = q ++ [NodeUtils.getSelfIndex p].
Proof.
  unfold parentOf. destruct (NodeUtils.parent p) as [q'|] eqn:E; intros H; [|discriminate H].
  injection H as <- <-. split; [reflexivity | apply parent_Some; exact E].
Qed.

Lemma assert_inv St (b : bool) msg (s s' : St) (a : unit) :
  assert b msg s = (s', Done a) -> s' = s /\ b = true.
Proof.
  destruct b; simpl; intros H; [|discriminate H].
  injection H as <-. split; reflexivity.
Qed.

(** ** Insertion after a node *)







(** The walk out of the underlines ends at the node or at one of its
    ancestors. *)
Lemma walkOutLast_suffix root rp : exists l, rp = l ++ walkOutLast root rp.
Proof.
  induction rp as [|i rq IH]; [exists []; reflexivity|].
  cbn [walkOutLast].
  destruct (NodeUtils.isLastChild root (rev (i :: rq)) && parentIsUnderline root (rev (i :: rq))).
  - destruct IH as [l Hl]. exists (i :: l). simpl. congruence.
  - exists []. reflexivity.
Qed.

Lemma insertionTarget_prefix root node :
  exists r, node = insertionTarget root node ++ r.
Proof.
  unfold insertionTarget.
  destruct (walkOutLast_suffix root (rev node)) as [l Hl].
  exists (rev l). rewrite <- rev_app_distr, <- Hl, rev_involutive. reflexivity.
Qed.


Lemma insertAfter_done s node data n :
  (0 <= count s)%Z ->
  getNode (root s) node = Some n ->
  insertionTarget (root s) node <> [] ->
  snd (insertAfter node data s) = Done tt
  /\ root (fst (insertAfter node data s))
     = modifyChildren (removelast (insertionTarget (root s) node))
         (spliceIn (NodeUtils.getSelfIndex (insertionTarget (root s) node) + 1) data)
         (root s).
Proof.
  intros Hc Hn Ht.
  unfold insertAfter.
  match goal with
  | |- snd (runAtomOperation ?f s) = _ /\ _ =>
      assert (Hst : stable f) by solve_stable;
      apply (@runAtomOperation_done unit f s
               (setRoot (modifyChildren (removelast (insertionTarget (root s) node))
                  (spliceIn (NodeUtils.getSelfIndex (insertionTarget (root s) node) + 1) data)
                  (root s)) (setCount (count s + 1)%Z s)) tt Hst Hc)
  end.
  assert (Hnode : node <> []).
  { intros ->. apply Ht. reflexivity. }
  rewrite bind_eq, (@deref_ok _ node n) by exact Hn.
  rewrite bind_eq.
  rewrite (app_removelast_last 0 Hnode), parentOf_ok, <- (app_removelast_last 0 Hnode).
  rewrite bind_eq. unfold gets at 1. cbv beta.
  fold (insertionTarget (root (setCount (count s + 1)%Z s)) node).
  change (root (setCount (count s + 1)%Z s)) with (root s).
  rewrite bind_eq.
  rewrite (app_removelast_last 0 Ht) at 1. rewrite parentOf_ok.
  reflexivity.
Qed.


Lemma modifyNth_id A i (f : A -> A) l : (forall x, f x = x) -> modifyNth i f l = l.
Proof.
  intros Hf. revert i. induction l as [|y l IH]; intros [|i]; simpl; try reflexivity.
  - rewrite Hf. reflexivity.
  - rewrite IH. reflexivity.
Qed.

Lemma modifyNode_id p f root : (forall n, f n = n) -> modifyNode p f root = root.
Proof.
  intros Hf. revert root. induction p as [|i p IH]; intros root; simpl; [apply Hf|].
  rewrite modifyNth_id by exact IH. apply setChildren_children.
Qed.








(** ** Removal of an underline at the first of three chords, in general *)

Lemma findNextNodeByType_context ty p : forall root n r r',
  getNode root p = Some n ->
  NodeUtils.findNextNodeByType n r ty = Some r' ->
  NodeUtils.findNextNodeByType root (p ++ r) ty = Some (p ++ r').
Proof.
  induction p as [|i p IH]; intros root n r r' Hn Hr; simpl in *.
  - injection Hn as ->. exact Hr.
  - destruct (nth_error (children root) i) as [c|]; [|discriminate].
    rewrite (IH c n r r' Hn Hr). reflexivity.
Qed.

Lemma isLastChild_snoc root p i par :
  getNode root p = Some par ->
  NodeUtils.isLastChild root (p ++ [i]) = Nat.eqb (S i) (List.length (children par)).
Proof.
  intros H. unfold NodeUtils.isLastChild.
  rewrite removelast_last, H, getSelfIndex_snoc. reflexivity.
Qed.

Lemma parentIsUnderline_snoc root p i par :
  getNode root p = Some par ->
  parentIsUnderline root (p ++ [i]) = NodeUtils.isUnderline par.
Proof.
  intros H. unfold parentIsUnderline. rewrite parent_snoc, H. reflexivity.
Qed.

Lemma commonAncestor_siblings p i j :
  NodeUtils.commonAncestor (p ++ [i]) (p ++ [j]) = Some p.
Proof.
  unfold NodeUtils.commonAncestor. rewrite !parent_snoc, commonPrefix_refl. reflexivity.
Qed.

Lemma parentUntil_child p i : NodeUtils.parentUntil (p ++ [i]) p = p ++ [i].
Proof. apply parentUntil_snoc. Qed.

Lemma spliceIn_modifyNth A k (x : A) (f : A -> A) l u :
  nth_error l k = Some u ->
  spliceIn k [x] (modifyNth k f l) = firstn k l ++ x :: f u :: skipn (S k) l.
Proof.
  intros Hu.
  assert (Hk : k < List.length l) by (apply nth_error_Some; congruence).
  rewrite modifyNth_spec with (x := u) by exact Hu.
  unfold spliceIn.
  rewrite firstn_app, skipn_app, length_firstn, Nat.min_l by lia.
  rewrite Nat.sub_diag. simpl.
  rewrite firstn_firstn, Nat.min_id.
  rewrite skipn_all2 by (rewrite length_firstn; lia).
  rewrite app_nil_r. reflexivity.
Qed.

(** C8, as the code has it: for an underline anywhere in the tree whose
    children are exactly three chords of the same purity, the removal of
    the underline at the first chord succeeds and is the shrink-head case:
    in the parent of the underline, the underline is replaced by the first
    chord followed by the underline, which keeps the other two chords. *)
Theorem removeUnderline_at_first_of_three_chords
    (s : SheetEditorCore) (q : NodeRef) (k : nat) (u : SheetNode) (ty : ENodeType.t)
    (c1 c2 c3 : string) (d1 d2 d3 : option ChordData) :
  (0 <= count s)%Z ->
  ty = ENodeType.Chord \/ ty = ENodeType.ChordPure ->
  getNode (root s) (q ++ [k]) = Some u ->
  NodeUtils.isUnderline u = true ->
  children u = [mkNode ty c1 d1 []; mkNode ty c2 d2 []; mkNode ty c3 d3 []] ->
  snd (removeUnderlineFromChordToNext ((q ++ [k]) ++ [0]) s) = Done tt
  /\ root (fst (removeUnderlineFromChordToNext ((q ++ [k]) ++ [0]) s))
     = modifyChildren q
         (fun cs => firstn k cs
                    ++ mkNode ty c1 d1 []
                    :: setChildren [mkNode ty c2 d2 []; mkNode ty c3 d3 []] u
                    :: skipn (S k) cs)
         (root s).
Proof.
  intros Hc Hty Hu Hul Hch.
  set (U := q ++ [k]) in *.
  set (s1 := setCount (count s + 1)%Z s).
  assert (Hr1 : root s1 = root s) by reflexivity.
  assert (H0 : getNode (root s1) (U ++ [0]) = Some (mkNode ty c1 d1 [])).
  { rewrite getNode_snoc, Hr1, Hu, Hch. reflexivity. }
  assert (H1 : getNode (root s1) (U ++ [1]) = Some (mkNode ty c2 d2 [])).
  { rewrite getNode_snoc, Hr1, Hu, Hch. reflexivity. }
  assert (Hchord : forall c d, NodeUtils.isChord (mkNode ty c d []) = true).
  { intros c d. destruct Hty as [-> | ->]; reflexivity. }
  assert (Hnext : NodeUtils.findNextNodeByType (root s1) (U ++ [0]) ty = Some (U ++ [1])).
  { apply findNextNodeByType_context with (n := u); [exact Hu|].
    destruct u as [tu cu du chs]. simpl in Hch. subst chs.
    simpl. rewrite ENodeType_eqb_refl. reflexivity. }
  destruct (getNode_prefix q [k] (root s) Hu) as (par & Hpar & Hk).
  simpl in Hk.
  destruct (nth_error (children par) k) as [u'|] eqn:Ek; [|discriminate].
  injection Hk as ->.
  unfold removeUnderlineFromChordToNext.
  match goal with
  | |- snd (runAtomOperation ?f s) = _ /\ _ =>
      assert (Hst : stable f)
        by (unfold removeUnderline_dissolve, removeUnderline_shrinkTail,
              removeUnderline_shrinkHead, removeUnderline_split; solve_stable);
      destruct (@runAtomOperation_done unit f s
                  (setRoot (modifyChildren q (spliceIn k [mkNode ty c1 d1 []])
                              (modifyChildren U (spliceOut 0 1) (root s))) s1)
                  tt Hst Hc) as [Hd1 Hd2]
  end.
  { fold s1.
    rewrite bind_eq, (@deref_ok s1 _ _ H0).
    rewrite bind_eq, Hchord. cbn [assert ret].
    rewrite bind_eq, parentOf_ok.
    rewrite bind_eq. unfold gets at 1. cbv beta.
    rewrite bind_eq, (@parentIsUnderline_snoc (root s1) U 0 u Hu), Hul. cbn [assert ret].
    rewrite bind_eq, (@isLastChild_snoc (root s1) U 0 u Hu), Hch.
    cbn [assert ret negb Nat.eqb List.length].
    cbn [type]. rewrite Hnext.
    rewrite commonAncestor_siblings.
    rewrite bind_eq, (@deref_ok s1 U u Hu).
    rewrite bind_eq, Hul. cbn [assert ret].
    rewrite bind_eq. cbn [assert ret].
    rewrite !parentUntil_child.
    unfold NodeUtils.isFirstChild. rewrite getSelfIndex_snoc.
    rewrite (@isLastChild_snoc (root s1) U 1 u Hu), Hch.
    cbn [Nat.eqb List.length andb negb].
    unfold removeUnderline_shrinkHead.
    rewrite bind_eq, (@deref_ok s1 U u Hu).
    rewrite bind_eq, (@deref_ok s1 _ _ H1).
    rewrite bind_eq, parent_snoc. cbn [option_ref_eqb]. rewrite ref_eqb_refl. cbn [assert ret].
    rewrite bind_eq, Hchord. cbn [orb assert ret].
    rewrite getSelfIndex_snoc, Hch.
    assert (Hanchor : NodeUtils.anchorIndexOf
                        [mkNode ty c1 d1 []; mkNode ty c2 d2 []; mkNode ty c3 d3 []] 1 = 1%Z).
    { clear - Hty. destruct Hty as [-> | ->]; reflexivity. }
    rewrite bind_eq, Hanchor. rewrite orb_true_r. cbn [assert ret].
    cbn [slice Nat.sub skipn firstn List.length].
    rewrite bind_eq. unfold modifyRoot at 1, modify at 1.
    rewrite bind_eq. change (parentOf U) with (parentOf (q ++ [k])). rewrite parentOf_ok.
    change (NodeUtils.getSelfIndex U) with (NodeUtils.getSelfIndex (q ++ [k])).
    rewrite getSelfIndex_snoc. reflexivity. }
  split; [exact Hd1|]. rewrite Hd2. cbn [root setRoot].
  unfold U. rewrite modifyChildren_snoc, modifyChildren_compose.
  apply modifyChildren_ext_at with (n := par); [exact Hpar|].
  rewrite spliceIn_modifyNth with (u := u) by exact Ek.
  rewrite Hch. reflexivity.
Qed.

Lemma removeUnderline_at_first_of_three_chords_witness :
  children (root (fst (removeUnderlineFromChordToNext [1; 0]
     (Sample.editorOf [Sample.textNode "t";
                       Sample.underlineOf [Sample.chordNode "a"; Sample.chordNode "b";
                                           Sample.chordNode "c"]]))))
  = [Sample.textNode "t"; Sample.chordNode "a";
     Sample.underlineOf [Sample.chordNode "b"; Sample.chordNode "c"]].
Proof.
  exact (f_equal children (proj2 (@removeUnderline_at_first_of_three_chords
     (Sample.editorOf [Sample.textNode "t";
                       Sample.underlineOf [Sample.chordNode "a"; Sample.chordNode "b";
                                           Sample.chordNode "c"]])
     [] 1
     (Sample.underlineOf [Sample.chordNode "a"; Sample.chordNode "b"; Sample.chordNode "c"])
     ENodeType.Chord "a" "b" "c" (Some 0%Z) (Some 0%Z) (Some 0%Z)
     (Z.le_refl 0%Z) (or_introl eq_refl) eq_refl eq_refl eq_refl))).
Defined.

(** ** Splices at a known position *)

Section SpliceFacts.
Context {A : Type}.
Implicit Types l a b xs : list A.

Lemma firstn_at a b i : i = List.length a -> firstn i (a ++ b) = a.
Proof.
  intros ->. rewrite firstn_app, Nat.sub_diag, firstn_all. simpl. apply app_nil_r.
Qed.

Lemma skipn_at a b i : i = List.length a -> skipn i (a ++ b) = b.
Proof.
  intros ->. rewrite skipn_app, Nat.sub_diag, skipn_all. reflexivity.
Qed.

Lemma spliceIn_at a b xs i : i = List.length a -> spliceIn i xs (a ++ b) = a ++ xs ++ b.
Proof. intros H. unfold spliceIn. rewrite firstn_at, skipn_at by exact H. reflexivity. Qed.

Lemma spliceOut_at a b i n : i = List.length a -> spliceOut i n (a ++ b) = a ++ skipn n b.
Proof.
  intros H. unfold spliceOut. rewrite firstn_at by exact H.
  rewrite Nat.add_comm, <- skipn_skipn, skipn_at by exact H. reflexivity.
Qed.

Lemma modifyNth_at a x b (f : A -> A) i :
  i = List.length a -> modifyNth i f (a ++ x :: b) = a ++ f x :: b.
Proof.
  intros ->. induction a as [|y a IH]; simpl; [reflexivity | rewrite IH; reflexivity].
Qed.

Lemma slice_at a b i j : i = List.length a -> slice i j (a ++ b) = firstn (j - i) b.
Proof. intros H. unfold slice. rewrite skipn_at by exact H. reflexivity. Qed.

Lemma slice_nil_of_short l i j : List.length l <= i -> slice i j l = [].
Proof. intros H. unfold slice. rewrite skipn_all2 by exact H. apply firstn_nil. Qed.

Lemma split_at_index l i :
  i <= List.length l -> l = firstn i l ++ skipn i l /\ List.length (firstn i l) = i.
Proof.
  intros H. split; [symmetry; apply firstn_skipn|].
  rewrite length_firstn. lia.
Qed.

Lemma firstn_plus l x y : firstn x l ++ firstn y (skipn x l) = firstn (x + y) l.
Proof.
  revert l. induction x as [|x IH]; intros l; simpl; [reflexivity|].
  destruct l as [|z l]; simpl.
  - rewrite firstn_nil. reflexivity.
  - rewrite IH. reflexivity.
Qed.
End SpliceFacts.

Lemma replaceAt_at (a : list SheetNode) x b xs i :
  i = List.length a -> replaceAt i xs (a ++ x :: b) = a ++ xs ++ b.
Proof.
  intros H. unfold replaceAt. rewrite firstn_at by exact H.
  replace (a ++ x :: b) with ((a ++ [x]) ++ b) by (rewrite <- app_assoc; reflexivity).
  rewrite skipn_at by (rewrite length_app; simpl; lia). reflexivity.
Qed.

(** ** The contents of the children rearranged by the underline algorithms *)

Lemma leafContents_append b x : leafContents (append b x) = leafContents x ++ contentsOf b.
Proof.
  rewrite (leafContents_eq x), (leafContents_eq (append b x)). simpl.
  rewrite contentsOf_app, app_assoc. reflexivity.
Qed.

Lemma leafContents_group t c d cs :
  hasContent t = false -> leafContents (mkNode t c d cs) = contentsOf cs.
Proof. intros H. simpl. rewrite H. reflexivity. Qed.

Lemma leafContents_no_own_content x :
  hasContent (type x) = false -> leafContents x = contentsOf (children x).
Proof. intros H. rewrite leafContents_eq, H. reflexivity. Qed.

Lemma hasContent_underline x : NodeUtils.isUnderline x = true -> hasContent (type x) = false.
Proof. unfold NodeUtils.isUnderline. destruct (type x); simpl; congruence. Qed.

Lemma leafContents_prepend b x :
  hasContent (type x) = false ->
  leafContents (prepend b x) = contentsOf b ++ leafContents x.
Proof.
  intros H. rewrite (leafContents_no_own_content x H).
  rewrite (leafContents_eq (prepend b x)). simpl. rewrite H, contentsOf_app. reflexivity.
Qed.

Lemma leafContents_setChildren cs x :
  hasContent (type x) = false -> leafContents (setChildren cs x) = contentsOf cs.
Proof. intros H. rewrite leafContents_eq. simpl. rewrite H. reflexivity. Qed.

Lemma contents_sameLevel cs i j pure :
  0 < List.length (slice i (S j) cs) ->
  contentsOf (modifyNth i (append (slice i (S j) cs))
                (spliceOut (S i) (List.length (slice i (S j) cs))
                   (spliceIn i [NodeUtils.createUnderlineNode pure] cs)))
  = contentsOf cs.
Proof.
  intros Hlen.
  destruct (Nat.le_gt_cases (List.length cs) i) as [Hi|Hi].
  { rewrite slice_nil_of_short in Hlen by exact Hi. simpl in Hlen. lia. }
  destruct (@split_at_index _ cs i) as [Hcs Hla]; [lia|].
  set (a := firstn i cs) in *. set (r := skipn i cs) in *.
  clearbody a r. subst cs. clear Hi Hlen.
  rewrite slice_at by (symmetry; exact Hla).
  set (between := firstn (S j - i) r).
  rewrite spliceIn_at by (symmetry; exact Hla).
  replace (a ++ [NodeUtils.createUnderlineNode pure] ++ r)
    with ((a ++ [NodeUtils.createUnderlineNode pure]) ++ r)
    by (rewrite <- app_assoc; reflexivity).
  rewrite spliceOut_at by (rewrite length_app; simpl; lia).
  rewrite <- app_assoc. simpl.
  rewrite modifyNth_at by (symmetry; exact Hla).
  rewrite !contentsOf_app, contentsOf_cons, leafContents_append.
  f_equal.
  rewrite (leafContents_no_own_content (NodeUtils.createUnderlineNode pure))
    by (destruct pure; reflexivity).
  replace (children (NodeUtils.createUnderlineNode pure)) with (@nil SheetNode)
    by (destruct pure; reflexivity).
  simpl. rewrite <- contentsOf_app. f_equal.
  unfold between. apply firstn_skipn_length.
Qed.

Lemma split_at_nth A (l : list A) k x :
  nth_error l k = Some x ->
  exists a b, l = a ++ x :: b /\ List.length a = k.
Proof.
  intros Hx. exists (firstn k l), (skipn (S k) l). split.
  - apply nth_error_split_at. exact Hx.
  - rewrite length_firstn. apply Nat.min_l.
    apply Nat.lt_le_incl. apply nth_error_Some. congruence.
Qed.

Lemma cons_as_app A (a : list A) x b : a ++ x :: b = (a ++ [x]) ++ b.
Proof. rewrite <- app_assoc. reflexivity. Qed.

Lemma contents_extendForward cs k j :
  contentsOf (modifyNth k (append (slice (S k) (S j) cs))
                (spliceOut (S k) (List.length (slice (S k) (S j) cs)) cs))
  = contentsOf cs.
Proof.
  destruct (nth_error cs k) as [x|] eqn:Ex.
  - destruct (split_at_nth _ _ Ex) as (a & r & -> & Hla). clear Ex.
    rewrite (cons_as_app a x r).
    rewrite slice_at by (rewrite length_app; simpl; lia).
    set (between := firstn (S j - S k) r).
    rewrite spliceOut_at by (rewrite length_app; simpl; lia).
    rewrite <- app_assoc. simpl.
    rewrite modifyNth_at by (symmetry; exact Hla).
    rewrite <- app_assoc. simpl.
    rewrite !contentsOf_app, !contentsOf_cons, leafContents_append.
    f_equal. rewrite <- app_assoc. f_equal.
    rewrite <- contentsOf_app. f_equal.
    unfold between. apply firstn_skipn_length.
  - assert (Hk : List.length cs <= k) by (apply nth_error_None; exact Ex).
    rewrite slice_nil_of_short by lia. simpl.
    unfold spliceOut. rewrite Nat.add_0_r, firstn_skipn.
    rewrite modifyNth_out by exact Ex. reflexivity.
Qed.

Lemma contents_extendBackward cs i k x :
  nth_error cs k = Some x -> hasContent (type x) = false ->
  contentsOf (modifyNth (k - List.length (slice i k cs)) (prepend (slice i k cs))
                (spliceOut i (List.length (slice i k cs)) cs))
  = contentsOf cs.
Proof.
  intros Ex Hx.
  assert (Hk : k < List.length cs) by (apply nth_error_Some; congruence).
  destruct (Nat.le_gt_cases k i) as [Hik|Hik].
  - assert (Hb : slice i k cs = []).
    { unfold slice. replace (k - i) with 0 by lia. reflexivity. }
    rewrite Hb. simpl. rewrite Nat.sub_0_r.
    unfold spliceOut. rewrite Nat.add_0_r, firstn_skipn.
    destruct (split_at_nth _ _ Ex) as (a & r & -> & Hla).
    rewrite modifyNth_at by (symmetry; exact Hla).
    rewrite !contentsOf_app, !contentsOf_cons. f_equal. f_equal.
    rewrite leafContents_prepend by exact Hx. reflexivity.
  - destruct (@split_at_index _ cs i) as [Hcs Hla]; [lia|].
    assert (Hr : nth_error (skipn i cs) (k - i) = Some x).
    { rewrite nth_error_skipn. replace (i + (k - i)) with k by lia. exact Ex. }
    set (a := firstn i cs) in *. set (r := skipn i cs) in *.
    clearbody a r. subst cs. clear Ex Hk.
    destruct (split_at_nth _ _ Hr) as (b & r' & -> & Hlb). clear Hr.
    rewrite slice_at by (symmetry; exact Hla).
    rewrite firstn_at by (symmetry; exact Hlb).
    rewrite Hlb. replace (k - (k - i)) with i by lia.
    rewrite spliceOut_at by (symmetry; exact Hla).
    rewrite skipn_at by (symmetry; exact Hlb).
    rewrite modifyNth_at by (symmetry; exact Hla).
    repeat (rewrite contentsOf_app || rewrite contentsOf_cons).
    rewrite leafContents_prepend by exact Hx.
    rewrite <- !app_assoc. reflexivity.
Qed.

Lemma createUnderlineNode_empty pure b :
  leafContents (append b (NodeUtils.createUnderlineNode pure)) = contentsOf b.
Proof. destruct pure; reflexivity. Qed.

Lemma leafContents_createUnderlineNode pure :
  leafContents (NodeUtils.createUnderlineNode pure) = [].
Proof. destruct pure; reflexivity. Qed.

Lemma contents_merge cs a b su eu pure :
  a < b -> nth_error cs a = Some su -> nth_error cs b = Some eu ->
  hasContent (type su) = false -> hasContent (type eu) = false ->
  contentsOf
    (replaceAt a
       [append (children eu)
          (append (slice (S a) b cs)
             (append (children su) (NodeUtils.createUnderlineNode pure)))]
       (spliceOut (b - List.length (slice (S a) b cs)) 1
          (spliceOut (S a) (List.length (slice (S a) b cs)) cs)))
  = contentsOf cs.
Proof.
  intros Hab Hsu Heu Hcsu Hceu.
  destruct (split_at_nth _ _ Hsu) as (l & r & -> & Hla).
  assert (Hr : nth_error r (b - S a) = Some eu).
  { rewrite nth_error_app2 in Heu by lia. rewrite Hla in Heu.
    replace (b - a) with (S (b - S a)) in Heu by lia. exact Heu. }
  destruct (split_at_nth _ _ Hr) as (m & r' & -> & Hlm). clear Hsu Heu Hr.
  rewrite (cons_as_app l su (m ++ eu :: r')).
  rewrite slice_at by (rewrite length_app; simpl; lia).
  rewrite firstn_at by (symmetry; exact Hlm).
  rewrite spliceOut_at by (rewrite length_app; simpl; lia).
  rewrite skipn_at by reflexivity.
  replace (b - List.length m) with (S a) by lia.
  rewrite spliceOut_at by (rewrite length_app; simpl; lia).
  simpl skipn. rewrite <- app_assoc. simpl.
  rewrite replaceAt_at by (symmetry; exact Hla).
  repeat (rewrite contentsOf_app || rewrite contentsOf_cons).
  rewrite !leafContents_append, leafContents_createUnderlineNode.
  rewrite (leafContents_no_own_content su Hcsu), (leafContents_no_own_content eu Hceu).
  simpl. rewrite <- !app_assoc. reflexivity.
Qed.

Lemma contents_dissolve cs ui u :
  nth_error cs ui = Some u -> hasContent (type u) = false ->
  contentsOf (replaceAt ui (children u) cs) = contentsOf cs.
Proof.
  intros Hu Hc.
  destruct (split_at_nth _ _ Hu) as (l & r & -> & Hl).
  rewrite replaceAt_at by (symmetry; exact Hl).
  repeat (rewrite contentsOf_app || rewrite contentsOf_cons).
  rewrite (leafContents_no_own_content u Hc). reflexivity.
Qed.

Lemma spliceOut_tail A (l : list A) a :
  spliceOut a (List.length (skipn a l)) l = firstn a l.
Proof.
  unfold spliceOut. rewrite length_skipn.
  rewrite skipn_all2 by lia. apply app_nil_r.
Qed.

Lemma contents_shrinkTail cs ui u a :
  nth_error cs ui = Some u -> hasContent (type u) = false ->
  contentsOf
    (spliceIn (ui + 1) (skipn (S a) (children u))
       (modifyNth ui
          (fun n => setChildren
                      (spliceOut (S a) (List.length (skipn (S a) (children u))) (children n)) n)
          cs))
  = contentsOf cs.
Proof.
  intros Hu Hc.
  destruct (split_at_nth _ _ Hu) as (l & r & -> & Hl).
  rewrite modifyNth_at by (symmetry; exact Hl).
  rewrite spliceOut_tail.
  rewrite (cons_as_app l _ r).
  rewrite spliceIn_at by (rewrite length_app; simpl; lia).
  repeat (rewrite contentsOf_app || rewrite contentsOf_cons).
  rewrite leafContents_setChildren by exact Hc.
  rewrite (leafContents_no_own_content u Hc).
  change (contentsOf []) with (@nil string). rewrite app_nil_r, <- !app_assoc.
  f_equal. rewrite app_assoc, <- contentsOf_app, firstn_skipn. reflexivity.
Qed.

Lemma slice_from_start A (l : list A) b : slice 0 b l = firstn b l.
Proof. unfold slice. rewrite Nat.sub_0_r. reflexivity. Qed.

Lemma contents_shrinkHead cs ui u b :
  nth_error cs ui = Some u -> hasContent (type u) = false ->
  contentsOf
    (spliceIn ui (slice 0 b (children u))
       (modifyNth ui
          (fun n => setChildren
                      (spliceOut 0 (List.length (slice 0 b (children u))) (children n)) n)
          cs))
  = contentsOf cs.
Proof.
  intros Hu Hc.
  destruct (split_at_nth _ _ Hu) as (l & r & -> & Hl).
  rewrite modifyNth_at by (symmetry; exact Hl).
  rewrite spliceIn_at by (symmetry; exact Hl).
  rewrite slice_from_start.
  repeat (rewrite contentsOf_app || rewrite contentsOf_cons).
  rewrite leafContents_setChildren by exact Hc.
  rewrite (leafContents_no_own_content u Hc).
  f_equal. rewrite app_assoc. f_equal.
  unfold spliceOut. simpl firstn. simpl app.
  rewrite <- contentsOf_app. f_equal. apply firstn_skipn_length.
Qed.

Lemma contents_split cs ui u a b pure :
  a < b -> nth_error cs ui = Some u -> hasContent (type u) = false ->
  contentsOf
    (modifyNth (ui + 1 + List.length (slice (S a) b (children u)))
       (append (skipn b (children u)))
       (modifyNth ui (append (slice 0 (a + 1) (children u)))
          (spliceOut (ui + 2 + List.length (slice (S a) b (children u))) 1
             (spliceIn (ui + 1 + List.length (slice (S a) b (children u)))
                [NodeUtils.createUnderlineNode pure]
                (spliceIn (ui + 1) (slice (S a) b (children u))
                   (spliceIn ui [NodeUtils.createUnderlineNode pure] cs))))))
  = contentsOf cs.
Proof.
  intros Hab Hu Hc.
  destruct (split_at_nth _ _ Hu) as (l & r & -> & Hl).
  set (between := slice (S a) b (children u)).
  set (un := NodeUtils.createUnderlineNode pure).
  rewrite spliceIn_at by (symmetry; exact Hl).
  replace (l ++ [un] ++ u :: r) with ((l ++ [un]) ++ u :: r)
    by (rewrite <- app_assoc; reflexivity).
  rewrite spliceIn_at by (rewrite length_app; simpl; lia).
  replace ((l ++ [un]) ++ between ++ u :: r) with (((l ++ [un]) ++ between) ++ u :: r)
    by (rewrite <- !app_assoc; reflexivity).
  rewrite spliceIn_at by (rewrite !length_app; simpl; lia).
  replace (((l ++ [un]) ++ between) ++ [un] ++ u :: r)
    with ((((l ++ [un]) ++ between) ++ [un]) ++ u :: r)
    by (rewrite <- !app_assoc; reflexivity).
  rewrite spliceOut_at by (rewrite !length_app; simpl; lia).
  simpl skipn.
  replace ((((l ++ [un]) ++ between) ++ [un]) ++ r)
    with (l ++ un :: (between ++ un :: r))
    by (rewrite <- !app_assoc; reflexivity).
  rewrite modifyNth_at by (symmetry; exact Hl).
  replace (l ++ append (slice 0 (a + 1) (children u)) un :: between ++ un :: r)
    with (((l ++ [append (slice 0 (a + 1) (children u)) un]) ++ between) ++ un :: r)
    by (rewrite <- !app_assoc; reflexivity).
  rewrite modifyNth_at by (rewrite !length_app; simpl; lia).
  repeat (rewrite contentsOf_app || rewrite contentsOf_cons).
  unfold un. rewrite !createUnderlineNode_empty.
  rewrite (leafContents_no_own_content u Hc).
  change (contentsOf []) with (@nil string). rewrite app_nil_r, <- !app_assoc.
  f_equal. rewrite !app_assoc. f_equal.
  rewrite <- !contentsOf_app. f_equal.
  rewrite slice_from_start. unfold between, slice.
  rewrite Nat.add_1_r.
  rewrite firstn_plus. replace (S a + (b - S a)) with b by lia.
  apply firstn_skipn.
Qed.

(** ** Well-formed trees *)

Lemma wellFormed_eq n :
  wellFormed n
  = (if isLeafType (type n) then match children n with [] => true | _ => false end else true)
    && forallb wellFormed (children n).
Proof. destruct n; reflexivity. Qed.

Lemma wellFormed_getNode p : forall root n,
  wellFormed root = true -> getNode root p = Some n -> wellFormed n = true.
Proof.
  induction p as [|i p IH]; intros root n Hwf Hn; simpl in Hn.
  - injection Hn as <-. exact Hwf.
  - destruct (nth_error (children root) i) as [c|] eqn:Ec; [|discriminate].
    rewrite wellFormed_eq in Hwf. apply andb_true_iff in Hwf as [_ Hall].
    rewrite forallb_forall in Hall.
    apply (IH c n); [|exact Hn]. apply Hall. eapply nth_error_In. exact Ec.
Qed.

Lemma wellFormed_leaf n :
  wellFormed n = true -> isLeafType (type n) = true -> children n = [].
Proof.
  intros Hwf Hl. rewrite wellFormed_eq, Hl in Hwf.
  apply andb_true_iff in Hwf as [H _].
  destruct (children n); [reflexivity | discriminate].
Qed.

Lemma leaf_has_no_descendant root p n i r :
  wellFormed root = true -> getNode root p = Some n -> isLeafType (type n) = true ->
  getNode root (p ++ i :: r) = None.
Proof.
  intros Hwf Hn Hl. rewrite getNode_app, Hn. simpl.
  rewrite (wellFormed_leaf n (wellFormed_getNode p root Hwf Hn) Hl).
  destruct i; reflexivity.
Qed.

Lemma ancestor_has_no_content root p n i r m :
  wellFormed root = true -> getNode root p = Some n ->
  getNode root (p ++ i :: r) = Some m -> hasContent (type n) = false.
Proof.
  intros Hwf Hn Hm.
  destruct (isLeafType (type n)) eqn:Hl.
  - rewrite (leaf_has_no_descendant root p i r Hwf Hn Hl) in Hm. discriminate.
  - destruct (type n); simpl in *; congruence.
Qed.

Lemma isChord_leaf n : NodeUtils.isChord n = true -> isLeafType (type n) = true.
Proof. unfold NodeUtils.isChord. destruct (type n); simpl; congruence. Qed.

(** ** The search of the next node of a type *)

Lemma findIn_eq ty n :
  NodeUtils.findIn ty n
  = if ENodeType.eqb (type n) ty then Some [] else NodeUtils.findInList ty (children n) 0.
Proof.
  destruct n as [t c d cs]. simpl.
  destruct (ENodeType.eqb t ty); [reflexivity|].
  generalize 0. induction cs as [|x cs IH]; intros i; simpl; [reflexivity|].
  destruct (NodeUtils.findIn ty x); [reflexivity | apply IH].
Qed.

(** Induction on a tree, with the property for all the children. *)
Lemma SheetNode_nested_ind (P : SheetNode -> Prop) :
  (forall t c d cs, Forall P cs -> P (mkNode t c d cs)) -> forall n, P n.
Proof.
  intros H. fix IH 1. intros [t c d cs]. apply H.
  induction cs as [|x cs IHcs]; constructor; [apply IH | exact IHcs].
Qed.

Lemma findIn_valid ty : forall n q,
  NodeUtils.findIn ty n = Some q -> exists m, getNode n q = Some m /\ type m = ty.
Proof.
  induction n as [t c d cs IHcs] using SheetNode_nested_ind. intros q Hq.
  rewrite findIn_eq in Hq.
  destruct (ENodeType.eqb (type (mkNode t c d cs)) ty) eqn:Et.
  - injection Hq as <-. exists (mkNode t c d cs).
    split; [reflexivity | apply ENodeType_eqb_eq; exact Et].
  - simpl in Hq.
    assert (Hlist : forall i q, NodeUtils.findInList ty cs i = Some q ->
      exists j q' c' m, q = (i + j) :: q' /\ nth_error cs j = Some c'
                        /\ getNode c' q' = Some m /\ type m = ty).
    { clear Hq Et. induction cs as [|x cs IHl]; intros i q0 Hq0; simpl in Hq0; [discriminate|].
      inversion IHcs as [|? ? Hx Hrest]; subst.
      destruct (NodeUtils.findIn ty x) as [qx|] eqn:Ex.
      - injection Hq0 as <-. destruct (Hx qx eq_refl) as (m & Hm & Ht).
        exists 0, qx, x, m. rewrite Nat.add_0_r. auto.
      - destruct (IHl Hrest (S i) q0 Hq0) as (j & q' & c' & m & -> & Hj & Hm & Ht).
        exists (S j), q', c', m. rewrite Nat.add_succ_r. auto. }
    destruct (Hlist 0 q Hq) as (j & q' & c' & m & -> & Hj & Hm & Ht).
    exists m. simpl. rewrite Hj. auto.
Qed.

Lemma findInList_valid ty l : forall i q,
  NodeUtils.findInList ty l i = Some q ->
  exists j q' c m, q = (i + j) :: q' /\ nth_error l j = Some c
                   /\ getNode c q' = Some m /\ type m = ty.
Proof.
  induction l as [|c l IHl]; intros i q Hq; simpl in Hq; [discriminate|].
  destruct (NodeUtils.findIn ty c) as [q0|] eqn:Ec.
  - injection Hq as <-. destruct (@findIn_valid ty c q0 Ec) as (m & Hm & Ht).
    exists 0, q0, c, m. rewrite Nat.add_0_r. auto.
  - destruct (IHl (S i) q Hq) as (j & q' & c' & m & -> & Hj & Hm & Ht).
    exists (S j), q', c', m. rewrite Nat.add_succ_r. auto.
Qed.

(** The next node of a type is a node of the tree, of that type, and not
    the node the search started from. *)
Lemma findNextNodeByType_valid ty p : forall root q,
  NodeUtils.findNextNodeByType root p ty = Some q ->
  (exists m, getNode root q = Some m /\ type m = ty) /\ q <> p.
Proof.
  induction p as [|i p IH]; intros root q Hq; cbn [NodeUtils.findNextNodeByType] in Hq.
  - destruct (@findInList_valid ty _ _ _ Hq) as (j & q' & c & m & -> & Hj & Hm & Ht).
    split; [|discriminate]. exists m. simpl. rewrite Hj. auto.
  - destruct (nth_error (children root) i) as [c|] eqn:Ec; [|discriminate].
    destruct (NodeUtils.findNextNodeByType c p ty) as [q0|] eqn:Eq.
    + injection Hq as <-. destruct (IH c q0 Eq) as [(m & Hm & Ht) Hne].
      split; [|congruence]. exists m. simpl. rewrite Ec. auto.
    + destruct (@findInList_valid ty _ _ _ Hq) as (j & q' & c' & m & -> & Hj & Hm & Ht).
      split.
      * exists m. cbn [getNode]. rewrite nth_error_skipn in Hj. rewrite Hj. auto.
      * intros Heq. injection Heq as Heq _. lia.
Qed.

(** ** Inversion of successful computations *)

Lemma bind_inv St A B (m : M St A) (k : A -> M St B) s s2 b :
  bind m k s = (s2, Done b) ->
  exists s1 a, m s = (s1, Done a) /\ k a s1 = (s2, Done b).
Proof.
  unfold bind. destruct (m s) as [s1 [a|e]]; intros H; [|discriminate H].
  exists s1, a. split; [reflexivity | exact H].
Qed.

Lemma gets_inv St A (f : St -> A) s s' a : gets f s = (s', Done a) -> s' = s /\ a = f s.
Proof. unfold gets. intros H. injection H as <- <-. split; reflexivity. Qed.

Lemma modifyRoot_inv g s s' a : modifyRoot g s = (s', Done a) -> s' = setRoot (g (root s)) s.
Proof. unfold modifyRoot, modify. intros H. injection H as <-. reflexivity. Qed.

Lemma __assertBeginAndEnd_inv nodes s s' (a : unit) :
  __assertBeginAndEnd nodes s = (s', Done a) -> s' = s.
Proof.
  unfold __assertBeginAndEnd. destruct nodes as [|b l]; [discriminate|].
  unfold bind, ret, raise.
  destruct (beginsWithChord b); [|discriminate].
  destruct (endsWithChord (last (b :: l) b)); [|discriminate].
  intros H. injection H as <-. reflexivity.
Qed.

(** One step of the inversion of [H : (x <- m ;; k) s = (s', Done b)]. *)
Ltac inv_bind H :=
  let s1 := fresh "s" in
  let a := fresh "a" in
  let H1 := fresh "Hstep" in
  apply bind_inv in H; destruct H as (s1 & a & H1 & H);
  first
    [ apply deref_inv in H1; destruct H1 as [? H1]; subst s1
    | apply parentOf_inv in H1; destruct H1 as [? H1]; subst s1
    | apply assert_inv in H1; destruct H1 as [? H1]; subst s1
    | apply gets_inv in H1; destruct H1 as [? ?]; subst s1; subst a
    | apply modifyRoot_inv in H1; subst s1
    | apply __assertBeginAndEnd_inv in H1; subst s1 ].

(** ** The underline algorithms keep the leaf contents *)

Lemma addUnderline_sameLevel_contents startChordNode endChordNode s s2 :
  addUnderline_sameLevel startChordNode endChordNode s = (s2, Done tt) ->
  leafContents (root s2) = leafContents (root s).
Proof.
  unfold addUnderline_sameLevel. intros H.
  inv_bind H. inv_bind H. inv_bind H. inv_bind H. inv_bind H.
  destruct (NodeUtils.traverseForward _ _ _ _ _) as [hasChord hasPureChord].
  inv_bind H. inv_bind H. inv_bind H.
  apply modifyRoot_inv in H. subst s2. cbn [root setRoot].
  rewrite modifyNode_snoc, !modifyChildren_compose.
  apply leafContents_modifyChildren with (n := a0); [assumption|].
  apply contents_sameLevel.
  apply Nat.leb_le in Hstep1. unfold NodeUtils.getSiblingBetween in Hstep1. lia.
Qed.

Lemma addUnderline_extendForward_contents startChordNode endChordNode s s2 :
  addUnderline_extendForward startChordNode endChordNode s = (s2, Done tt) ->
  leafContents (root s2) = leafContents (root s).
Proof.
  unfold addUnderline_extendForward. intros H.
  inv_bind H. inv_bind H. inv_bind H. inv_bind H. inv_bind H. inv_bind H. inv_bind H.
  apply modifyRoot_inv in H. subst s2. cbn [root setRoot].
  apply option_ref_eqb_Some in Hstep1.
  rewrite Hstep1 at 1.
  rewrite modifyNode_snoc, !modifyChildren_compose.
  apply leafContents_modifyChildren with (n := a4); [assumption|].
  apply contents_extendForward.
Qed.

Lemma addUnderline_extendBackward_contents startChordNode endChordNode s s2 m :
  wellFormed (root s) = true ->
  getNode (root s) endChordNode = Some m ->
  NodeUtils.includes (NodeUtils.parentsOf endChordNode) (NodeUtils.parent startChordNode) = true ->
  option_ref_eqb (NodeUtils.parent startChordNode) (NodeUtils.parent endChordNode) = false ->
  addUnderline_extendBackward startChordNode endChordNode s = (s2, Done tt) ->
  leafContents (root s2) = leafContents (root s).
Proof.
  unfold addUnderline_extendBackward. intros Hwf Hm Hinc Hnot H.
  inv_bind H. inv_bind H. inv_bind H. inv_bind H. inv_bind H. inv_bind H. inv_bind H.
  apply modifyRoot_inv in H. subst s2. cbn [root setRoot].
  rewrite Hstep in Hinc, Hnot. rewrite parent_snoc in Hinc, Hnot.
  destruct (includes_parentsOf _ _ Hinc) as (i' & r & Hend).
  destruct r as [|j r].
  { rewrite Hend, parent_snoc in Hnot. simpl in Hnot. rewrite ref_eqb_refl in Hnot.
    discriminate Hnot. }
  assert (HEU : NodeUtils.parentUntil endChordNode a = a ++ [i']).
  { rewrite Hend. apply parentUntil_snoc. }
  rewrite HEU in *. rewrite getSelfIndex_snoc in *.
  rewrite Hend in Hm.
  replace (a ++ i' :: j :: r) with ((a ++ [i']) ++ j :: r) in Hm
    by (rewrite <- app_assoc; reflexivity).
  destruct (getNode_prefix _ _ _ Hm) as (x & Hx & _).
  assert (Hcx : hasContent (type x) = false)
    by (eapply ancestor_has_no_content; eassumption).
  rewrite getNode_snoc, Hstep4 in Hx.
  rewrite modifyNode_snoc, !modifyChildren_compose.
  apply leafContents_modifyChildren with (n := a4); [assumption|].
  unfold NodeUtils.getSiblingBetween.
  apply contents_extendBackward with (x := x); assumption.
Qed.

(** A node below the common ancestor of two nodes continues it. *)
Lemma commonAncestor_inv a b c :
  NodeUtils.commonAncestor a b = Some c ->
  exists pa pb x r y r', NodeUtils.parent a = Some pa /\ NodeUtils.parent b = Some pb
    /\ c = commonPrefix pa pb
    /\ a = c ++ x :: r /\ b = c ++ y :: r'.
Proof.
  unfold NodeUtils.commonAncestor.
  destruct (NodeUtils.parent a) as [pa|] eqn:Ea; [|discriminate].
  destruct (NodeUtils.parent b) as [pb|] eqn:Eb; [|discriminate].
  intros H. injection H as <-.
  destruct (commonPrefix_l pa pb) as [ra Hra], (commonPrefix_r pa pb) as [rb Hrb].
  apply parent_Some in Ea. apply parent_Some in Eb.
  assert (Ha : exists x r, ra ++ [NodeUtils.getSelfIndex a] = x :: r).
  { destruct ra as [|x ra]; simpl; eexists; eexists; reflexivity. }
  assert (Hb : exists y r', rb ++ [NodeUtils.getSelfIndex b] = y :: r').
  { destruct rb as [|y rb]; simpl; eexists; eexists; reflexivity. }
  destruct Ha as (x & r & Hx), Hb as (y & r' & Hy).
  exists pa, pb, x, r, y, r'. repeat split.
  - rewrite Ea at 1. rewrite Hra at 1. rewrite <- app_assoc, Hx. reflexivity.
  - rewrite Eb at 1. rewrite Hrb at 1. rewrite <- app_assoc, Hy. reflexivity.
Qed.

Lemma addUnderline_merge_contents startChordNode endChordNode s s2 :
  addUnderline_merge startChordNode endChordNode s = (s2, Done tt) ->
  leafContents (root s2) = leafContents (root s).
Proof.
  unfold addUnderline_merge. intros H.
  destruct (NodeUtils.commonAncestor startChordNode endChordNode) as [ca|] eqn:Eca;
    [|discriminate H].
  destruct (commonAncestor_inv _ _ Eca) as (pa & pb & x & r & y & r' & _ & _ & _ & Hs & He).
  assert (HSU : NodeUtils.parentUntil startChordNode ca = ca ++ [x])
    by (rewrite Hs; apply parentUntil_snoc).
  assert (HEU : NodeUtils.parentUntil endChordNode ca = ca ++ [y])
    by (rewrite He; apply parentUntil_snoc).
  rewrite HSU, HEU in H. rewrite !getSelfIndex_snoc in H.
  inv_bind H. inv_bind H. inv_bind H. inv_bind H. inv_bind H. inv_bind H. inv_bind H.
  inv_bind H. inv_bind H.
  apply modifyRoot_inv in H. subst s2. cbn [root setRoot].
  rewrite !modifyChildren_compose.
  apply leafContents_modifyChildren with (n := a5); [assumption|].
  apply andb_true_iff in Hstep1 as [Hus Hue].
  apply hasContent_underline in Hus, Hue.
  rewrite getNode_snoc, Hstep5 in Hstep, Hstep0.
  assert (Hxy : x <> y).
  { intros ->. rewrite ref_eqb_refl in Hstep2. discriminate Hstep2. }
  unfold NodeUtils.getSiblingBetween.
  destruct (y <? x) eqn:Eswap.
  - apply Nat.ltb_lt in Eswap. rewrite !getSelfIndex_snoc.
    apply contents_merge; assumption.
  - apply Nat.ltb_ge in Eswap. rewrite !getSelfIndex_snoc.
    apply contents_merge; try assumption. lia.
Qed.

Lemma removeUnderline_dissolve_contents commonUnderlineNode s s2 :
  (forall u, getNode (root s) commonUnderlineNode = Some u -> NodeUtils.isUnderline u = true) ->
  removeUnderline_dissolve commonUnderlineNode s = (s2, Done tt) ->
  leafContents (root s2) = leafContents (root s).
Proof.
  unfold removeUnderline_dissolve. intros Hul H.
  inv_bind H. inv_bind H.
  apply modifyRoot_inv in H. subst s2. cbn [root setRoot].
  pose proof (Hul _ Hstep) as Hu. apply hasContent_underline in Hu.
  rewrite Hstep0 in Hstep.
  destruct (getNode_prefix _ _ _ Hstep) as (par & Hpar & Hk).
  simpl in Hk.
  destruct (nth_error (children par) (NodeUtils.getSelfIndex commonUnderlineNode))
    as [u'|] eqn:Ek; [|discriminate].
  injection Hk as ->.
  apply leafContents_modifyChildren with (n := par); [assumption|].
  apply contents_dissolve; assumption.
Qed.

Lemma removeUnderline_shrinkTail_contents commonUnderlineNode startNode s s2 :
  (forall u, getNode (root s) commonUnderlineNode = Some u -> NodeUtils.isUnderline u = true) ->
  removeUnderline_shrinkTail commonUnderlineNode startNode s = (s2, Done tt) ->
  leafContents (root s2) = leafContents (root s).
Proof.
  unfold removeUnderline_shrinkTail. intros Hul H.
  inv_bind H. inv_bind H. inv_bind H. inv_bind H. inv_bind H. inv_bind H. inv_bind H.
  apply modifyRoot_inv in H. subst s2. cbn [root setRoot].
  pose proof (Hul _ Hstep) as Hu. apply hasContent_underline in Hu.
  match goal with
  | HU : commonUnderlineNode = ?P ++ [_] |- _ =>
      rewrite HU in Hstep;
      destruct (getNode_prefix _ _ _ Hstep) as (par & Hpar & Hk);
      simpl in Hk;
      destruct (nth_error (children par) (NodeUtils.getSelfIndex commonUnderlineNode))
        as [u'|] eqn:Ek; [|discriminate];
      injection Hk as ->;
      replace (modifyChildren commonUnderlineNode)
        with (modifyChildren (P ++ [NodeUtils.getSelfIndex commonUnderlineNode]))
        by (rewrite <- HU; reflexivity)
  end.
  rewrite modifyChildren_snoc, modifyChildren_compose.
  apply leafContents_modifyChildren with (n := par); [assumption|].
  apply contents_shrinkTail; assumption.
Qed.

Lemma removeUnderline_shrinkHead_contents commonUnderlineNode endNode s s2 :
  (forall u, getNode (root s) commonUnderlineNode = Some u -> NodeUtils.isUnderline u = true) ->
  removeUnderline_shrinkHead commonUnderlineNode endNode s = (s2, Done tt) ->
  leafContents (root s2) = leafContents (root s).
Proof.
  unfold removeUnderline_shrinkHead. intros Hul H.
  inv_bind H. inv_bind H. inv_bind H. inv_bind H. inv_bind H. inv_bind H. inv_bind H.
  apply modifyRoot_inv in H. subst s2. cbn [root setRoot].
  pose proof (Hul _ Hstep) as Hu. apply hasContent_underline in Hu.
  match goal with
  | HU : commonUnderlineNode = ?P ++ [_] |- _ =>
      rewrite HU in Hstep;
      destruct (getNode_prefix _ _ _ Hstep) as (par & Hpar & Hk);
      simpl in Hk;
      destruct (nth_error (children par) (NodeUtils.getSelfIndex commonUnderlineNode))
        as [u'|] eqn:Ek; [|discriminate];
      injection Hk as ->;
      replace (modifyChildren commonUnderlineNode)
        with (modifyChildren (P ++ [NodeUtils.getSelfIndex commonUnderlineNode]))
        by (rewrite <- HU; reflexivity)
  end.
  rewrite modifyChildren_snoc, modifyChildren_compose.
  apply leafContents_modifyChildren with (n := par); [assumption|].
  apply contents_shrinkHead; assumption.
Qed.

Lemma removeUnderline_split_contents commonUnderlineNode startNode endNode s s2 :
  NodeUtils.getSelfIndex startNode <> NodeUtils.getSelfIndex endNode ->
  removeUnderline_split commonUnderlineNode startNode endNode s = (s2, Done tt) ->
  leafContents (root s2) = leafContents (root s).
Proof.
  unfold removeUnderline_split. intros Hne H.
  inv_bind H. inv_bind H. inv_bind H. inv_bind H. inv_bind H. inv_bind H. inv_bind H.
  inv_bind H. inv_bind H. inv_bind H. inv_bind H. inv_bind H. inv_bind H.
  apply modifyRoot_inv in H. subst s2. cbn [root setRoot].
  apply hasContent_underline in Hstep0.
  rewrite Hstep6 in Hstep.
  destruct (getNode_prefix _ _ _ Hstep) as (par & Hpar & Hk).
  simpl in Hk.
  destruct (nth_error (children par) (NodeUtils.getSelfIndex commonUnderlineNode))
    as [u'|] eqn:Ek; [|discriminate].
  injection Hk as ->.
  rewrite !modifyNode_snoc, !modifyChildren_compose.
  apply leafContents_modifyChildren with (n := par); [assumption|].
  unfold NodeUtils.getSiblingBetween.
  destruct (NodeUtils.getSelfIndex endNode <? NodeUtils.getSelfIndex startNode) eqn:Eswap.
  - apply Nat.ltb_lt in Eswap. apply contents_split; assumption.
  - apply Nat.ltb_ge in Eswap. apply contents_split; try assumption. lia.
Qed.

(** In a well-formed tree, the two children of the common ancestor on the
    ways to two distinct leaves are distinct. *)
Lemma branches_to_leaves_are_distinct root chordNode nextChordNode n m u :
  wellFormed root = true ->
  getNode root chordNode = Some n -> isLeafType (type n) = true ->
  getNode root nextChordNode = Some m -> isLeafType (type m) = true ->
  nextChordNode <> chordNode ->
  NodeUtils.commonAncestor chordNode nextChordNode = Some u ->
  NodeUtils.getSelfIndex (NodeUtils.parentUntil chordNode u)
  <> NodeUtils.getSelfIndex (NodeUtils.parentUntil nextChordNode u).
Proof.
  intros Hwf Hn Hln Hm Hlm Hne Hca.
  unfold NodeUtils.commonAncestor in Hca.
  destruct (NodeUtils.parent chordNode) as [pc|] eqn:Ec; [|discriminate].
  destruct (NodeUtils.parent nextChordNode) as [pn|] eqn:En; [|discriminate].
  injection Hca as Hu.
  apply parent_Some in Ec. apply parent_Some in En.
  destruct (commonPrefix_l pc pn) as [rc Hrc], (commonPrefix_r pc pn) as [rn Hrn].
  rewrite Hu in Hrc, Hrn.
  set (ic := NodeUtils.getSelfIndex chordNode) in *.
  set (inx := NodeUtils.getSelfIndex nextChordNode) in *.
  clearbody ic inx.
  destruct rc as [|x rc], rn as [|y rn].
  - rewrite app_nil_r in Hrc, Hrn. subst pc pn.
    rewrite Ec, En, !parentUntil_snoc, !getSelfIndex_snoc.
    intros ->. apply Hne. congruence.
  - rewrite app_nil_r in Hrc. subst pc.
    assert (Hnext : nextChordNode = u ++ y :: (rn ++ [inx])).
    { rewrite En, Hrn, <- app_assoc. reflexivity. }
    rewrite Ec at 1. rewrite Hnext at 1.
    rewrite !parentUntil_snoc, !getSelfIndex_snoc.
    intros ->.
    assert (Hdesc : exists z t, nextChordNode = chordNode ++ z :: t).
    { destruct rn as [|z rn]; [exists inx, [] | exists z, (rn ++ [inx])];
        rewrite Hnext, Ec, <- app_assoc; reflexivity. }
    destruct Hdesc as (z & t & Hd).
    rewrite Hd, (leaf_has_no_descendant root chordNode z t Hwf Hn Hln) in Hm.
    discriminate Hm.
  - rewrite app_nil_r in Hrn. subst pn.
    assert (Hchord : chordNode = u ++ x :: (rc ++ [ic])).
    { rewrite Ec, Hrc, <- app_assoc. reflexivity. }
    rewrite En at 1. rewrite Hchord at 1.
    rewrite !parentUntil_snoc, !getSelfIndex_snoc.
    intros ->.
    assert (Hdesc : exists z t, chordNode = nextChordNode ++ z :: t).
    { destruct rc as [|z rc]; [exists ic, [] | exists z, (rc ++ [ic])];
        rewrite Hchord, En, <- app_assoc; reflexivity. }
    destruct Hdesc as (z & t & Hd).
    rewrite Hd, (leaf_has_no_descendant root nextChordNode z t Hwf Hm Hlm) in Hn.
    discriminate Hn.
  - assert (Hchord : chordNode = u ++ x :: (rc ++ [ic])).
    { rewrite Ec, Hrc, <- app_assoc. reflexivity. }
    assert (Hnext : nextChordNode = u ++ y :: (rn ++ [inx])).
    { rewrite En, Hrn, <- app_assoc. reflexivity. }
    rewrite Hchord at 1. rewrite Hnext at 1.
    rewrite !parentUntil_snoc, !getSelfIndex_snoc.
    intros ->. exact (@commonPrefix_maximal pc pn u rc rn y Hu Hrc Hrn).
Qed.

Lemma addUnderlineForChord_body_contents s s2 chordNode :
  wellFormed (root s) = true ->
  (n <- deref chordNode ;;
   assert (NodeUtils.isChord n) "only a chord can get an underline" ;;
   let chordType := type n in
   r <- gets root ;;
   match NodeUtils.findNextNodeByType r chordNode chordType with
   | None => raise "cannot add an underline: no next chord"
   | Some nextChordNode =>
       let startChordNode := chordNode in
       let endChordNode := nextChordNode in
       if option_ref_eqb (NodeUtils.parent startChordNode) (NodeUtils.parent endChordNode)
       then addUnderline_sameLevel startChordNode endChordNode
       else if NodeUtils.includes (NodeUtils.parentsOf startChordNode)
                                  (NodeUtils.parent endChordNode)
       then addUnderline_extendForward startChordNode endChordNode
       else if NodeUtils.includes (NodeUtils.parentsOf endChordNode)
                                  (NodeUtils.parent startChordNode)
       then addUnderline_extendBackward startChordNode endChordNode
       else addUnderline_merge startChordNode endChordNode
   end) s = (s2, Done tt) ->
  leafContents (root s2) = leafContents (root s).
Proof.
  intros Hwf H.
  inv_bind H. inv_bind H. cbv zeta in H. inv_bind H.
  destruct (NodeUtils.findNextNodeByType (root s) chordNode (type a)) as [next|] eqn:Enext;
    [|discriminate H].
  destruct (findNextNodeByType_valid _ _ _ Enext) as [(m & Hm & Htm) Hne].
  destruct (option_ref_eqb (NodeUtils.parent chordNode) (NodeUtils.parent next)) eqn:E1.
  { eapply addUnderline_sameLevel_contents. exact H. }
  destruct (NodeUtils.includes (NodeUtils.parentsOf chordNode) (NodeUtils.parent next)) eqn:E2.
  { eapply addUnderline_extendForward_contents. exact H. }
  destruct (NodeUtils.includes (NodeUtils.parentsOf next) (NodeUtils.parent chordNode)) eqn:E3.
  { eapply addUnderline_extendBackward_contents; eassumption. }
  eapply addUnderline_merge_contents. exact H.
Qed.

Lemma removeUnderlineFromChordToNext_body_contents s s2 chordNode :
  wellFormed (root s) = true ->
  (n <- deref chordNode ;;
   assert (NodeUtils.isChord n) "only a chord can lose an underline" ;;
   _ <- parentOf chordNode ;;
   r <- gets root ;;
   assert (parentIsUnderline r chordNode) "the chord is not under an underline" ;;
   assert (negb (NodeUtils.isLastChild r chordNode))
          "no underline between the chord and the next chord" ;;
   let chordType := type n in
   match NodeUtils.findNextNodeByType r chordNode chordType with
   | None => raise "next chord not found"
   | Some nextChordNode =>
       match NodeUtils.commonAncestor chordNode nextChordNode with
       | None => raise "no underline between the chord and the next chord"
       | Some commonUnderlineNode =>
           u <- deref commonUnderlineNode ;;
           assert (NodeUtils.isUnderline u)
                  "no underline between the chord and the next chord" ;;
           let startNode := NodeUtils.parentUntil chordNode commonUnderlineNode in
           let endNode := NodeUtils.parentUntil nextChordNode commonUnderlineNode in
           assert (NodeUtils.isUnderline u) "common ancestor is suppose to be underline" ;;
           let isBegin := NodeUtils.isFirstChild chordNode in
           let isEnd := NodeUtils.isLastChild r nextChordNode in
           if isBegin && isEnd then
             removeUnderline_dissolve commonUnderlineNode
           else if negb isBegin && isEnd then
             removeUnderline_shrinkTail commonUnderlineNode startNode
           else if isBegin && negb isEnd then
             removeUnderline_shrinkHead commonUnderlineNode endNode
           else
             removeUnderline_split commonUnderlineNode startNode endNode
       end
   end) s = (s2, Done tt) ->
  leafContents (root s2) = leafContents (root s).
Proof.
  intros Hwf H.
  inv_bind H. inv_bind H. inv_bind H. inv_bind H. inv_bind H. inv_bind H. cbv zeta in H.
  destruct (NodeUtils.findNextNodeByType (root s) chordNode (type a)) as [next|] eqn:Enext;
    [|discriminate H].
  destruct (findNextNodeByType_valid _ _ _ Enext) as [(m & Hm & Htm) Hne].
  destruct (NodeUtils.commonAncestor chordNode next) as [U|] eqn:EU; [|discriminate H].
  inv_bind H. inv_bind H. inv_bind H.
  assert (Hul : forall u, getNode (root s) U = Some u -> NodeUtils.isUnderline u = true).
  { intros u Hu. congruence. }
  destruct (NodeUtils.isFirstChild chordNode && NodeUtils.isLastChild (root s) next).
  { eapply removeUnderline_dissolve_contents; eassumption. }
  destruct (negb (NodeUtils.isFirstChild chordNode) && NodeUtils.isLastChild (root s) next).
  { eapply removeUnderline_shrinkTail_contents; eassumption. }
  destruct (NodeUtils.isFirstChild chordNode && negb (NodeUtils.isLastChild (root s) next)).
  { eapply removeUnderline_shrinkHead_contents; eassumption. }
  eapply removeUnderline_split_contents; [|exact H].
  eapply branches_to_leaves_are_distinct; try eassumption.
  - apply isChord_leaf. assumption.
  - apply isChord_leaf. unfold NodeUtils.isChord in *. rewrite Htm. assumption.
Qed.

(** ** The flattened leaf contents (C4) *)

(** C4: in a well-formed tree (only the root and the underlines have
    children), every successful addition of an underline (wrapping,
    extension in either direction, merge) and every successful removal of
    an underline (dissolution, shrinking at either end, split) leaves the
    sequence of the contents of the text, chord, pure chord and mark nodes
    in document order, hence their concatenation, as it was. *)
Theorem underline_operations_keep_leaf_contents (s : SheetEditorCore) (chordNode : NodeRef) :
  (0 <= count s)%Z ->
  wellFormed (root s) = true ->
  (snd (addUnderlineForChord chordNode s) = Done tt ->
   leafContents (root (fst (addUnderlineForChord chordNode s))) = leafContents (root s)
   /\ flattened (root (fst (addUnderlineForChord chordNode s))) = flattened (root s))
  /\ (snd (removeUnderlineFromChordToNext chordNode s) = Done tt ->
      leafContents (root (fst (removeUnderlineFromChordToNext chordNode s)))
      = leafContents (root s)
      /\ flattened (root (fst (removeUnderlineFromChordToNext chordNode s)))
         = flattened (root s)).
Proof.
  intros Hc Hwf.
  assert (Hflat : forall a b, leafContents a = leafContents b ->
            leafContents a = leafContents b /\ flattened a = flattened b).
  { intros a b H. split; [exact H | unfold flattened; rewrite H; reflexivity]. }
  split; intros Hdone; apply Hflat.
  - unfold addUnderlineForChord in *.
    match type of Hdone with
    | snd (runAtomOperation ?f s) = _ =>
        assert (Hst : stable f)
          by (unfold addUnderline_sameLevel, addUnderline_extendForward,
                addUnderline_extendBackward, addUnderline_merge; solve_stable);
        destruct (@runAtomOperation_done_inv unit f s tt Hst Hc Hdone) as (s2 & Hrun & Hroot)
    end.
    rewrite Hroot.
    apply (@addUnderlineForChord_body_contents (setCount (count s + 1)%Z s) s2 chordNode Hwf Hrun).
  - unfold removeUnderlineFromChordToNext in *.
    match type of Hdone with
    | snd (runAtomOperation ?f s) = _ =>
        assert (Hst : stable f)
          by (unfold removeUnderline_dissolve, removeUnderline_shrinkTail,
                removeUnderline_shrinkHead, removeUnderline_split; solve_stable);
        destruct (@runAtomOperation_done_inv unit f s tt Hst Hc Hdone) as (s2 & Hrun & Hroot)
    end.
    rewrite Hroot.
    apply (@removeUnderlineFromChordToNext_body_contents
             (setCount (count s + 1)%Z s) s2 chordNode Hwf Hrun).
Qed.

Lemma underline_operations_keep_leaf_contents_witness :
  leafContents (root (fst (addUnderlineForChord [0; 1]
     (Sample.editorOf [Sample.underlineOf [Sample.chordNode "a"; Sample.chordNode "b"];
                       Sample.textNode "x";
                       Sample.underlineOf [Sample.chordNode "c"; Sample.chordNode "d"]]))))
  = ["a"; "b"; "x"; "c"; "d"].
Proof.
  exact (proj1 (proj1 (@underline_operations_keep_leaf_contents
     (Sample.editorOf [Sample.underlineOf [Sample.chordNode "a"; Sample.chordNode "b"];
                       Sample.textNode "x";
                       Sample.underlineOf [Sample.chordNode "c"; Sample.chordNode "d"]])
     [0; 1] (Z.le_refl 0%Z) eq_refl) eq_refl)).
Defined.

(** * Further properties of the code *)

Unset Implicit Arguments.

(** ** The deferred handle *)

Lemma isDisposed_setDisposedAt h d x :
  h < List.length (handles x) -> isDisposed h (setDisposedAt h d x) = d.
Proof.
  unfold isDisposed, setDisposedAt. simpl.
  generalize (handles x). intros l. revert h.
  induction l as [|b l IH]; intros [|h] Hh; simpl in *; try lia; [reflexivity|].
  apply IH. lia.
Qed.

Lemma liftE_handles {A} (m : E A) x : handles (fst (liftE m x)) = handles x.
Proof. unfold liftE. destruct (m (editor x)). reflexivity. Qed.

Lemma handle_disposed_after h x (onEnd : E unit) :
  h < List.length (handles x) ->
  isDisposed h (fst ((modify (setDisposedAt h true) ;; liftE onEnd) x)) = true.
Proof.
  intros Hh. unfold bind, modify.
  pose proof (liftE_handles onEnd (setDisposedAt h true x)) as Hl.
  pose proof (isDisposed_setDisposedAt h true x Hh) as Hd.
  destruct (liftE onEnd (setDisposedAt h true x)) as [x1 r] eqn:Ex.
  cbn [fst] in *. unfold isDisposed in *. rewrite Hl. exact Hd.
Qed.

(** X1: the handle is one-shot: once [end()] or [fail()] has been called on a
    handle (whether its callback returned or raised), every later [end()],
    [fail()] and [run(func)] on that handle leaves the editor and the
    handles as they are; [func] is not run. *)
Theorem handle_is_one_shot (h : Handle) (x x' : EditorSession) (r : Outcome unit) :
  h < List.length (handles x) ->
  handleEnd h x = (x', r) \/ handleFail h x = (x', r) ->
  handleEnd h x' = (x', Done tt)
  /\ handleFail h x' = (x', Done tt)
  /\ (forall func, handleRun h func x' = (x', Done tt)).
Proof.
  intros Hh Hcall.
  assert (Hd : isDisposed h x' = true).
  { destruct Hcall as [H|H];
      unfold handleEnd, handleFail, AsyncAtomEditOperation.end_,
        AsyncAtomEditOperation.fail in H;
      rewrite bind_eq in H; unfold gets at 1 in H;
      destruct (isDisposed h x) eqn:Ed; simpl negb in H; cbv iota in H.
    - unfold ret in H. injection H as <- _. exact Ed.
    - pose proof (handle_disposed_after h x (editorEndOperation false) Hh) as Hd.
      assert (Heq : (modify (setDisposedAt h true) ;; liftE (editorEndOperation false)) x
                    = (x', r)) by exact H.
      rewrite Heq in Hd. exact Hd.
    - unfold ret in H. injection H as <- _. exact Ed.
    - pose proof (handle_disposed_after h x (editorEndOperation true) Hh) as Hd.
      assert (Heq : (modify (setDisposedAt h true) ;; liftE (editorEndOperation true)) x
                    = (x', r)) by exact H.
      rewrite Heq in Hd. exact Hd. }
  unfold handleEnd, handleFail, handleRun, AsyncAtomEditOperation.end_,
    AsyncAtomEditOperation.fail, AsyncAtomEditOperation.run.
  rewrite !bind_eq. unfold gets. rewrite Hd. repeat split.
Qed.

Lemma handle_is_one_shot_witness :
  handleFail 0 (fst ((h <- runAtomOperationAsync ;; handleEnd h)
                       (mkSession (Sample.editorOf [Sample.chordNode "a"]) [])))
  = (fst ((h <- runAtomOperationAsync ;; handleEnd h)
            (mkSession (Sample.editorOf [Sample.chordNode "a"]) [])),
     Done tt).
Proof.
  exact (proj1 (proj2 (handle_is_one_shot 0
    (fst (runAtomOperationAsync (mkSession (Sample.editorOf [Sample.chordNode "a"]) [])))
    (fst ((h <- runAtomOperationAsync ;; handleEnd h)
            (mkSession (Sample.editorOf [Sample.chordNode "a"]) [])))
    (Done tt) (Nat.lt_0_succ 0) (or_introl eq_refl)))).
Defined.

Lemma deferred_as_run (f : E unit) (s : SheetEditorCore) (hs : list bool) :
  (h <- runAtomOperationAsync ;; handleRun h (liftE f) ;; handleEnd h) (mkSession s hs)
  = (mkSession (fst (runAtomOperation f s)) (hs ++ [true]), snd (runAtomOperation f s)).
Proof.
  assert (Hn : nth (List.length hs) (hs ++ [false]) true = false).
  { rewrite app_nth2, Nat.sub_diag by lia. reflexivity. }
  assert (Hm : modifyNth (List.length hs) (fun _ => true) (hs ++ [false]) = hs ++ [true]).
  { clear. induction hs as [|b l IH]; simpl; [reflexivity | rewrite IH; reflexivity]. }
  unfold runAtomOperation, AtomEditOperation.run, AtomEditOperation.beginOperation.
  unfold runAtomOperationAsync, handleRun, handleEnd, AsyncAtomEditOperation.run,
    AsyncAtomEditOperation.end_, AsyncAtomEditOperation.fail, editorEndOperation,
    AtomEditOperation.beginOperation, liftE, isDisposed, setDisposedAt,
    bind, gets, modify, ret.
  cbn [editor handles fst snd].
  rewrite Hn.
  destruct (f (setCount (count s + 1)%Z s)) as [s2 [[]|e]] eqn:Ef;
    cbn [editor handles fst snd Eff.failed]; rewrite Hn; cbn [negb editor handles];
    rewrite Hm.
  - destruct (AtomEditOperation.endOperation count setCount addHistory retoreNewestHistory
                false s2) as [s3 [[]|e']]; reflexivity.
  - destruct (AtomEditOperation.endOperation count setCount addHistory retoreNewestHistory
                true s2) as [s3 [[]|e']]; reflexivity.
Qed.

(** X2: a deferred operation whose work is done through [handle.run] and that
    is closed by [handle.end()] leaves the editor exactly as the
    synchronous [runAtomOperation] of the same work does, with the same
    outcome: one commit on success, a rollback and the failure of the work
    otherwise; the handle is disposed in both cases. *)
Theorem deferred_operation_behaves_as_run (f : E unit) (x : EditorSession) :
  (h <- runAtomOperationAsync ;; handleRun h (liftE f) ;; handleEnd h) x
  = (mkSession (fst (runAtomOperation f (editor x))) (handles x ++ [true]),
     snd (runAtomOperation f (editor x))).
Proof. destruct x as [s hs]. apply deferred_as_run. Qed.

Lemma stable_runAll fs : Forall stable fs -> stable (runAll fs).
Proof.
  induction 1 as [|f fs Hf _ IH]; simpl; [apply stable_ret|].
  apply stable_bind; [apply stable_runAtomOperation; exact Hf | intros _; exact IH].
Qed.

(** The counter of an atom operation whose action returns it as it got it:
    the operation ends with the commit (outermost, success), with nothing
    (nested, success) or with the rollback (failure). *)
Lemma runAtomOperation_balanced {A} (f : E A) (s s2 : SheetEditorCore) (r : Outcome A) :
  (0 <= count s)%Z ->
  f (setCount (count s + 1)%Z s) = (s2, r) ->
  count s2 = (count s + 1)%Z ->
  runAtomOperation f s
  = match r with
    | Done a => (if (count s =? 0)%Z then committedNow (setCount (count s) s2)
                 else setCount (count s) s2, Done a)
    | Raised e => (rolledBack (setCount (count s) s2), Raised e)
    end.
Proof.
  intros Hc Hf Hcnt.
  unfold runAtomOperation, AtomEditOperation.run, AtomEditOperation.beginOperation, modify.
  rewrite Hf.
  unfold AtomEditOperation.endOperation, bind, modify, gets, assert.
  cbn [count setCount].
  rewrite Hcnt.
  replace (count s + 1 - 1)%Z with (count s) by lia.
  assert (H1 : (0 <=? count s)%Z = true) by (apply Z.leb_le; lia).
  rewrite H1.
  destruct r as [a|e]; destruct (count s =? 0)%Z; reflexivity.
Qed.

(** X3: closing the handle of a deferred operation pushes exactly one snapshot:
    when the commands run through the handle, each one an atom operation,
    have all succeeded and the nesting counter is back at one, [end()]
    succeeds, leaves the tree as the commands left it and adds its snapshot
    to the history that they left.  When the actions of these commands
    leave the history and the counter as they found them, that history is
    the one from before the deferred operation: the commands together make
    one undo step. *)
Theorem deferred_operation_groups_commands
    (fs : list (E unit)) (x : EditorSession) (s2 : SheetEditorCore) :
  count (editor x) = 0%Z ->
  runAll fs (setCount 1%Z (editor x)) = (s2, Done tt) ->
  count s2 = 1%Z ->
  snd ((h <- runAtomOperationAsync ;; handleRun h (liftE (runAll fs)) ;; handleEnd h) x)
  = Done tt
  /\ root (editor (fst ((h <- runAtomOperationAsync ;;
                         handleRun h (liftE (runAll fs)) ;; handleEnd h) x)))
     = root s2
  /\ history (editor (fst ((h <- runAtomOperationAsync ;;
                            handleRun h (liftE (runAll fs)) ;; handleEnd h) x)))
     = History.add (clone (root s2)) (history s2)
  /\ (Forall stable fs ->
      history (editor (fst ((h <- runAtomOperationAsync ;;
                             handleRun h (liftE (runAll fs)) ;; handleEnd h) x)))
      = History.add (clone (root s2)) (history (editor x))).
Proof.
  intros Hc Hrun Hcnt. destruct x as [s hs]. cbn [editor] in *.
  rewrite deferred_as_run. cbn [fst snd editor].
  assert (Hrun' : runAll fs (setCount (count s + 1)%Z s) = (s2, Done tt))
    by (rewrite Hc; exact Hrun).
  rewrite (runAtomOperation_balanced (runAll fs) s s2 (Done tt)
             ltac:(lia) Hrun' ltac:(lia)).
  rewrite Hc. cbn [Z.eqb fst snd]. repeat split.
  intros Hfs.
  destruct (stable_runAll fs Hfs (setCount 1%Z s)) as [Hh _]; [simpl; lia|].
  rewrite Hrun in Hh. cbn [fst] in Hh.
  unfold committedNow. simpl. rewrite Hh. reflexivity.
Qed.

Lemma deferred_operation_groups_commands_witness :
  history (editor (fst ((h <- runAtomOperationAsync ;;
       handleRun h (liftE (runAll [insertAfter [0] [Sample.textNode "b"];
                                   insertAfter [0] [Sample.textNode "a"]])) ;;
       handleEnd h) (mkSession (Sample.editorOf [Sample.chordNode "c"]) []))))
  = History.add
      (Sample.rootOf [Sample.chordNode "c"; Sample.textNode "a"; Sample.textNode "b"])
      (history (Sample.editorOf [Sample.chordNode "c"]))
  /\ History.size (history (editor (fst ((h <- runAtomOperationAsync ;;
       handleRun h (liftE (runAll [clearSheet])) ;;
       handleEnd h) (mkSession (Sample.editorOf [Sample.chordNode "c"]) []))))) = 3.
Proof.
  split.
  - exact (proj2 (proj2 (proj2 (deferred_operation_groups_commands
      [insertAfter [0] [Sample.textNode "b"]; insertAfter [0] [Sample.textNode "a"]]
      (mkSession (Sample.editorOf [Sample.chordNode "c"]) []) _
      eq_refl eq_refl eq_refl)))
      (Forall_cons _ (stable_insertAfter [0] [Sample.textNode "b"])
         (Forall_cons _ (stable_insertAfter [0] [Sample.textNode "a"]) (Forall_nil _)))).
  - rewrite (proj1 (proj2 (proj2 (deferred_operation_groups_commands
      [clearSheet] (mkSession (Sample.editorOf [Sample.chordNode "c"]) []) _
      eq_refl eq_refl eq_refl)))).
    reflexivity.
Defined.

(** X4: cancellation: when the work of a deferred operation has succeeded with
    the nesting counter back at one and the handle is closed by [fail()],
    nothing is raised, the content of the document is that of the newest
    snapshot again, [fail()] leaves the history as the work left it and
    the operation is over. *)
Theorem cancelled_deferred_operation_is_rolled_back
    (f : E unit) (x : EditorSession) (s2 : SheetEditorCore) :
  count (editor x) = 0%Z ->
  f (setCount 1%Z (editor x)) = (s2, Done tt) ->
  count s2 = 1%Z ->
  snd ((h <- runAtomOperationAsync ;; liftE f ;; handleFail h) x) = Done tt
  /\ children (root (editor (fst ((h <- runAtomOperationAsync ;; liftE f ;; handleFail h) x))))
     = children (History.getCurrent (history s2))
  /\ history (editor (fst ((h <- runAtomOperationAsync ;; liftE f ;; handleFail h) x)))
     = history s2
  /\ count (editor (fst ((h <- runAtomOperationAsync ;; liftE f ;; handleFail h) x))) = 0%Z.
Proof.
  intros Hc Hrun Hcnt. destruct x as [s hs]. cbn [editor] in *.
  assert (Hn : nth (List.length hs) (hs ++ [false]) true = false).
  { rewrite app_nth2, Nat.sub_diag by lia. reflexivity. }
  unfold runAtomOperationAsync, handleFail, AsyncAtomEditOperation.fail, editorEndOperation,
    AtomEditOperation.beginOperation, liftE, isDisposed, setDisposedAt,
    bind, gets, modify, ret.
  cbn [editor handles fst snd]. rewrite Hc. change (0 + 1)%Z with 1%Z.
  rewrite Hrun.
  cbn [fst snd editor handles] in *. rewrite Hn. cbn [negb editor handles].
  unfold AtomEditOperation.endOperation, bind, modify, gets, assert.
  cbn [count setCount]. rewrite Hcnt. simpl. repeat split.
Qed.

Lemma cancelled_deferred_operation_is_rolled_back_witness :
  children (root (editor (fst ((h <- runAtomOperationAsync ;;
       liftE (insertAfter [0] [Sample.textNode "a"]) ;; handleFail h)
       (mkSession (Sample.editorOf [Sample.chordNode "c"]) [])))))
  = [Sample.chordNode "c"]
  /\ children (root (editor (fst ((h <- runAtomOperationAsync ;;
       liftE clearSheet ;; handleFail h)
       (mkSession (Sample.editorOf [Sample.chordNode "c"]) [])))))
     = [].
Proof.
  split.
  - exact (proj1 (proj2 (cancelled_deferred_operation_is_rolled_back
      (insertAfter [0] [Sample.textNode "a"])
      (mkSession (Sample.editorOf [Sample.chordNode "c"]) []) _
      eq_refl eq_refl eq_refl))).
  - exact (proj1 (proj2 (cancelled_deferred_operation_is_rolled_back
      clearSheet
      (mkSession (Sample.editorOf [Sample.chordNode "c"]) []) _
      eq_refl eq_refl eq_refl))).
Defined.

(** ** Nested atom operations *)

(** X5: an atom operation that runs inside an open one adds no snapshot of its
    own: when its action returns the nesting counter as it got it, the
    operation has the outcome of its action, leaves the history as its
    action left it and the counter as it found it; on success the tree is
    the one its action left, and on failure the content of the document is
    that of the newest snapshot: the changes made so far by the enclosing
    operation are taken back with its own. *)
Theorem nested_operation_never_commits
    (A : Type) (f : E A) (s s2 : SheetEditorCore) (r : Outcome A) :
  (0 < count s)%Z ->
  f (setCount (count s + 1)%Z s) = (s2, r) ->
  count s2 = (count s + 1)%Z ->
  snd (runAtomOperation f s) = r
  /\ history (fst (runAtomOperation f s)) = history s2
  /\ count (fst (runAtomOperation f s)) = count s
  /\ match r with
     | Done _ => root (fst (runAtomOperation f s)) = root s2
     | Raised _ => children (root (fst (runAtomOperation f s)))
                   = children (History.getCurrent (history s2))
     end.
Proof.
  intros Hc Hf Hcnt.
  rewrite (runAtomOperation_balanced f s s2 r ltac:(lia) Hf Hcnt).
  assert (H2 : (count s =? 0)%Z = false) by (apply Z.eqb_neq; lia).
  rewrite H2. destruct r as [a|e]; repeat split.
Qed.

Lemma nested_operation_never_commits_witness :
  (history (fst (runAtomOperation (updateContent [0] "")
                  (setCount 1%Z (fst (insertAfter [0] [Sample.textNode "a"]
                                        (setCount 1%Z (Sample.editorOf [Sample.chordNode "c"])))))))
   = history (Sample.editorOf [Sample.chordNode "c"])
   /\ children (root (fst (runAtomOperation (updateContent [0] "")
                  (setCount 1%Z (fst (insertAfter [0] [Sample.textNode "a"]
                                        (setCount 1%Z (Sample.editorOf [Sample.chordNode "c"]))))))))
      = [Sample.chordNode "c"])
  /\ History.size (history (fst (runAtomOperation clearSheet
                     (setCount 1%Z (Sample.editorOf [Sample.chordNode "c"]))))) = 2.
Proof.
  split.
  - pose proof (nested_operation_never_commits unit (updateContent [0] "")
      (setCount 1%Z (fst (insertAfter [0] [Sample.textNode "a"]
                            (setCount 1%Z (Sample.editorOf [Sample.chordNode "c"])))))
      _ _ eq_refl eq_refl eq_refl) as (_ & H1 & _ & H3).
    split; [rewrite H1; reflexivity | rewrite H3; reflexivity].
  - rewrite (proj1 (proj2 (nested_operation_never_commits unit clearSheet
      (setCount 1%Z (Sample.editorOf [Sample.chordNode "c"]))
      _ _ eq_refl eq_refl eq_refl))).
    reflexivity.
Defined.

(** ** Commands that bypass the coordinator *)

(** X6: [clearSheet] pushes its snapshot itself, also inside an open
    operation: when the operation fails afterwards, the rollback restores
    the cleared sheet, not the document from before the operation. *)
Theorem clearSheet_is_not_rolled_back (s : SheetEditorCore) (e : string) :
  (0 <= count s)%Z ->
  snd (runAtomOperation (clearSheet ;; raise (A := unit) e) s) = Raised e
  /\ children (root (fst (runAtomOperation (clearSheet ;; raise (A := unit) e) s))) = []
  /\ history (fst (runAtomOperation (clearSheet ;; raise (A := unit) e) s))
     = History.add (setChildren [] (root s)) (history s).
Proof.
  intros Hc.
  unfold runAtomOperation, AtomEditOperation.run, AtomEditOperation.beginOperation,
    AtomEditOperation.endOperation, clearSheet, addHistory, getToHistory,
    retoreNewestHistory, setFromHistory, __replaceSheet, modifyRoot, clone,
    bind, modify, gets, raise, ret.
  cbn [count setCount setRoot setHistory root history fst snd Eff.failed].
  replace (count s + 1 - 1)%Z with (count s) by lia.
  assert (H1 : (0 <=? count s)%Z = true) by (apply Z.leb_le; lia).
  rewrite H1. cbn [assert ret]. rewrite andb_false_r.
  cbn [fst snd root history setRoot setHistory setCount]. repeat split.
Qed.

Lemma clearSheet_is_not_rolled_back_witness :
  children (root (fst (runAtomOperation (clearSheet ;; raise (A := unit) "stop")
                         (Sample.editorOf [Sample.chordNode "c"])))) = [].
Proof.
  exact (proj1 (proj2 (clearSheet_is_not_rolled_back
                         (Sample.editorOf [Sample.chordNode "c"]) "stop" (Z.le_refl 0%Z)))).
Defined.

(** ** Undo and redo, continued *)

Lemma goNext_goPrev {T} (h : History.t T) :
  History.hasPrev h = true -> History.goNext (History.goPrev h) = h.
Proof. destruct h as [m [|p ps] c n]; [discriminate | reflexivity]. Qed.

Lemma goPrev_goNext {T} (h : History.t T) :
  History.hasNext h = true -> History.goPrev (History.goNext h) = h.
Proof. destruct h as [m ps c [|n ns]]; [discriminate | reflexivity]. Qed.

Lemma restore_committed s :
  committed s ->
  setRoot (setChildren (children (History.current (history s))) (root s)) s = s.
Proof.
  unfold committed, History.getCurrent. intros <-.
  destruct s as [m [t c d cs] h k]. reflexivity.
Qed.

Lemma undo_fails s :
  History.hasPrev (history s) = false -> undo s = (s, Raised "no more histroy for undo").
Proof. intros H. unfold undo, canUndo, bind, gets. rewrite H. reflexivity. Qed.

Lemma redo_fails s :
  History.hasNext (history s) = false -> redo s = (s, Raised "no more histroy for redo").
Proof. intros H. unfold redo, canRedo, bind, gets. rewrite H. reflexivity. Qed.

(** X7: without an earlier snapshot [undo] fails its assertion, without a later
    one [redo] does, and both leave the editor exactly as it is. *)
Theorem undo_and_redo_fail_at_the_ends_of_the_history (s : SheetEditorCore) :
  (History.hasPrev (history s) = false -> undo s = (s, Raised "no more histroy for undo"))
  /\ (History.hasNext (history s) = false -> redo s = (s, Raised "no more histroy for redo")).
Proof.
  split; [apply undo_fails | apply redo_fails].
Qed.

Lemma undo_and_redo_fail_at_the_ends_of_the_history_witness :
  undo (Sample.editorOf [Sample.chordNode "c"])
  = (Sample.editorOf [Sample.chordNode "c"], Raised "no more histroy for undo")
  /\ redo (Sample.editorOf [Sample.chordNode "c"])
     = (Sample.editorOf [Sample.chordNode "c"], Raised "no more histroy for redo").
Proof.
  split.
  - exact (proj1 (undo_and_redo_fail_at_the_ends_of_the_history
                    (Sample.editorOf [Sample.chordNode "c"])) eq_refl).
  - exact (proj2 (undo_and_redo_fail_at_the_ends_of_the_history
                    (Sample.editorOf [Sample.chordNode "c"])) eq_refl).
Defined.

(** X8: in a committed state [undo] followed by [redo], and [redo] followed by
    [undo], give back the very same editor: the tree, the history with its
    cursor, the metadata and the counter. *)
Theorem undo_and_redo_are_inverse (s : SheetEditorCore) :
  committed s ->
  (History.hasPrev (history s) = true -> (undo ;; redo) s = (s, Done tt))
  /\ (History.hasNext (history s) = true -> (redo ;; undo) s = (s, Done tt)).
Proof.
  intros Hcom. split; intros H.
  - rewrite bind_eq, (undo_ok s H).
    set (s1 := setRoot _ _).
    assert (Hn : History.hasNext (history s1) = true).
    { unfold s1. simpl. destruct (history s) as [m [|p ps] c n]; [discriminate | reflexivity]. }
    rewrite (redo_ok s1 Hn). unfold s1. cbn [history setRoot setHistory root].
    rewrite (goNext_goPrev (history s) H). f_equal.
    transitivity (setRoot (setChildren (children (History.current (history s))) (root s)) s).
    + destruct s as [m r h k]. reflexivity.
    + apply restore_committed. exact Hcom.
  - rewrite bind_eq, (redo_ok s H).
    set (s1 := setRoot _ _).
    assert (Hn : History.hasPrev (history s1) = true).
    { unfold s1. simpl. destruct (history s) as [m ps c [|n ns]]; [discriminate | reflexivity]. }
    rewrite (undo_ok s1 Hn). unfold s1. cbn [history setRoot setHistory root].
    rewrite (goPrev_goNext (history s) H). f_equal.
    transitivity (setRoot (setChildren (children (History.current (history s))) (root s)) s).
    + destruct s as [m r h k]. reflexivity.
    + apply restore_committed. exact Hcom.
Qed.

Lemma undo_and_redo_are_inverse_witness :
  (undo ;; redo) (fst (insertAfter [0] [Sample.textNode "a"]
                         (Sample.editorOf [Sample.chordNode "c"])))
  = (fst (insertAfter [0] [Sample.textNode "a"] (Sample.editorOf [Sample.chordNode "c"])),
     Done tt)
  /\ (redo ;; undo) (fst (undo (fst (insertAfter [0] [Sample.textNode "a"]
                                       (Sample.editorOf [Sample.chordNode "c"])))))
     = (fst (undo (fst (insertAfter [0] [Sample.textNode "a"]
                          (Sample.editorOf [Sample.chordNode "c"])))),
        Done tt).
Proof.
  split.
  - exact (proj1 (undo_and_redo_are_inverse
      (fst (insertAfter [0] [Sample.textNode "a"] (Sample.editorOf [Sample.chordNode "c"])))
      eq_refl) eq_refl).
  - exact (proj2 (undo_and_redo_are_inverse
      (fst (undo (fst (insertAfter [0] [Sample.textNode "a"]
                         (Sample.editorOf [Sample.chordNode "c"])))))
      eq_refl) eq_refl).
Defined.

(** X9: every command that moves or rewrites the history leaves the editor in a
    committed state when it returns: the content of the document is the
    snapshot at the cursor. *)
Theorem history_commands_leave_the_editor_committed
    (c : E unit) (s s' : SheetEditorCore) :
  c = undo \/ c = redo \/ c = clearSheet
  \/ (exists newRoot doClone clearHist, c = replaceSheet newRoot doClone clearHist) ->
  c s = (s', Done tt) -> committed s'.
Proof.
  intros [-> | [-> | [-> | (newRoot & doClone & clearHist & ->)]]] H.
  - destruct (History.hasPrev (history s)) eqn:Hp.
    + rewrite (undo_ok s Hp) in H. injection H as <-. reflexivity.
    + rewrite (undo_fails s Hp) in H. discriminate H.
  - destruct (History.hasNext (history s)) eqn:Hp.
    + rewrite (redo_ok s Hp) in H. injection H as <-. reflexivity.
    + rewrite (redo_fails s Hp) in H. discriminate H.
  - unfold clearSheet, addHistory, getToHistory, modifyRoot, bind, modify, gets in H.
    injection H as <-. reflexivity.
  - unfold replaceSheet, __replaceSheet, clearHistory, addHistory, getToHistory,
      modifyRoot, bind, modify, gets in H.
    destruct clearHist, doClone; injection H as <-; reflexivity.
Qed.

Lemma history_commands_leave_the_editor_committed_witness :
  committed (fst (replaceSheet (Sample.rootOf [Sample.textNode "x"]) true false
                    (Sample.shifted))).
Proof.
  exact (history_commands_leave_the_editor_committed
    (replaceSheet (Sample.rootOf [Sample.textNode "x"]) true false)
    Sample.shifted _
    (or_intror (or_intror (or_intror
       (ex_intro _ _ (ex_intro _ true (ex_intro _ false eq_refl))))))
    eq_refl).
Defined.

(** X10: an atom operation called outside any other one, whose action returns
    the nesting counter as it got it, ends in a committed state whether it
    succeeds or fails, also when the document was not committed before and
    whatever its action did to the tree and to the history. *)
Theorem operation_ends_committed (A : Type) (f : E A) (s : SheetEditorCore) :
  count s = 0%Z ->
  count (fst (f (setCount 1%Z s))) = 1%Z ->
  committed (fst (runAtomOperation f s)).
Proof.
  intros Hc Hcnt.
  destruct (f (setCount 1%Z s)) as [s2 r] eqn:Ef. cbn [fst] in Hcnt.
  assert (Hf : f (setCount (count s + 1)%Z s) = (s2, r)) by (rewrite Hc; exact Ef).
  rewrite (runAtomOperation_balanced f s s2 r ltac:(lia) Hf ltac:(lia)).
  rewrite Hc. destruct r as [a|e]; reflexivity.
Qed.

Lemma operation_ends_committed_witness :
  committed (fst (runAtomOperation (updateContent [0] "xy") Sample.shifted))
  /\ committed (fst (runAtomOperation (clearSheet ;; undo) Sample.shifted))
  /\ committed (fst (runAtomOperation (clearSheet ;; raise (A := unit) "stop")
                       Sample.shifted)).
Proof.
  split; [|split].
  - exact (operation_ends_committed unit (updateContent [0] "xy") Sample.shifted
             eq_refl eq_refl).
  - exact (operation_ends_committed unit (clearSheet ;; undo) Sample.shifted
             eq_refl eq_refl).
  - exact (operation_ends_committed unit (clearSheet ;; raise (A := unit) "stop")
             Sample.shifted eq_refl eq_refl).
Defined.

(** X11: the replacement of the sheet with [clearHistory] cannot be undone: the
    document has the children of the new sheet and both [undo] and [redo]
    fail afterwards. *)
Theorem replaceSheet_clearing_the_history_cannot_be_undone
    (newRoot : SheetNode) (doClone : bool) (s : SheetEditorCore) :
  snd (replaceSheet newRoot doClone true s) = Done tt
  /\ children (root (fst (replaceSheet newRoot doClone true s))) = children newRoot
  /\ snd (undo (fst (replaceSheet newRoot doClone true s)))
     = Raised "no more histroy for undo"
  /\ snd (redo (fst (replaceSheet newRoot doClone true s)))
     = Raised "no more histroy for redo".
Proof. destruct doClone; repeat split. Qed.

(** X12: without [clearHistory] the replacement of the sheet, like
    [clearSheet], is one undo step: in a committed state with room for a
    second snapshot, [undo] right after it gives back the children the
    document had. *)
Theorem replaceSheet_and_clearSheet_can_be_undone (s : SheetEditorCore) :
  committed s -> 1 < History.maxSize (history s) ->
  (forall newRoot doClone,
     snd ((replaceSheet newRoot doClone false ;; undo) s) = Done tt
     /\ children (root (fst ((replaceSheet newRoot doClone false ;; undo) s)))
        = children (root s))
  /\ snd ((clearSheet ;; undo) s) = Done tt
  /\ children (root (fst ((clearSheet ;; undo) s))) = children (root s).
Proof.
  intros Hcom Hmax.
  unfold committed, History.getCurrent in Hcom.
  assert (Hundo : forall s1,
            history s1 = History.add (clone (root s1)) (history s) ->
            snd (undo s1) = Done tt
            /\ children (root (fst (undo s1))) = children (root s)).
  { intros s1 Hh.
    assert (Hp : History.hasPrev (history s1) = true).
    { rewrite Hh. unfold History.hasPrev, History.add. cbn [History.prev History.maxSize].
      destruct (History.maxSize (history s)) as [|[|m]]; try lia. reflexivity. }
    rewrite (undo_ok s1 Hp). cbn [fst snd root setRoot]. split; [reflexivity|].
    rewrite children_setChildren, Hh, Hcom.
    unfold History.goPrev, History.add. cbn [History.prev History.maxSize History.current].
    destruct (History.maxSize (history s)) as [|[|m]]; try lia. reflexivity. }
  split; [intros newRoot doClone | ].
  - rewrite bind_eq.
    assert (Hr : exists s1, replaceSheet newRoot doClone false s = (s1, Done tt)
                   /\ history s1 = History.add (clone (root s1)) (history s)).
    { eexists. split; [destruct doClone; reflexivity|]. destruct doClone; reflexivity. }
    destruct Hr as (s1 & -> & Hh). apply Hundo. exact Hh.
  - rewrite bind_eq.
    assert (Hr : exists s1, clearSheet s = (s1, Done tt)
                   /\ history s1 = History.add (clone (root s1)) (history s)).
    { eexists. split; reflexivity. }
    destruct Hr as (s1 & -> & Hh). apply Hundo. exact Hh.
Qed.

Lemma replaceSheet_and_clearSheet_can_be_undone_witness :
  children (root (fst ((replaceSheet (Sample.rootOf [Sample.textNode "x"]) true false ;; undo)
                         (Sample.editorOf [Sample.chordNode "c"]))))
  = [Sample.chordNode "c"]
  /\ children (root (fst ((clearSheet ;; undo) (Sample.editorOf [Sample.chordNode "c"]))))
     = [Sample.chordNode "c"].
Proof.
  pose proof (replaceSheet_and_clearSheet_can_be_undone
    (Sample.editorOf [Sample.chordNode "c"]) eq_refl
    (proj1 (Nat.ltb_lt 1 100) eq_refl)) as [H1 [_ H2]].
  split; [exact (proj2 (H1 (Sample.rootOf [Sample.textNode "x"]) true)) | exact H2].
Defined.

(** ** Rejected commands *)

(** A command whose action raises before it has changed anything, called
    outside any other operation in a committed state, leaves the editor
    exactly as it was. *)
Lemma runAtomOperation_rejected {A} (f : E A) s e :
  stable f -> count s = 0%Z -> committed s ->
  f (setCount 1%Z s) = (setCount 1%Z s, Raised e) ->
  runAtomOperation f s = (s, Raised e).
Proof.
  intros Hf Hc Hcom Hrun.
  rewrite runAtomOperation_outer by assumption. rewrite Hrun.
  f_equal. unfold committed, History.getCurrent in Hcom.
  destruct s as [m [t c d cs] h k]. simpl in Hc, Hcom. subst k cs. reflexivity.
Qed.

Lemma type_not_in_inv (t : ENodeType.t) (l : list ENodeType.t) :
  ~ In t l -> existsb (ENodeType.eqb t) l = false.
Proof.
  intros H. apply not_true_is_false. intros Hex.
  apply existsb_exists in Hex. destruct Hex as (x & Hin & Heq).
  apply ENodeType_eqb_eq in Heq. subst x. exact (H Hin).
Qed.

Lemma updateContent_rejected
    (s : SheetEditorCore) (node : NodeRef) (n : SheetNode) (newContent : string) :
  count s = 0%Z -> committed s ->
  getNode (root s) node = Some n ->
  ~ In (type n) [ENodeType.Text; ENodeType.Chord; ENodeType.Mark] ->
  updateContent node newContent s = (s, Raised "cannot edit the content of this node").
Proof.
  intros Hc Hcom Hn Hty.
  unfold updateContent.
  apply runAtomOperation_rejected; [solve_stable | assumption | assumption |].
  rewrite bind_eq, (@deref_ok (setCount 1%Z s) node n) by exact Hn.
  rewrite bind_eq, (type_not_in_inv _ _ Hty). reflexivity.
Qed.

Lemma updateContent_mark
    (s : SheetEditorCore) (node : NodeRef) (n : SheetNode) (newContent : string) :
  (0 <= count s)%Z ->
  getNode (root s) node = Some n ->
  type n = ENodeType.Mark ->
  newContent <> "" ->
  snd (updateContent node newContent s) = Done tt
  /\ root (fst (updateContent node newContent s))
     = modifyNode node (setContent newContent) (root s).
Proof.
  intros Hc Hn Hty Hne.
  unfold updateContent.
  match goal with
  | |- snd (runAtomOperation ?f s) = _ /\ _ =>
      assert (Hst : stable f) by solve_stable;
      apply (@runAtomOperation_done unit f s
               (setRoot (modifyNode node (setContent newContent) (root s))
                        (setCount (count s + 1)%Z s)) tt Hst Hc)
  end.
  rewrite bind_eq, (@deref_ok (setCount (count s + 1)%Z s) node n) by exact Hn.
  rewrite Hty. cbn [existsb ENodeType.eqb orb].
  destruct newContent as [|c rest]; [contradiction Hne; reflexivity|].
  reflexivity.
Qed.

(** X13: [updateContent] outside texts and annotated chords.  The content of a
    mark is replaced as a whole: no character is split off and no node is
    inserted.  Every other node, a pure chord included, is rejected: the
    command raises and leaves the editor exactly as it was. *)
Theorem updateContent_of_marks_and_other_nodes
    (s : SheetEditorCore) (node : NodeRef) (n : SheetNode) (newContent : string) :
  getNode (root s) node = Some n ->
  (type n = ENodeType.Mark -> (0 <= count s)%Z -> newContent <> "" ->
   snd (updateContent node newContent s) = Done tt
   /\ root (fst (updateContent node newContent s))
      = modifyNode node (setContent newContent) (root s))
  /\ (~ In (type n) [ENodeType.Text; ENodeType.Chord; ENodeType.Mark] ->
      count s = 0%Z -> committed s ->
      updateContent node newContent s
      = (s, Raised "cannot edit the content of this node")).
Proof.
  intros Hn. split.
  - intros Hty Hc Hne. exact (updateContent_mark s node n newContent Hc Hn Hty Hne).
  - intros Hty Hc Hcom. exact (updateContent_rejected s node n newContent Hc Hcom Hn Hty).
Qed.

Lemma updateContent_of_marks_and_other_nodes_witness :
  children (root (fst (updateContent [0] "verse"
                         (Sample.editorOf [NodeUtils.createMarkNode "intro"]))))
  = [NodeUtils.createMarkNode "verse"]
  /\ updateContent [0] "x" (Sample.editorOf [Sample.pureNode "a"])
     = (Sample.editorOf [Sample.pureNode "a"], Raised "cannot edit the content of this node").
Proof.
  split.
  - exact (f_equal children (proj2 (proj1 (updateContent_of_marks_and_other_nodes
      (Sample.editorOf [NodeUtils.createMarkNode "intro"]) [0]
      (NodeUtils.createMarkNode "intro") "verse" eq_refl) eq_refl (Z.le_refl 0%Z)
      (fun H => eq_ind "verse" (fun x => match x with EmptyString => False | _ => True end)
                  I "" H)))).
  - apply (proj2 (updateContent_of_marks_and_other_nodes
      (Sample.editorOf [Sample.pureNode "a"]) [0] (Sample.pureNode "a") "x" eq_refl));
      try reflexivity.
    simpl. intros [H|[H|[H|[]]]]; discriminate H.
Defined.

(** ** Conversion to a chord *)

Lemma replaceAt_one (cs : list SheetNode) (u : nat) (x c : SheetNode) :
  nth_error cs u = Some x -> replaceAt u [c] cs = modifyNth u (fun _ => c) cs.
Proof.
  intros H. rewrite modifyNth_spec with (x := x) by exact H. reflexivity.
Qed.

Lemma replace_at_reference (root : SheetNode) (p : NodeRef) (i : nat) (n c : SheetNode) :
  getNode root (p ++ [i]) = Some n ->
  modifyChildren p (replaceAt i [c]) root = modifyNode (p ++ [i]) (fun _ => c) root.
Proof.
  intros Hn. rewrite modifyNode_snoc.
  destruct (getNode_prefix p [i] root Hn) as (par & Hpar & Hi).
  simpl in Hi. destruct (nth_error (children par) i) as [x|] eqn:Ex; [|discriminate Hi].
  apply modifyChildren_ext_at with (n := par); [exact Hpar|].
  apply replaceAt_one with (x := x). exact Ex.
Qed.

(** X14: the conversion of a text gives, in the place of the text, a new
    annotated chord with the content of the text and the chord data of the
    caller, and returns it; nothing else changes in the tree, and the leaf
    contents are those of before when the text is a leaf. *)
Theorem convertToChord_of_a_text
    (s : SheetEditorCore) (par : NodeRef) (i : nat) (n : SheetNode) (d : ChordData) :
  (0 <= count s)%Z ->
  getNode (root s) (par ++ [i]) = Some n ->
  type n = ENodeType.Text ->
  snd (convertToChord (par ++ [i]) d s) = Done (par ++ [i])
  /\ root (fst (convertToChord (par ++ [i]) d s))
     = modifyNode (par ++ [i]) (fun _ => NodeUtils.createChordNode (content n) d) (root s)
  /\ (children n = [] ->
      leafContents (root (fst (convertToChord (par ++ [i]) d s))) = leafContents (root s)).
Proof.
  intros Hc Hn Hty.
  assert (Hrun : snd (convertToChord (par ++ [i]) d s) = Done (par ++ [i])
    /\ root (fst (convertToChord (par ++ [i]) d s))
       = modifyNode (par ++ [i]) (fun _ => NodeUtils.createChordNode (content n) d) (root s)).
  { unfold convertToChord.
    match goal with
    | |- snd (runAtomOperation ?f s) = _ /\ _ =>
        assert (Hst : stable f) by solve_stable;
        destruct (@runAtomOperation_done NodeRef f s
                 (setRoot (modifyChildren par
                             (replaceAt i [NodeUtils.createChordNode (content n) d]) (root s))
                          (setCount (count s + 1)%Z s)) (par ++ [i]) Hst Hc) as [H1 H2]
    end.
    { rewrite bind_eq, (@deref_ok (setCount (count s + 1)%Z s) (par ++ [i]) n) by exact Hn.
      unfold NodeUtils.isChord. rewrite Hty. cbn [ENodeType.eqb].
      rewrite bind_eq, parentOf_ok, getSelfIndex_snoc. reflexivity. }
    split; [exact H1|]. rewrite H2. cbn [root setRoot].
    apply replace_at_reference with (n := n). exact Hn. }
  destruct Hrun as [H1 H2]. split; [exact H1 | split; [exact H2|]].
  intros Hleaf. rewrite H2.
  apply leafContents_modifyNode with (n := n); [exact Hn|].
  destruct n as [t c dn cs]. simpl in Hty, Hleaf. subst t cs. reflexivity.
Qed.

Lemma convertToChord_of_a_text_witness :
  children (root (fst (convertToChord [1] 7%Z
                         (Sample.editorOf [Sample.chordNode "c"; Sample.textNode "a"]))))
  = [Sample.chordNode "c"; mkNode ENodeType.Chord "a" (Some 7%Z) []].
Proof.
  exact (f_equal children (proj1 (proj2 (convertToChord_of_a_text
    (Sample.editorOf [Sample.chordNode "c"; Sample.textNode "a"]) [] 1
    (Sample.textNode "a") 7%Z (Z.le_refl 0%Z) eq_refl eq_refl)))).
Defined.

(** X15: the conversion of a node that is a chord already only replaces its
    chord data: the chord keeps its purity, its content and its place. *)
Theorem convertToChord_of_a_chord
    (s : SheetEditorCore) (node : NodeRef) (n : SheetNode) (d : ChordData) :
  (0 <= count s)%Z ->
  getNode (root s) node = Some n ->
  NodeUtils.isChord n = true ->
  snd (convertToChord node d s) = Done node
  /\ root (fst (convertToChord node d s)) = modifyNode node (setChord (Some d)) (root s)
  /\ getNode (root (fst (convertToChord node d s))) node
     = Some (mkNode (type n) (content n) (Some d) (children n)).
Proof.
  intros Hc Hn Hch.
  assert (Hrun : snd (convertToChord node d s) = Done node
    /\ root (fst (convertToChord node d s)) = modifyNode node (setChord (Some d)) (root s)).
  { unfold convertToChord.
    match goal with
    | |- snd (runAtomOperation ?f s) = _ /\ _ =>
        assert (Hst : stable f) by solve_stable;
        apply (@runAtomOperation_done NodeRef f s
                 (setRoot (modifyNode node (setChord (Some d)) (root s))
                          (setCount (count s + 1)%Z s)) node Hst Hc)
    end.
    set (s1 := setCount (count s + 1)%Z s).
    rewrite bind_eq, (@deref_ok s1 node n) by exact Hn.
    rewrite Hch. rewrite bind_eq.
    assert (Hup : updateChord node d s1
                  = (setRoot (modifyNode node (setChord (Some d)) (root s)) s1, Done tt)).
    { unfold updateChord.
      assert (Hc1 : (0 < count s1)%Z) by (simpl; lia).
      rewrite runAtomOperation_nested by (try assumption; solve_stable).
      rewrite bind_eq, (@deref_ok (setCount (count s1 + 1)%Z s1) node n) by exact Hn.
      unfold modifyRoot, modify. f_equal. }
    rewrite Hup. reflexivity. }
  destruct Hrun as [H1 H2]. split; [exact H1 | split; [exact H2|]].
  rewrite H2, getNode_modifyNode, Hn. reflexivity.
Qed.

Lemma convertToChord_of_a_chord_witness :
  children (root (fst (convertToChord [0] 7%Z (Sample.editorOf [Sample.pureNode "c"]))))
  = [mkNode ENodeType.ChordPure "c" (Some 7%Z) []].
Proof.
  exact (f_equal children (proj1 (proj2 (convertToChord_of_a_chord
    (Sample.editorOf [Sample.pureNode "c"]) [0] (Sample.pureNode "c") 7%Z
    (Z.le_refl 0%Z) eq_refl eq_refl)))).
Defined.

(** X16: a node that is neither a chord nor a text cannot be converted:
    the conversion raises and leaves the editor exactly as it was. *)
Theorem convertToChord_rejects_other_nodes
    (s : SheetEditorCore) (node : NodeRef) (n : SheetNode) (d : ChordData) :
  count s = 0%Z -> committed s ->
  getNode (root s) node = Some n ->
  NodeUtils.isChord n = false -> type n <> ENodeType.Text ->
  convertToChord node d s
  = (s, Raised "type error: the node cannot be converted to a chord").
Proof.
  intros Hc Hcom Hn Hch Hty.
  unfold convertToChord.
  apply runAtomOperation_rejected; [solve_stable | assumption | assumption |].
  rewrite bind_eq, (@deref_ok (setCount 1%Z s) node n) by exact Hn.
  rewrite Hch.
  destruct (ENodeType.eqb (type n) ENodeType.Text) eqn:E; [|reflexivity].
  apply ENodeType_eqb_eq in E. contradiction.
Qed.

Lemma convertToChord_rejects_other_nodes_witness :
  convertToChord [0] 7%Z (Sample.editorOf [NodeUtils.createMarkNode "intro"])
  = (Sample.editorOf [NodeUtils.createMarkNode "intro"],
     Raised "type error: the node cannot be converted to a chord").
Proof.
  apply (convertToChord_rejects_other_nodes
           (Sample.editorOf [NodeUtils.createMarkNode "intro"]) [0]
           (NodeUtils.createMarkNode "intro") 7%Z); try reflexivity.
  discriminate.
Defined.

(** ** Rejected underline commands *)

(** X17: an underline can be added at a chord only, and only when a chord of
    the same purity follows it in the document: otherwise the command
    raises and leaves the editor exactly as it was. *)
Theorem addUnderlineForChord_rejections
    (s : SheetEditorCore) (node : NodeRef) (n : SheetNode) :
  count s = 0%Z -> committed s ->
  getNode (root s) node = Some n ->
  (NodeUtils.isChord n = false ->
   addUnderlineForChord node s = (s, Raised "only a chord can get an underline"))
  /\ (NodeUtils.isChord n = true ->
      NodeUtils.findNextNodeByType (root s) node (type n) = None ->
      addUnderlineForChord node s = (s, Raised "cannot add an underline: no next chord")).
Proof.
  intros Hc Hcom Hn.
  unfold addUnderlineForChord.
  split; [intros Hch | intros Hch Hnext];
    (apply runAtomOperation_rejected;
     [ unfold addUnderline_sameLevel, addUnderline_extendForward,
         addUnderline_extendBackward, addUnderline_merge; solve_stable
     | assumption | assumption |]);
    rewrite bind_eq, (@deref_ok (setCount 1%Z s) node n) by exact Hn;
    rewrite bind_eq, Hch; [reflexivity|].
  cbn [assert ret]. rewrite bind_eq. unfold gets at 1. cbv beta.
  change (root (setCount 1%Z s)) with (root s). rewrite Hnext. reflexivity.
Qed.

Lemma addUnderlineForChord_rejections_witness :
  addUnderlineForChord [1] (Sample.editorOf [Sample.chordNode "a"; Sample.chordNode "b";
                                             Sample.pureNode "p"])
  = (Sample.editorOf [Sample.chordNode "a"; Sample.chordNode "b"; Sample.pureNode "p"],
     Raised "cannot add an underline: no next chord")
  /\ addUnderlineForChord [0] (Sample.editorOf [Sample.textNode "t"; Sample.chordNode "b"])
     = (Sample.editorOf [Sample.textNode "t"; Sample.chordNode "b"],
        Raised "only a chord can get an underline").
Proof.
  split.
  - exact (proj2 (addUnderlineForChord_rejections
      (Sample.editorOf [Sample.chordNode "a"; Sample.chordNode "b"; Sample.pureNode "p"])
      [1] (Sample.chordNode "b") eq_refl eq_refl eq_refl) eq_refl eq_refl).
  - exact (proj1 (addUnderlineForChord_rejections
      (Sample.editorOf [Sample.textNode "t"; Sample.chordNode "b"])
      [0] (Sample.textNode "t") eq_refl eq_refl eq_refl) eq_refl).
Defined.

(** X18: an underline can be removed only at a chord whose parent is an
    underline and that is not the last child of it: otherwise the command
    raises and leaves the editor exactly as it was. *)
Theorem removeUnderlineFromChordToNext_rejections
    (s : SheetEditorCore) (par : NodeRef) (i : nat) (p n : SheetNode) :
  count s = 0%Z -> committed s ->
  getNode (root s) par = Some p ->
  nth_error (children p) i = Some n ->
  (NodeUtils.isChord n = false ->
   removeUnderlineFromChordToNext (par ++ [i]) s
   = (s, Raised "only a chord can lose an underline"))
  /\ (NodeUtils.isChord n = true -> NodeUtils.isUnderline p = false ->
      removeUnderlineFromChordToNext (par ++ [i]) s
      = (s, Raised "the chord is not under an underline"))
  /\ (NodeUtils.isChord n = true -> NodeUtils.isUnderline p = true ->
      S i = List.length (children p) ->
      removeUnderlineFromChordToNext (par ++ [i]) s
      = (s, Raised "no underline between the chord and the next chord")).
Proof.
  intros Hc Hcom Hp Hi.
  assert (Hn : getNode (root s) (par ++ [i]) = Some n).
  { rewrite getNode_snoc, Hp. exact Hi. }
  unfold removeUnderlineFromChordToNext.
  split; [intros Hch | split; [intros Hch Hul | intros Hch Hul Hlast]];
    (apply runAtomOperation_rejected;
     [ unfold removeUnderline_dissolve, removeUnderline_shrinkTail,
         removeUnderline_shrinkHead, removeUnderline_split; solve_stable
     | assumption | assumption |]);
    rewrite bind_eq, (@deref_ok (setCount 1%Z s) (par ++ [i]) n) by exact Hn;
    rewrite bind_eq, Hch; [reflexivity | |];
    cbn [assert ret]; rewrite bind_eq, parentOf_ok;
    rewrite bind_eq; unfold gets at 1; cbv beta;
    change (root (setCount 1%Z s)) with (root s);
    rewrite bind_eq, (@parentIsUnderline_snoc (root s) par i p Hp), Hul; [reflexivity|].
  cbn [assert ret].
  rewrite bind_eq, (@isLastChild_snoc (root s) par i p Hp), Hlast, Nat.eqb_refl.
  reflexivity.
Qed.

Lemma removeUnderlineFromChordToNext_rejections_witness :
  removeUnderlineFromChordToNext [0; 1]
    (Sample.editorOf [Sample.underlineOf [Sample.chordNode "a"; Sample.chordNode "b"];
                      Sample.chordNode "c"])
  = (Sample.editorOf [Sample.underlineOf [Sample.chordNode "a"; Sample.chordNode "b"];
                      Sample.chordNode "c"],
     Raised "no underline between the chord and the next chord")
  /\ removeUnderlineFromChordToNext [1]
       (Sample.editorOf [Sample.underlineOf [Sample.chordNode "a"; Sample.chordNode "b"];
                         Sample.chordNode "c"])
     = (Sample.editorOf [Sample.underlineOf [Sample.chordNode "a"; Sample.chordNode "b"];
                         Sample.chordNode "c"],
        Raised "the chord is not under an underline")
  /\ removeUnderlineFromChordToNext [0]
       (Sample.editorOf [Sample.underlineOf [Sample.chordNode "a"; Sample.chordNode "b"];
                         Sample.chordNode "c"])
     = (Sample.editorOf [Sample.underlineOf [Sample.chordNode "a"; Sample.chordNode "b"];
                         Sample.chordNode "c"],
        Raised "only a chord can lose an underline").
Proof.
  split; [|split].
  - exact (proj2 (proj2 (removeUnderlineFromChordToNext_rejections
      (Sample.editorOf [Sample.underlineOf [Sample.chordNode "a"; Sample.chordNode "b"];
                        Sample.chordNode "c"])
      [0] 1 (Sample.underlineOf [Sample.chordNode "a"; Sample.chordNode "b"])
      (Sample.chordNode "b") eq_refl eq_refl eq_refl eq_refl)) eq_refl eq_refl eq_refl).
  - exact (proj1 (proj2 (removeUnderlineFromChordToNext_rejections
      (Sample.editorOf [Sample.underlineOf [Sample.chordNode "a"; Sample.chordNode "b"];
                        Sample.chordNode "c"])
      [] 1
      (Sample.rootOf [Sample.underlineOf [Sample.chordNode "a"; Sample.chordNode "b"];
                      Sample.chordNode "c"])
      (Sample.chordNode "c") eq_refl eq_refl eq_refl eq_refl)) eq_refl eq_refl).
  - exact (proj1 (removeUnderlineFromChordToNext_rejections
      (Sample.editorOf [Sample.underlineOf [Sample.chordNode "a"; Sample.chordNode "b"];
                        Sample.chordNode "c"])
      [] 0
      (Sample.rootOf [Sample.underlineOf [Sample.chordNode "a"; Sample.chordNode "b"];
                      Sample.chordNode "c"])
      (Sample.underlineOf [Sample.chordNode "a"; Sample.chordNode "b"])
      eq_refl eq_refl eq_refl eq_refl) eq_refl).
Defined.

(** ** The key of the sheet *)

Lemma shiftChords_eq offset t c d cs :
  shiftChords offset (mkNode t c d cs)
  = if NodeUtils.isChord (mkNode t c d cs) then
      match d with
      | Some v =>
          let (cs', ok) := shiftChordsList offset cs in
          (mkNode t c (Some (KeyOps.shiftKey v offset)) cs', ok)
      | None => (mkNode t c d cs, false)
      end
    else let (cs', ok) := shiftChordsList offset cs in (mkNode t c d cs', ok).
Proof.
  assert (Hgo : forall l,
    (fix go (l : list SheetNode) : list SheetNode * bool :=
       match l with
       | [] => ([], true)
       | x :: l' =>
           let (x', ok) := shiftChords offset x in
           if ok then let (l'', ok') := go l' in (x' :: l'', ok')
           else (x' :: l', false)
       end) l = shiftChordsList offset l).
  { induction l as [|x l IH]; [reflexivity|].
    cbn [shiftChordsList]. rewrite <- IH. reflexivity. }
  cbn [shiftChords]. rewrite Hgo. reflexivity.
Qed.

Lemma eraseChords_shiftChords offset : forall n,
  eraseChords (fst (shiftChords offset n)) = eraseChords n.
Proof.
  induction n as [t c d cs IHcs] using SheetNode_nested_ind.
  assert (Hl : map eraseChords (fst (shiftChordsList offset cs)) = map eraseChords cs).
  { induction IHcs as [|x l Hx _ IHl]; [reflexivity|].
    cbn [shiftChordsList]. destruct (shiftChords offset x) as [x' ok]. cbn [fst] in Hx.
    destruct ok.
    - destruct (shiftChordsList offset l) as [l' ok']. cbn [fst map] in *.
      rewrite Hx, IHl. reflexivity.
    - cbn [fst map]. rewrite Hx. reflexivity. }
  rewrite shiftChords_eq.
  destruct (NodeUtils.isChord (mkNode t c d cs)); [destruct d as [v|]|];
    try reflexivity;
    destruct (shiftChordsList offset cs) as [cs' ok]; cbn [fst eraseChords] in *;
    rewrite Hl; reflexivity.
Qed.

Lemma leafContents_eraseChords : forall n, leafContents (eraseChords n) = leafContents n.
Proof.
  induction n as [t c d cs IHcs] using SheetNode_nested_ind.
  cbn [eraseChords leafContents]. f_equal.
  induction IHcs as [|x l Hx _ IHl]; [reflexivity|].
  cbn [map flat_map]. rewrite Hx, IHl. reflexivity.
Qed.

Lemma shiftChords_all offset : forall n,
  chordsHaveData n = true -> shiftChords offset n = (shiftAll offset n, true).
Proof.
  induction n as [t c d cs IHcs] using SheetNode_nested_ind. intros Hd.
  cbn [chordsHaveData] in Hd. apply andb_true_iff in Hd as [Hself Hall].
  assert (Hl : shiftChordsList offset cs = (map (shiftAll offset) cs, true)).
  { clear Hself. induction IHcs as [|x l Hx _ IHl]; [reflexivity|].
    cbn [forallb] in Hall. apply andb_true_iff in Hall as [Hx' Hl'].
    cbn [shiftChordsList map]. rewrite (Hx Hx'), (IHl Hl'). reflexivity. }
  rewrite shiftChords_eq, Hl. cbn [shiftAll].
  destruct (NodeUtils.isChord (mkNode t c d cs)); [|reflexivity].
  destruct d as [v|]; [reflexivity | discriminate Hself].
Qed.

Lemma shiftChords_stops offset : forall n,
  chordsHaveData n = false -> snd (shiftChords offset n) = false.
Proof.
  induction n as [t c d cs IHcs] using SheetNode_nested_ind. intros Hd.
  cbn [chordsHaveData] in Hd.
  assert (Hl : forallb chordsHaveData cs = false -> snd (shiftChordsList offset cs) = false).
  { clear Hd. induction IHcs as [|x l Hx _ IHl]; [discriminate|].
    cbn [forallb shiftChordsList]. intros Hall.
    destruct (chordsHaveData x) eqn:Ex.
    - rewrite (shiftChords_all offset x Ex). simpl in Hall. specialize (IHl Hall).
      destruct (shiftChordsList offset l) as [l' ok']. exact IHl.
    - specialize (Hx eq_refl). destruct (shiftChords offset x) as [x' ok].
      cbn [snd] in Hx. subst ok. reflexivity. }
  rewrite shiftChords_eq.
  destruct (NodeUtils.isChord (mkNode t c d cs)); [destruct d as [v|]|];
    try reflexivity; simpl in Hd; specialize (Hl Hd);
    destruct (shiftChordsList offset cs) as [cs' ok]; exact Hl.
Qed.

(** X19: a key shift never changes the tags, the contents or the shape of the
    tree, whether it succeeds or not: only chord data is rewritten.  It
    touches neither the history nor the nesting counter. *)
Theorem setKey_keeps_the_skeleton (newKey : Key) (shiftChord : bool) (s : SheetEditorCore) :
  eraseChords (root (fst (setKey newKey shiftChord s))) = eraseChords (root s)
  /\ leafContents (root (fst (setKey newKey shiftChord s))) = leafContents (root s)
  /\ history (fst (setKey newKey shiftChord s)) = history s
  /\ count (fst (setKey newKey shiftChord s)) = count s.
Proof.
  assert (H : eraseChords (root (fst (setKey newKey shiftChord s))) = eraseChords (root s)
              /\ history (fst (setKey newKey shiftChord s)) = history s
              /\ count (fst (setKey newKey shiftChord s)) = count s).
  { unfold setKey, bind, gets, modify, modifyRoot.
    destruct (KeyOps.isEqual newKey (sheetKey (meta s))); [repeat split|].
    destruct shiftChord; [|repeat split].
    cbn [root setMetaField].
    pose proof (eraseChords_shiftChords
                  (KeyOps.getOffset (sheetKey (meta s)) newKey) (root s)) as He.
    destruct (shiftChords _ (root s)) as [r' [|]]; cbn [fst] in *; repeat split; exact He. }
  destruct H as (H1 & H2 & H3). repeat split; try assumption.
  rewrite <- (leafContents_eraseChords (root (fst _))), H1. apply leafContents_eraseChords.
Qed.

(** The key shift does nothing for the key the sheet has already, and
    without the transposition of the chords it only sets the key. *)
Theorem setKey_without_transposition (s : SheetEditorCore) :
  (forall shiftChord, setKey (sheetKey (meta s)) shiftChord s = (s, Done tt))
  /\ (forall newKey, setKey newKey false s = (setMetaField (mkMeta newKey) s, Done tt)).
Proof.
  split.
  - intros b. unfold setKey, bind, gets, KeyOps.isEqual. rewrite Z.eqb_refl. reflexivity.
  - intros k. unfold setKey, bind, gets, modify, KeyOps.isEqual.
    destruct (Z.eqb_spec k (sheetKey (meta s))) as [->|Hne]; [|reflexivity].
    destruct s as [[k0] r h c]. reflexivity.
Qed.

(** X20: a key shift with transposition to another key, on a tree in which
    every chord has chord data, sets the key and shifts the chord data of
    every chord, annotated or pure, by the offset between the two keys. *)
Theorem setKey_transposes_every_chord (newKey : Key) (s : SheetEditorCore) :
  newKey <> sheetKey (meta s) ->
  chordsHaveData (root s) = true ->
  setKey newKey true s
  = (mkEditor (mkMeta newKey)
       (shiftAll (KeyOps.getOffset (sheetKey (meta s)) newKey) (root s))
       (history s) (count s),
     Done tt).
Proof.
  intros Hne Hd. unfold setKey, bind, gets, modify, modifyRoot, KeyOps.isEqual.
  destruct (Z.eqb_spec newKey (sheetKey (meta s))) as [He|_]; [contradiction|].
  cbn [root setMetaField meta]. rewrite (shiftChords_all _ _ Hd). reflexivity.
Qed.

Lemma setKey_transposes_every_chord_witness :
  children (root (fst (setKey 2%Z true
     (Sample.editorOf [Sample.underlineOf [Sample.chordNode "a"; Sample.chordNode "b"];
                       Sample.pureNode "p"]))))
  = [Sample.underlineOf [mkNode ENodeType.Chord "a" (Some 2%Z) [];
                         mkNode ENodeType.Chord "b" (Some 2%Z) []];
     mkNode ENodeType.ChordPure "p" (Some 2%Z) []].
Proof.
  exact (f_equal (fun x => children (root (fst x))) (setKey_transposes_every_chord 2%Z
    (Sample.editorOf [Sample.underlineOf [Sample.chordNode "a"; Sample.chordNode "b"];
                      Sample.pureNode "p"])
    (fun H => Z.neq_sym _ _ (Z.lt_neq 0 2 eq_refl) H) eq_refl)).
Defined.

(** X21: the key shift is not an atom operation: when a chord without chord
    data stops the transposition, the failure is raised with the new key
    already set, and nothing restores the old one. *)
Theorem setKey_failure_keeps_the_new_key (newKey : Key) (s : SheetEditorCore) :
  newKey <> sheetKey (meta s) ->
  chordsHaveData (root s) = false ->
  snd (setKey newKey true s) = Raised "TypeError: the chord is undefined"
  /\ sheetKey (meta (fst (setKey newKey true s))) = newKey.
Proof.
  intros Hne Hd. unfold setKey, bind, gets, modify, modifyRoot, KeyOps.isEqual.
  destruct (Z.eqb_spec newKey (sheetKey (meta s))) as [He|_]; [contradiction|].
  cbn [root setMetaField meta].
  pose proof (shiftChords_stops (KeyOps.getOffset (sheetKey (meta s)) newKey) (root s) Hd) as H.
  destruct (shiftChords _ (root s)) as [r' ok]. cbn [snd] in H. subst ok.
  split; reflexivity.
Qed.

Lemma setKey_failure_keeps_the_new_key_witness :
  sheetKey (meta (fst (setKey 2%Z true
     (Sample.editorOf [Sample.chordNode "a"; mkNode ENodeType.Chord "b" None []])))) = 2%Z.
Proof.
  exact (proj2 (setKey_failure_keeps_the_new_key 2%Z
    (Sample.editorOf [Sample.chordNode "a"; mkNode ENodeType.Chord "b" None []])
    (fun H => Z.neq_sym _ _ (Z.lt_neq 0 2 eq_refl) H) eq_refl)).
Defined.

(** ** Insertions and the underlines *)

Lemma walkOutFirst_suffix root rp : exists l, rp = l ++ walkOutFirst root rp.
Proof.
  induction rp as [|i rq IH]; [exists []; reflexivity|].
  cbn [walkOutFirst].
  destruct (NodeUtils.isFirstChild (rev (i :: rq)) && parentIsUnderline root (rev (i :: rq))).
  - destruct IH as [l Hl]. exists (i :: l). simpl. congruence.
  - exists []. reflexivity.
Qed.

Lemma insertionTargetBefore_prefix root node :
  exists r, node = insertionTargetBefore root node ++ r.
Proof.
  unfold insertionTargetBefore.
  destruct (walkOutFirst_suffix root (rev node)) as [l Hl].
  exists (rev l). rewrite <- rev_app_distr, <- Hl, rev_involutive. reflexivity.
Qed.

(** The walks stop at a node that is not at the boundary of an underline. *)
Lemma walkOutLast_stops root rp :
  walkOutLast root rp <> [] ->
  NodeUtils.isLastChild root (rev (walkOutLast root rp))
  && parentIsUnderline root (rev (walkOutLast root rp)) = false.
Proof.
  induction rp as [|i rq IH]; [intros H; contradiction H; reflexivity|].
  cbn [walkOutLast].
  destruct (NodeUtils.isLastChild root (rev (i :: rq))
            && parentIsUnderline root (rev (i :: rq))) eqn:E.
  - exact IH.
  - intros _. exact E.
Qed.

Lemma walkOutFirst_stops root rp :
  walkOutFirst root rp <> [] ->
  NodeUtils.isFirstChild (rev (walkOutFirst root rp))
  && parentIsUnderline root (rev (walkOutFirst root rp)) = false.
Proof.
  induction rp as [|i rq IH]; [intros H; contradiction H; reflexivity|].
  cbn [walkOutFirst].
  destruct (NodeUtils.isFirstChild (rev (i :: rq))
            && parentIsUnderline root (rev (i :: rq))) eqn:E.
  - exact IH.
  - intros _. exact E.
Qed.

Lemma insertBefore_done s node data n :
  (0 <= count s)%Z ->
  getNode (root s) node = Some n ->
  insertionTargetBefore (root s) node <> [] ->
  snd (insertBefore node data s) = Done tt
  /\ root (fst (insertBefore node data s))
     = modifyChildren (removelast (insertionTargetBefore (root s) node))
         (spliceIn (NodeUtils.getSelfIndex (insertionTargetBefore (root s) node)) data)
         (root s).
Proof.
  intros Hc Hn Ht.
  unfold insertBefore.
  match goal with
  | |- snd (runAtomOperation ?f s) = _ /\ _ =>
      assert (Hst : stable f) by solve_stable;
      apply (@runAtomOperation_done unit f s
               (setRoot (modifyChildren (removelast (insertionTargetBefore (root s) node))
                  (spliceIn (NodeUtils.getSelfIndex (insertionTargetBefore (root s) node)) data)
                  (root s)) (setCount (count s + 1)%Z s)) tt Hst Hc)
  end.
  assert (Hnode : node <> []).
  { intros ->. apply Ht. reflexivity. }
  rewrite bind_eq, (@deref_ok _ node n) by exact Hn.
  rewrite bind_eq.
  rewrite (app_removelast_last 0 Hnode), parentOf_ok, <- (app_removelast_last 0 Hnode).
  rewrite bind_eq. unfold gets at 1. cbv beta.
  fold (insertionTargetBefore (root (setCount (count s + 1)%Z s)) node).
  change (root (setCount (count s + 1)%Z s)) with (root s).
  rewrite bind_eq.
  rewrite (app_removelast_last 0 Ht) at 1. rewrite parentOf_ok.
  reflexivity.
Qed.

(** A successful insertion, read backwards. *)
Lemma insertAfter_inv s node data s' :
  (0 <= count s)%Z ->
  insertAfter node data s = (s', Done tt) ->
  (exists n, getNode (root s) node = Some n)
  /\ insertionTarget (root s) node <> []
  /\ root s'
     = modifyChildren (removelast (insertionTarget (root s) node))
         (spliceIn (NodeUtils.getSelfIndex (insertionTarget (root s) node) + 1) data)
         (root s).
Proof.
  intros Hc Hrun.
  assert (Hn : exists n, getNode (root s) node = Some n
                         /\ insertionTarget (root s) node <> []).
  { unfold insertAfter in Hrun.
    match type of Hrun with
    | runAtomOperation ?f s = _ =>
        assert (Hst : stable f) by solve_stable;
        destruct (@runAtomOperation_done_inv unit f s tt Hst Hc) as (s2 & Hbody & _);
        [rewrite Hrun; reflexivity|]
    end.
    inv_bind Hbody. inv_bind Hbody. inv_bind Hbody.
    apply bind_inv in Hbody. destruct Hbody as (s3 & q & Hpar & _).
    apply parentOf_inv in Hpar. destruct Hpar as [_ Hpar].
    exists a. split; [assumption|].
    unfold insertionTarget. cbn [root setCount] in Hpar. rewrite Hpar.
    intros H. destruct q; discriminate H. }
  destruct Hn as (n & Hn & Ht).
  destruct (@insertAfter_done s node data n Hc Hn Ht) as [_ H2].
  rewrite Hrun in H2. split; [exists n; exact Hn | split; [exact Ht | exact H2]].
Qed.

Lemma insertBefore_inv s node data s' :
  (0 <= count s)%Z ->
  insertBefore node data s = (s', Done tt) ->
  (exists n, getNode (root s) node = Some n)
  /\ insertionTargetBefore (root s) node <> []
  /\ root s'
     = modifyChildren (removelast (insertionTargetBefore (root s) node))
         (spliceIn (NodeUtils.getSelfIndex (insertionTargetBefore (root s) node)) data)
         (root s).
Proof.
  intros Hc Hrun.
  assert (Hn : exists n, getNode (root s) node = Some n
                         /\ insertionTargetBefore (root s) node <> []).
  { unfold insertBefore in Hrun.
    match type of Hrun with
    | runAtomOperation ?f s = _ =>
        assert (Hst : stable f) by solve_stable;
        destruct (@runAtomOperation_done_inv unit f s tt Hst Hc) as (s2 & Hbody & _);
        [rewrite Hrun; reflexivity|]
    end.
    inv_bind Hbody. inv_bind Hbody. inv_bind Hbody.
    apply bind_inv in Hbody. destruct Hbody as (s3 & q & Hpar & _).
    apply parentOf_inv in Hpar. destruct Hpar as [_ Hpar].
    exists a. split; [assumption|].
    unfold insertionTargetBefore. cbn [root setCount] in Hpar. rewrite Hpar.
    intros H. destruct q; discriminate H. }
  destruct Hn as (n & Hn & Ht).
  destruct (insertBefore_done s node data n Hc Hn Ht) as [_ H2].
  rewrite Hrun in H2. split; [exists n; exact Hn | split; [exact Ht | exact H2]].
Qed.

(** X22: an insertion after a node lands after the node or, when the node is at
    the end of underlines, after the outermost of them; an insertion
    before a node lands before the node or before the outermost underline
    it begins.  In both cases the place is never the boundary of an
    underline. *)
Theorem insertions_land_outside_the_underlines
    (s : SheetEditorCore) (node : NodeRef) (n : SheetNode) (data : list SheetNode) :
  (0 <= count s)%Z ->
  getNode (root s) node = Some n ->
  (insertionTarget (root s) node <> [] ->
   snd (insertAfter node data s) = Done tt
   /\ root (fst (insertAfter node data s))
      = modifyChildren (removelast (insertionTarget (root s) node))
          (spliceIn (NodeUtils.getSelfIndex (insertionTarget (root s) node) + 1) data)
          (root s)
   /\ NodeUtils.isLastChild (root s) (insertionTarget (root s) node)
      && parentIsUnderline (root s) (insertionTarget (root s) node) = false)
  /\ (insertionTargetBefore (root s) node <> [] ->
      snd (insertBefore node data s) = Done tt
      /\ root (fst (insertBefore node data s))
         = modifyChildren (removelast (insertionTargetBefore (root s) node))
             (spliceIn (NodeUtils.getSelfIndex (insertionTargetBefore (root s) node)) data)
             (root s)
      /\ NodeUtils.isFirstChild (insertionTargetBefore (root s) node)
         && parentIsUnderline (root s) (insertionTargetBefore (root s) node) = false).
Proof.
  intros Hc Hn. split; intros Ht.
  - destruct (@insertAfter_done s node data n Hc Hn Ht) as [H1 H2].
    repeat split; [exact H1 | exact H2 |].
    unfold insertionTarget in *. apply walkOutLast_stops.
    intros H. apply Ht. rewrite H. reflexivity.
  - destruct (insertBefore_done s node data n Hc Hn Ht) as [H1 H2].
    repeat split; [exact H1 | exact H2 |].
    unfold insertionTargetBefore in *. apply walkOutFirst_stops.
    intros H. apply Ht. rewrite H. reflexivity.
Qed.

Lemma insertions_land_outside_the_underlines_witness :
  children (root (fst (insertBefore [0; 0] [Sample.textNode "t"]
     (Sample.editorOf [Sample.underlineOf [Sample.chordNode "a"; Sample.chordNode "b"]]))))
  = [Sample.textNode "t"; Sample.underlineOf [Sample.chordNode "a"; Sample.chordNode "b"]]
  /\ children (root (fst (insertAfter [0; 1] [Sample.textNode "t"]
        (Sample.editorOf [Sample.underlineOf [Sample.chordNode "a"; Sample.chordNode "b"]]))))
     = [Sample.underlineOf [Sample.chordNode "a"; Sample.chordNode "b"]; Sample.textNode "t"].
Proof.
  split.
  - exact (f_equal children (proj1 (proj2 (proj2 (insertions_land_outside_the_underlines
      (Sample.editorOf [Sample.underlineOf [Sample.chordNode "a"; Sample.chordNode "b"]])
      [0; 0] (Sample.chordNode "a") [Sample.textNode "t"] (Z.le_refl 0%Z) eq_refl)
      (fun H => eq_ind [0] (fun l => match l with [] => False | _ => True end) I [] H))))).
  - exact (f_equal children (proj1 (proj2 (proj1 (insertions_land_outside_the_underlines
      (Sample.editorOf [Sample.underlineOf [Sample.chordNode "a"; Sample.chordNode "b"]])
      [0; 1] (Sample.chordNode "b") [Sample.textNode "t"] (Z.le_refl 0%Z) eq_refl)
      (fun H => eq_ind [0] (fun l => match l with [] => False | _ => True end) I [] H))))).
Defined.

(** *** The anchor rule *)

Lemma beginsWithChord_eq n :
  beginsWithChord n
  = if NodeUtils.isChord n then true
    else if NodeUtils.isUnderline n then hd false (map beginsWithChord (children n))
    else false.
Proof.
  destruct n as [t c d cs]. unfold NodeUtils.isChord, NodeUtils.isUnderline.
  destruct t; cbn [beginsWithChord type children]; try reflexivity;
    destruct cs; reflexivity.
Qed.

Lemma endsWithChord_eq n :
  endsWithChord n
  = if NodeUtils.isChord n then true
    else if NodeUtils.isUnderline n then last (map endsWithChord (children n)) false
    else false.
Proof.
  destruct n as [t c d cs]. unfold NodeUtils.isChord, NodeUtils.isUnderline.
  assert (Hl : (fix lastOf (l : list SheetNode) : bool :=
                  match l with
                  | [] => false
                  | [c] => endsWithChord c
                  | _ :: (_ :: _) as l' => lastOf l'
                  end) cs = last (map endsWithChord cs) false).
  { induction cs as [|x l IH]; [reflexivity|].
    destruct l as [|y l']; [reflexivity|]. rewrite IH. reflexivity. }
  destruct t; cbn [endsWithChord type children]; try reflexivity; exact Hl.
Qed.

Lemma invariantI1_eq n :
  invariantI1 n
  = (if NodeUtils.isUnderline n then beginsWithChord n && endsWithChord n else true)
    && forallb invariantI1 (children n).
Proof. destruct n; reflexivity. Qed.

Lemma anchors_inv a b :
  anchors a = anchors b ->
  type a = type b /\ beginsWithChord a = beginsWithChord b
  /\ endsWithChord a = endsWithChord b.
Proof. unfold anchors. intros H. injection H as H1 H2 H3. auto. Qed.

Lemma anchors_of_children t c d cs cs' :
  map anchors cs = map anchors cs' ->
  anchors (mkNode t c d cs) = anchors (mkNode t c d cs').
Proof.
  intros H. unfold anchors.
  assert (Hb : map beginsWithChord cs = map beginsWithChord cs').
  { change beginsWithChord with (fun n => snd (fst (anchors n))).
    rewrite <- !(map_map anchors (fun a => snd (fst a))), H. reflexivity. }
  assert (He : map endsWithChord cs = map endsWithChord cs').
  { change endsWithChord with (fun n => snd (anchors n)).
    rewrite <- !(map_map anchors snd), H. reflexivity. }
  rewrite (beginsWithChord_eq (mkNode t c d cs)), (beginsWithChord_eq (mkNode t c d cs')).
  rewrite (endsWithChord_eq (mkNode t c d cs)), (endsWithChord_eq (mkNode t c d cs')).
  unfold NodeUtils.isChord, NodeUtils.isUnderline. cbn [type children].
  rewrite Hb, He. reflexivity.
Qed.

Lemma map_modifyNth {A B} (F : A -> B) (g : A -> A) i l :
  (forall x, nth_error l i = Some x -> F (g x) = F x) ->
  map F (modifyNth i g l) = map F l.
Proof.
  revert i. induction l as [|y l IH]; intros [|i] H; simpl; try reflexivity.
  - rewrite (H y eq_refl). reflexivity.
  - rewrite IH; [reflexivity | exact H].
Qed.

Lemma forallb_modifyNth {A} (F : A -> bool) (g : A -> A) i l :
  (forall x, nth_error l i = Some x -> F (g x) = true) ->
  forallb F l = true -> forallb F (modifyNth i g l) = true.
Proof.
  revert i. induction l as [|y l IH]; intros [|i] H Hall; simpl in *; try reflexivity;
    apply andb_true_iff in Hall as [Hy Hl]; apply andb_true_iff; split; auto.
Qed.

(** A change deep in the tree that keeps the anchors and the anchor rule
    of the node it changes keeps those of the whole tree. *)
Lemma anchor_rule_modifyNode f : forall p root P,
  getNode root p = Some P ->
  anchors (f P) = anchors P ->
  (invariantI1 P = true -> invariantI1 (f P) = true) ->
  anchors (modifyNode p f root) = anchors root
  /\ (invariantI1 root = true -> invariantI1 (modifyNode p f root) = true).
Proof.
  induction p as [|i p IH]; intros root P HP Ha HI; simpl in HP.
  - injection HP as ->. split; assumption.
  - destruct (nth_error (children root) i) as [x|] eqn:Ex; [|discriminate HP].
    destruct (IH x P HP Ha HI) as [IHa IHI].
    destruct root as [t c d cs]. cbn [children] in Ex.
    change (modifyNode (i :: p) f (mkNode t c d cs))
      with (mkNode t c d (modifyNth i (modifyNode p f) cs)).
    assert (Hmap : map anchors (modifyNth i (modifyNode p f) cs) = map anchors cs).
    { apply map_modifyNth. intros y Hy. rewrite Ex in Hy. injection Hy as <-. exact IHa. }
    pose proof (anchors_of_children t c d _ _ Hmap) as Hroot.
    split; [exact Hroot|].
    rewrite !invariantI1_eq. cbn [children]. intros H.
    apply andb_true_iff in H as [Hown Hall]. apply andb_true_iff. split.
    + destruct (anchors_inv _ _ Hroot) as (_ & Hb & He).
      change (NodeUtils.isUnderline (mkNode t c d (modifyNth i (modifyNode p f) cs)))
        with (NodeUtils.isUnderline (mkNode t c d cs)).
      rewrite Hb, He. exact Hown.
    + apply forallb_modifyNth; [|exact Hall].
      intros y Hy. rewrite Ex in Hy. injection Hy as <-. apply IHI.
      rewrite forallb_forall in Hall. apply Hall. eapply nth_error_In. exact Ex.
Qed.

Lemma last_app_nonempty {A} (a b : list A) (d : A) : b <> [] -> last (a ++ b) d = last b d.
Proof.
  intros Hb. induction a as [|x a IH]; [reflexivity|].
  simpl. destruct (a ++ b) eqn:E; [|exact IH].
  apply app_eq_nil in E. destruct E as [_ E]. contradiction.
Qed.

(** Nodes spliced strictly inside the children of a node do not change
    its anchors; outside an underline no splice does. *)
Lemma anchors_spliceIn (P : SheetNode) (k : nat) (data : list SheetNode) :
  (NodeUtils.isUnderline P = true -> 0 < k < List.length (children P)) ->
  anchors (setChildren (spliceIn k data (children P)) P) = anchors P.
Proof.
  intros Hk. destruct P as [t c d cs]. unfold setChildren, anchors. cbn [type content chord children] in *.
  rewrite (beginsWithChord_eq (mkNode t c d (spliceIn k data cs))),
          (beginsWithChord_eq (mkNode t c d cs)),
          (endsWithChord_eq (mkNode t c d (spliceIn k data cs))),
          (endsWithChord_eq (mkNode t c d cs)).
  unfold NodeUtils.isChord. cbn [type children].
  destruct (NodeUtils.isUnderline (mkNode t c d cs)) eqn:Hu.
  - change (NodeUtils.isUnderline (mkNode t c d (spliceIn k data cs)))
      with (NodeUtils.isUnderline (mkNode t c d cs)). rewrite Hu.
    specialize (Hk eq_refl). destruct Hk as [Hk0 Hk1].
    assert (Hhd : hd false (map beginsWithChord (spliceIn k data cs))
                  = hd false (map beginsWithChord cs)).
    { unfold spliceIn. destruct cs as [|x cs']; [simpl in Hk1; lia|].
      destruct k as [|k']; [lia|]. reflexivity. }
    assert (Hlast : last (map endsWithChord (spliceIn k data cs)) false
                    = last (map endsWithChord cs) false).
    { assert (Hne : map endsWithChord (skipn k cs) <> []).
      { intros H. apply map_eq_nil in H.
        apply (f_equal (@List.length _)) in H. rewrite length_skipn in H. simpl in H. lia. }
      unfold spliceIn. rewrite !map_app, app_assoc, last_app_nonempty by exact Hne.
      rewrite <- (firstn_skipn k cs) at 2. rewrite map_app, last_app_nonempty by exact Hne.
      reflexivity. }
    rewrite Hhd, Hlast. reflexivity.
  - change (NodeUtils.isUnderline (mkNode t c d (spliceIn k data cs)))
      with (NodeUtils.isUnderline (mkNode t c d cs)). rewrite Hu. reflexivity.
Qed.

Lemma invariantI1_spliceIn (P : SheetNode) (k : nat) (data : list SheetNode) :
  (NodeUtils.isUnderline P = true -> 0 < k < List.length (children P)) ->
  forallb invariantI1 data = true ->
  invariantI1 P = true ->
  invariantI1 (setChildren (spliceIn k data (children P)) P) = true.
Proof.
  intros Hk Hdata HP.
  pose proof (anchors_spliceIn P k data Hk) as Ha.
  rewrite invariantI1_eq in HP |- *. apply andb_true_iff in HP as [Hown Hall].
  apply andb_true_iff. split.
  - destruct (anchors_inv _ _ Ha) as (Ht & Hb & He).
    unfold NodeUtils.isUnderline in *. rewrite Ht, Hb, He. exact Hown.
  - rewrite children_setChildren. unfold spliceIn.
    rewrite <- (firstn_skipn k (children P)) in Hall.
    rewrite forallb_app in Hall. apply andb_true_iff in Hall as [H1 H2].
    rewrite !forallb_app, H1, Hdata, H2. reflexivity.
Qed.

Lemma insertAfter_keeps_I1 s node data s' :
  (0 <= count s)%Z ->
  invariantI1 (root s) = true -> forallb invariantI1 data = true ->
  insertAfter node data s = (s', Done tt) ->
  invariantI1 (root s') = true.
Proof.
  intros Hc HI Hdata Hrun.
  destruct (insertAfter_inv s node data s' Hc Hrun) as ((n & Hn) & Ht & ->).
  pose proof (walkOutLast_stops (root s) (rev node)) as Hstop.
  fold (insertionTarget (root s) node) in Hstop.
  destruct (insertionTarget_prefix (root s) node) as [r Hr].
  set (target := insertionTarget (root s) node) in *.
  assert (Hstop' : NodeUtils.isLastChild (root s) target
                   && parentIsUnderline (root s) target = false).
  { apply Hstop. intros H. apply Ht. unfold target, insertionTarget. rewrite H. reflexivity. }
  rewrite Hr in Hn. destruct (getNode_prefix target r (root s) Hn) as (tn & Htn & _).
  rewrite (app_removelast_last 0 Ht) in Htn, Hstop'.
  fold (NodeUtils.getSelfIndex target) in *.
  destruct (getNode_prefix _ _ (root s) Htn) as (P & HP & Hidx).
  simpl in Hidx.
  destruct (nth_error (children P) (NodeUtils.getSelfIndex target)) as [x|] eqn:Ex;
    [|discriminate Hidx].
  rewrite (@isLastChild_snoc (root s) _ _ P HP),
          (@parentIsUnderline_snoc (root s) _ _ P HP) in Hstop'.
  assert (Hk : NodeUtils.isUnderline P = true ->
               0 < NodeUtils.getSelfIndex target + 1 < List.length (children P)).
  { intros Hu. rewrite Hu, andb_true_r in Hstop'. apply Nat.eqb_neq in Hstop'.
    assert (NodeUtils.getSelfIndex target < List.length (children P))
      by (apply nth_error_Some; congruence).
    lia. }
  unfold modifyChildren.
  apply (anchor_rule_modifyNode _ _ (root s) P HP).
  - apply anchors_spliceIn. exact Hk.
  - apply invariantI1_spliceIn; assumption.
  - exact HI.
Qed.

Lemma insertBefore_keeps_I1 s node data s' :
  (0 <= count s)%Z ->
  invariantI1 (root s) = true -> forallb invariantI1 data = true ->
  insertBefore node data s = (s', Done tt) ->
  invariantI1 (root s') = true.
Proof.
  intros Hc HI Hdata Hrun.
  destruct (insertBefore_inv s node data s' Hc Hrun) as ((n & Hn) & Ht & ->).
  pose proof (walkOutFirst_stops (root s) (rev node)) as Hstop.
  fold (insertionTargetBefore (root s) node) in Hstop.
  destruct (insertionTargetBefore_prefix (root s) node) as [r Hr].
  set (target := insertionTargetBefore (root s) node) in *.
  assert (Hstop' : NodeUtils.isFirstChild target
                   && parentIsUnderline (root s) target = false).
  { apply Hstop. intros H. apply Ht. unfold target, insertionTargetBefore. rewrite H.
    reflexivity. }
  rewrite Hr in Hn. destruct (getNode_prefix target r (root s) Hn) as (tn & Htn & _).
  unfold NodeUtils.isFirstChild in Hstop'.
  rewrite (app_removelast_last 0 Ht) in Htn.
  rewrite (app_removelast_last 0 Ht) in Hstop' at 2.
  fold (NodeUtils.getSelfIndex target) in *.
  destruct (getNode_prefix _ _ (root s) Htn) as (P & HP & Hidx).
  simpl in Hidx.
  destruct (nth_error (children P) (NodeUtils.getSelfIndex target)) as [x|] eqn:Ex;
    [|discriminate Hidx].
  rewrite (@parentIsUnderline_snoc (root s) _ _ P HP) in Hstop'.
  assert (Hk : NodeUtils.isUnderline P = true ->
               0 < NodeUtils.getSelfIndex target < List.length (children P)).
  { intros Hu. rewrite Hu, andb_true_r in Hstop'. apply Nat.eqb_neq in Hstop'.
    assert (NodeUtils.getSelfIndex target < List.length (children P))
      by (apply nth_error_Some; congruence).
    lia. }
  unfold modifyChildren.
  apply (anchor_rule_modifyNode _ _ (root s) P HP).
  - apply anchors_spliceIn. exact Hk.
  - apply invariantI1_spliceIn; assumption.
  - exact HI.
Qed.

Lemma invariantI1_createTextNodes text :
  forallb invariantI1 (NodeUtils.createTextNodes text) = true.
Proof. induction text as [|c rest IH]; [reflexivity | exact IH]. Qed.

Lemma setContent_keeps_I1 c node root n :
  getNode root node = Some n ->
  invariantI1 root = true ->
  invariantI1 (modifyNode node (setContent c) root) = true.
Proof.
  intros Hn HI.
  apply (anchor_rule_modifyNode (setContent c) node root n Hn).
  - destruct n as [t c0 d cs]. unfold anchors, setContent. cbn [type content chord children].
    rewrite (beginsWithChord_eq (mkNode t c d cs)), (beginsWithChord_eq (mkNode t c0 d cs)),
            (endsWithChord_eq (mkNode t c d cs)), (endsWithChord_eq (mkNode t c0 d cs)).
    reflexivity.
  - destruct n as [t c0 d cs]. unfold setContent. cbn [type content chord children].
    rewrite (invariantI1_eq (mkNode t c d cs)), (invariantI1_eq (mkNode t c0 d cs)).
    rewrite (beginsWithChord_eq (mkNode t c d cs)), (beginsWithChord_eq (mkNode t c0 d cs)),
            (endsWithChord_eq (mkNode t c d cs)), (endsWithChord_eq (mkNode t c0 d cs)).
    intros H; exact H.
  - exact HI.
Qed.

Lemma insert_keeps_I1 prompt node ty before s s' :
  (0 <= count s)%Z -> invariantI1 (root s) = true ->
  insert prompt node ty before s = (s', Done tt) ->
  invariantI1 (root s') = true.
Proof.
  intros Hc HI Hrun. unfold insert in Hrun.
  match type of Hrun with
  | runAtomOperation ?f s = _ =>
      assert (Hst : stable f) by solve_stable;
      destruct (@runAtomOperation_done_inv unit f s tt Hst Hc) as (s2 & Hbody & Hroot);
      [rewrite Hrun; reflexivity|]
  end.
  rewrite Hrun in Hroot. cbn [fst] in Hroot. rewrite Hroot. clear Hroot Hrun Hst.
  set (s1 := setCount (count s + 1)%Z s) in *.
  assert (Hc1 : (0 <= count s1)%Z) by (simpl; lia).
  assert (HI1 : invariantI1 (root s1) = true) by exact HI.
  assert (Hplace : forall data, forallb invariantI1 data = true ->
            (if before then insertBefore node data else insertAfter node data) s1
            = (s2, Done tt) -> invariantI1 (root s2) = true).
  { intros data Hdata H. destruct before.
    - exact (insertBefore_keeps_I1 s1 node data s2 Hc1 HI1 Hdata H).
    - exact (insertAfter_keeps_I1 s1 node data s2 Hc1 HI1 Hdata H). }
  cbv zeta in Hbody.
  destruct (String.eqb ty "text").
  { destruct (prompt "insert text" "enter the text") as [t|].
    - destruct (String.eqb t "").
      + injection Hbody as <-. exact HI1.
      + apply (Hplace _ (invariantI1_createTextNodes t) Hbody).
    - injection Hbody as <-. exact HI1. }
  destruct (String.eqb ty "space").
  { apply (Hplace _ (invariantI1_createTextNodes " ") Hbody). }
  destruct (String.eqb ty "mark").
  { destruct (prompt "insert mark" "enter the mark") as [t|].
    - destruct (String.eqb t "").
      + injection Hbody as <-. exact HI1.
      + apply (Hplace [NodeUtils.createMarkNode t] eq_refl Hbody).
    - injection Hbody as <-. exact HI1. }
  destruct (String.eqb ty "newline").
  { apply (Hplace [NodeUtils.createNewLineNode] eq_refl Hbody). }
  discriminate Hbody.
Qed.

Lemma updateContent_keeps_I1 node newContent s s' :
  (0 <= count s)%Z -> invariantI1 (root s) = true ->
  updateContent node newContent s = (s', Done tt) ->
  invariantI1 (root s') = true.
Proof.
  intros Hc HI Hrun. unfold updateContent in Hrun.
  match type of Hrun with
  | runAtomOperation ?f s = _ =>
      assert (Hst : stable f) by solve_stable;
      destruct (@runAtomOperation_done_inv unit f s tt Hst Hc) as (s2 & Hbody & Hroot);
      [rewrite Hrun; reflexivity|]
  end.
  rewrite Hrun in Hroot. cbn [fst] in Hroot. rewrite Hroot. clear Hroot Hrun Hst.
  set (s1 := setCount (count s + 1)%Z s) in *.
  inv_bind Hbody. inv_bind Hbody. inv_bind Hbody.
  apply bind_inv in Hbody. destruct Hbody as (s3 & u & Hlen & Hbody).
  assert (s3 = s1) as ->.
  { destruct (ENodeType.eqb (type a) ENodeType.Text || ENodeType.eqb (type a) ENodeType.Chord).
    - apply assert_inv in Hlen. destruct Hlen as [-> _]. reflexivity.
    - injection Hlen as <-. reflexivity. }
  assert (Hset : forall c, invariantI1 (root (setRoot (modifyNode node (setContent c) (root s1)) s1))
                           = true).
  { intros c. cbn [root setRoot]. apply setContent_keeps_I1 with (n := a); assumption. }
  assert (Htext : (x <- modifyRoot (modifyNode node (setContent (firstChar newContent))) ;;
                   (if 0 <? String.length (restChars newContent)
                    then insertAfter node (NodeUtils.createTextNodes (restChars newContent))
                    else ret tt)) s1 = (s2, Done tt) -> invariantI1 (root s2) = true).
  { intros H. inv_bind H.
    destruct (0 <? String.length (restChars newContent)).
    - eapply insertAfter_keeps_I1; [| apply Hset | apply invariantI1_createTextNodes | exact H].
      simpl. lia.
    - injection H as <-. apply Hset. }
  destruct (type a); try (injection Hbody as <-; exact HI); try (exact (Htext Hbody)).
  apply modifyRoot_inv in Hbody. subst s2. apply Hset.
Qed.

(** X23: the insertions keep the anchor rule (invariant I1): when it holds in
    the tree, and in the nodes given to [insertAfter] or [insertBefore], it
    holds again after a successful [insertAfter], [insertBefore], [insert]
    or [updateContent]. *)
Theorem insertions_keep_the_anchor_rule (c : E unit) (s s' : SheetEditorCore) :
  (0 <= count s)%Z ->
  invariantI1 (root s) = true ->
  (exists node data, forallb invariantI1 data = true
                     /\ (c = insertAfter node data \/ c = insertBefore node data))
  \/ (exists prompt node ty before, c = insert prompt node ty before)
  \/ (exists node newContent, c = updateContent node newContent) ->
  c s = (s', Done tt) ->
  invariantI1 (root s') = true.
Proof.
  intros Hc HI [(node & data & Hdata & [-> | ->])
               | [(prompt & node & ty & before & ->) | (node & newContent & ->)]] Hrun.
  - exact (insertAfter_keeps_I1 s node data s' Hc HI Hdata Hrun).
  - exact (insertBefore_keeps_I1 s node data s' Hc HI Hdata Hrun).
  - exact (insert_keeps_I1 prompt node ty before s s' Hc HI Hrun).
  - exact (updateContent_keeps_I1 node newContent s s' Hc HI Hrun).
Qed.

Lemma insertions_keep_the_anchor_rule_witness :
  invariantI1 (root (fst (updateContent [0; 1] "bxy"
     (Sample.editorOf [Sample.underlineOf [Sample.chordNode "a"; Sample.chordNode "b"]]))))
  = true.
Proof.
  exact (insertions_keep_the_anchor_rule (updateContent [0; 1] "bxy")
    (Sample.editorOf [Sample.underlineOf [Sample.chordNode "a"; Sample.chordNode "b"]]) _
    (Z.le_refl 0%Z) eq_refl
    (or_intror (or_intror (ex_intro _ [0; 1] (ex_intro _ "bxy" eq_refl))))
    eq_refl).
Defined.

(** *** The insertion of new nodes *)

(** An atom operation around one command that succeeds. *)
Lemma runAtomOperation_around (g : E unit) s :
  stable g -> (0 <= count s)%Z ->
  snd (g (setCount (count s + 1)%Z s)) = Done tt ->
  snd (runAtomOperation g s) = Done tt
  /\ root (fst (runAtomOperation g s)) = root (fst (g (setCount (count s + 1)%Z s))).
Proof.
  intros Hg Hc Hrun.
  apply (@runAtomOperation_done unit g s (fst (g (setCount (count s + 1)%Z s))) tt Hg Hc).
  destruct (g (setCount (count s + 1)%Z s)) as [s2 r]. cbn [fst snd] in *. subst r.
  reflexivity.
Qed.

Lemma insert_places s node n (before : bool) data :
  (0 <= count s)%Z ->
  getNode (root s) node = Some n ->
  (if before then insertionTargetBefore (root s) node else insertionTarget (root s) node)
    <> [] ->
  snd (runAtomOperation
         (if before then insertBefore node data else insertAfter node data) s) = Done tt
  /\ root (fst (runAtomOperation
                  (if before then insertBefore node data else insertAfter node data) s))
     = modifyChildren
         (removelast (if before then insertionTargetBefore (root s) node
                      else insertionTarget (root s) node))
         (spliceIn (if before
                    then NodeUtils.getSelfIndex (insertionTargetBefore (root s) node)
                    else NodeUtils.getSelfIndex (insertionTarget (root s) node) + 1) data)
         (root s).
Proof.
  intros Hc Hn Ht.
  set (s1 := setCount (count s + 1)%Z s).
  assert (Hc1 : (0 <= count s1)%Z) by (simpl; lia).
  destruct before.
  - destruct (insertBefore_done s1 node data n Hc1 Hn Ht) as [H1 H2].
    destruct (runAtomOperation_around (insertBefore node data) s
                (stable_insertBefore node data) Hc H1) as [H3 H4].
    split; [exact H3 | rewrite H4; exact H2].
  - destruct (@insertAfter_done s1 node data n Hc1 Hn Ht) as [H1 H2].
    destruct (runAtomOperation_around (insertAfter node data) s
                (stable_insertAfter node data) Hc H1) as [H3 H4].
    split; [exact H3 | rewrite H4; exact H2].
Qed.

(** X24: [insert] creates one text node with a space, one new-line node, one
    text node per character of the text given by the user, or one mark
    with the whole text given by the user, and puts them where
    [insertBefore] or [insertAfter] puts them. *)
Theorem insert_places_the_new_nodes
    (prompt : string -> string -> option string) (s : SheetEditorCore)
    (node : NodeRef) (n : SheetNode) (before : bool) (ty : string)
    (newNodes : list SheetNode) :
  (0 <= count s)%Z ->
  getNode (root s) node = Some n ->
  (if before then insertionTargetBefore (root s) node else insertionTarget (root s) node)
    <> [] ->
  (ty = "space" /\ newNodes = [NodeUtils.createTextNode " "])
  \/ (ty = "newline" /\ newNodes = [NodeUtils.createNewLineNode])
  \/ (ty = "text" /\ exists c rest,
        prompt "insert text" "enter the text" = Some (String c rest)
        /\ newNodes = NodeUtils.createTextNodes (String c rest))
  \/ (ty = "mark" /\ exists c rest,
        prompt "insert mark" "enter the mark" = Some (String c rest)
        /\ newNodes = [NodeUtils.createMarkNode (String c rest)]) ->
  snd (insert prompt node ty before s) = Done tt
  /\ root (fst (insert prompt node ty before s))
     = modifyChildren
         (removelast (if before then insertionTargetBefore (root s) node
                      else insertionTarget (root s) node))
         (spliceIn (if before
                    then NodeUtils.getSelfIndex (insertionTargetBefore (root s) node)
                    else NodeUtils.getSelfIndex (insertionTarget (root s) node) + 1)
                   newNodes)
         (root s).
Proof.
  intros Hc Hn Ht Hty.
  pose proof (insert_places s node n before newNodes Hc Hn Ht) as H.
  destruct Hty as [[Hty Hns] | [[Hty Hns] | [[Hty Hp] | [Hty Hp]]]].
  - subst ty newNodes. exact H.
  - subst ty newNodes. exact H.
  - destruct Hp as (c & rest & Hp & Hns). subst ty newNodes.
    unfold insert. cbv zeta. cbn [String.eqb Ascii.eqb Bool.eqb andb].
    rewrite Hp. exact H.
  - destruct Hp as (c & rest & Hp & Hns). subst ty newNodes.
    unfold insert. cbv zeta. cbn [String.eqb Ascii.eqb Bool.eqb andb].
    rewrite Hp. exact H.
Qed.

Lemma insert_places_the_new_nodes_witness :
  children (root (fst (insert (fun _ _ => Some "la") [0; 1] "text" false
     (Sample.editorOf [Sample.underlineOf [Sample.chordNode "a"; Sample.chordNode "b"]]))))
  = [Sample.underlineOf [Sample.chordNode "a"; Sample.chordNode "b"];
     Sample.textNode "l"; Sample.textNode "a"].
Proof.
  exact (f_equal children (proj2 (insert_places_the_new_nodes (fun _ _ => Some "la")
    (Sample.editorOf [Sample.underlineOf [Sample.chordNode "a"; Sample.chordNode "b"]])
    [0; 1] (Sample.chordNode "b") false "text" (NodeUtils.createTextNodes "la")
    (Z.le_refl 0%Z) eq_refl
    (fun H => eq_ind [0] (fun l => match l with [] => False | _ => True end) I [] H)
    (or_intror (or_intror (or_introl
       (conj eq_refl (ex_intro _ "l"%char (ex_intro _ "a" (conj eq_refl eq_refl)))))))))).
Defined.

(** *** The purity rule *)

Lemma hasDescendantOfType_eq ty n :
  hasDescendantOfType ty n
  = existsb (fun c => ENodeType.eqb (type c) ty || hasDescendantOfType ty c) (children n).
Proof. destruct n; reflexivity. Qed.

Lemma invariantI2_eq n :
  invariantI2 n
  = match type n with
    | ENodeType.Underline => negb (hasDescendantOfType ENodeType.ChordPure n)
    | ENodeType.UnderlinePure => negb (hasDescendantOfType ENodeType.Chord n)
    | _ => true
    end && forallb invariantI2 (children n).
Proof. destruct n; reflexivity. Qed.

Lemma purities_inv a b :
  purities a = purities b ->
  type a = type b
  /\ hasDescendantOfType ENodeType.Chord a = hasDescendantOfType ENodeType.Chord b
  /\ hasDescendantOfType ENodeType.ChordPure a = hasDescendantOfType ENodeType.ChordPure b.
Proof. unfold purities. intros H. injection H as H1 H2 H3. auto. Qed.

Lemma hasDescendantOfType_of_children ty t c d cs t' c' d' cs' :
  ty = ENodeType.Chord \/ ty = ENodeType.ChordPure ->
  map purities cs = map purities cs' ->
  hasDescendantOfType ty (mkNode t c d cs) = hasDescendantOfType ty (mkNode t' c' d' cs').
Proof.
  intros Hty H. rewrite !hasDescendantOfType_eq. cbn [children].
  revert cs' H. induction cs as [|x l IH]; intros [|y l'] H; try discriminate H;
    [reflexivity|].
  cbn [map] in H. unfold purities at 1 2 in H. injection H as Ht H1 H2 Hl. cbn [existsb].
  rewrite (IH l' Hl), Ht. destruct Hty as [-> | ->]; [rewrite H1 | rewrite H2]; reflexivity.
Qed.

Lemma purities_of_children t c d cs cs' :
  map purities cs = map purities cs' ->
  purities (mkNode t c d cs) = purities (mkNode t c d cs').
Proof.
  intros H. unfold purities. cbn [type].
  rewrite (hasDescendantOfType_of_children ENodeType.Chord t c d cs t c d cs'
             (or_introl eq_refl) H),
          (hasDescendantOfType_of_children ENodeType.ChordPure t c d cs t c d cs'
             (or_intror eq_refl) H).
  reflexivity.
Qed.

Lemma invariantI2_own n m :
  purities n = purities m ->
  match type n with
  | ENodeType.Underline => negb (hasDescendantOfType ENodeType.ChordPure n)
  | ENodeType.UnderlinePure => negb (hasDescendantOfType ENodeType.Chord n)
  | _ => true
  end
  = match type m with
    | ENodeType.Underline => negb (hasDescendantOfType ENodeType.ChordPure m)
    | ENodeType.UnderlinePure => negb (hasDescendantOfType ENodeType.Chord m)
    | _ => true
    end.
Proof.
  intros H. destruct (purities_inv _ _ H) as (Ht & H1 & H2). rewrite Ht, H1, H2. reflexivity.
Qed.

(** A change deep in the tree that keeps the purities and the purity rule
    of the node it changes keeps those of the whole tree. *)
Lemma purity_rule_modifyNode f : forall p root P,
  getNode root p = Some P ->
  purities (f P) = purities P ->
  (invariantI2 P = true -> invariantI2 (f P) = true) ->
  purities (modifyNode p f root) = purities root
  /\ (invariantI2 root = true -> invariantI2 (modifyNode p f root) = true).
Proof.
  induction p as [|i p IH]; intros root P HP Ha HI; simpl in HP.
  - injection HP as ->. split; assumption.
  - destruct (nth_error (children root) i) as [x|] eqn:Ex; [|discriminate HP].
    destruct (IH x P HP Ha HI) as [IHa IHI].
    destruct root as [t c d cs]. cbn [children] in Ex.
    change (modifyNode (i :: p) f (mkNode t c d cs))
      with (mkNode t c d (modifyNth i (modifyNode p f) cs)).
    assert (Hmap : map purities (modifyNth i (modifyNode p f) cs) = map purities cs).
    { apply map_modifyNth. intros y Hy. rewrite Ex in Hy. injection Hy as <-. exact IHa. }
    pose proof (purities_of_children t c d _ _ Hmap) as Hroot.
    split; [exact Hroot|].
    rewrite !invariantI2_eq. cbn [children]. intros H.
    apply andb_true_iff in H as [Hown Hall]. apply andb_true_iff. split.
    + rewrite (invariantI2_own _ _ Hroot). exact Hown.
    + apply forallb_modifyNth; [|exact Hall].
      intros y Hy. rewrite Ex in Hy. injection Hy as <-. apply IHI.
      rewrite forallb_forall in Hall. apply Hall. eapply nth_error_In. exact Ex.
Qed.

Lemma existsb_chordFree ty data :
  ty = ENodeType.Chord \/ ty = ENodeType.ChordPure ->
  forallb chordFree data = true ->
  existsb (fun c => ENodeType.eqb (type c) ty || hasDescendantOfType ty c) data = false.
Proof.
  intros Hty H. induction data as [|x l IH]; [reflexivity|].
  cbn [forallb] in H. apply andb_true_iff in H as [Hx Hl].
  cbn [existsb]. rewrite (IH Hl), orb_false_r.
  unfold chordFree, NodeUtils.isChord in Hx.
  apply andb_true_iff in Hx as [Hx H2]. apply andb_true_iff in Hx as [H0 H1].
  apply negb_true_iff in H1, H2.
  destruct Hty as [-> | ->]; [rewrite H1 | rewrite H2]; rewrite orb_false_r;
    destruct (type x); try reflexivity; discriminate H0.
Qed.

(** Nodes without chords spliced into the children of a node do not change
    its purities. *)
Lemma purities_spliceIn (P : SheetNode) (k : nat) (data : list SheetNode) :
  forallb chordFree data = true ->
  purities (setChildren (spliceIn k data (children P)) P) = purities P.
Proof.
  intros Hdata. unfold purities. rewrite !hasDescendantOfType_eq.
  cbn [children setChildren type]. unfold spliceIn.
  rewrite !existsb_app.
  rewrite (existsb_chordFree ENodeType.Chord data (or_introl eq_refl) Hdata),
          (existsb_chordFree ENodeType.ChordPure data (or_intror eq_refl) Hdata).
  cbn [orb]. rewrite <- !existsb_app, firstn_skipn. reflexivity.
Qed.

Lemma invariantI2_spliceIn (P : SheetNode) (k : nat) (data : list SheetNode) :
  forallb chordFree data = true ->
  forallb invariantI2 data = true ->
  invariantI2 P = true ->
  invariantI2 (setChildren (spliceIn k data (children P)) P) = true.
Proof.
  intros Hfree Hdata HP.
  pose proof (purities_spliceIn P k data Hfree) as Ha.
  rewrite invariantI2_eq in HP |- *. apply andb_true_iff in HP as [Hown Hall].
  apply andb_true_iff. split.
  - rewrite (invariantI2_own _ _ Ha). exact Hown.
  - rewrite children_setChildren. unfold spliceIn.
    rewrite <- (firstn_skipn k (children P)) in Hall.
    rewrite forallb_app in Hall. apply andb_true_iff in Hall as [H1 H2].
    rewrite !forallb_app, H1, Hdata, H2. reflexivity.
Qed.

Lemma insertAfter_keeps_I2 s node data s' :
  (0 <= count s)%Z ->
  invariantI2 (root s) = true ->
  forallb chordFree data = true -> forallb invariantI2 data = true ->
  insertAfter node data s = (s', Done tt) ->
  invariantI2 (root s') = true.
Proof.
  intros Hc HI Hfree Hdata Hrun.
  destruct (insertAfter_inv s node data s' Hc Hrun) as ((n & Hn) & Ht & ->).
  destruct (insertionTarget_prefix (root s) node) as [r Hr].
  set (target := insertionTarget (root s) node) in *.
  rewrite Hr in Hn. destruct (getNode_prefix target r (root s) Hn) as (tn & Htn & _).
  rewrite (app_removelast_last 0 Ht) in Htn.
  destruct (getNode_prefix _ _ (root s) Htn) as (P & HP & _).
  unfold modifyChildren.
  apply (purity_rule_modifyNode _ _ (root s) P HP).
  - apply purities_spliceIn. exact Hfree.
  - apply invariantI2_spliceIn; assumption.
  - exact HI.
Qed.

Lemma insertBefore_keeps_I2 s node data s' :
  (0 <= count s)%Z ->
  invariantI2 (root s) = true ->
  forallb chordFree data = true -> forallb invariantI2 data = true ->
  insertBefore node data s = (s', Done tt) ->
  invariantI2 (root s') = true.
Proof.
  intros Hc HI Hfree Hdata Hrun.
  destruct (insertBefore_inv s node data s' Hc Hrun) as ((n & Hn) & Ht & ->).
  destruct (insertionTargetBefore_prefix (root s) node) as [r Hr].
  set (target := insertionTargetBefore (root s) node) in *.
  rewrite Hr in Hn. destruct (getNode_prefix target r (root s) Hn) as (tn & Htn & _).
  rewrite (app_removelast_last 0 Ht) in Htn.
  destruct (getNode_prefix _ _ (root s) Htn) as (P & HP & _).
  unfold modifyChildren.
  apply (purity_rule_modifyNode _ _ (root s) P HP).
  - apply purities_spliceIn. exact Hfree.
  - apply invariantI2_spliceIn; assumption.
  - exact HI.
Qed.

Lemma createTextNodes_plain text :
  forallb chordFree (NodeUtils.createTextNodes text) = true
  /\ forallb invariantI2 (NodeUtils.createTextNodes text) = true.
Proof. induction text as [|c rest IH]; [split; reflexivity | exact IH]. Qed.

Lemma setContent_keeps_I2 c node root n :
  getNode root node = Some n ->
  invariantI2 root = true ->
  invariantI2 (modifyNode node (setContent c) root) = true.
Proof.
  intros Hn HI.
  assert (Hp : purities (setContent c n) = purities n).
  { destruct n as [t c0 d cs]. unfold setContent. cbn [type content chord children].
    unfold purities. cbn [type].
    rewrite (hasDescendantOfType_of_children ENodeType.Chord t c d cs t c0 d cs
               (or_introl eq_refl) eq_refl),
            (hasDescendantOfType_of_children ENodeType.ChordPure t c d cs t c0 d cs
               (or_intror eq_refl) eq_refl).
    reflexivity. }
  apply (purity_rule_modifyNode (setContent c) node root n Hn Hp); [|exact HI].
  rewrite (invariantI2_eq (setContent c n)), (invariantI2_eq n).
  rewrite (invariantI2_own _ _ Hp). destruct n; intros H; exact H.
Qed.

Lemma insert_keeps_I2 prompt node ty before s s' :
  (0 <= count s)%Z -> invariantI2 (root s) = true ->
  insert prompt node ty before s = (s', Done tt) ->
  invariantI2 (root s') = true.
Proof.
  intros Hc HI Hrun. unfold insert in Hrun.
  match type of Hrun with
  | runAtomOperation ?f s = _ =>
      assert (Hst : stable f) by solve_stable;
      destruct (@runAtomOperation_done_inv unit f s tt Hst Hc) as (s2 & Hbody & Hroot);
      [rewrite Hrun; reflexivity|]
  end.
  rewrite Hrun in Hroot. cbn [fst] in Hroot. rewrite Hroot. clear Hroot Hrun Hst.
  set (s1 := setCount (count s + 1)%Z s) in *.
  assert (Hc1 : (0 <= count s1)%Z) by (simpl; lia).
  assert (HI1 : invariantI2 (root s1) = true) by exact HI.
  assert (Hplace : forall data,
            forallb chordFree data = true /\ forallb invariantI2 data = true ->
            (if before then insertBefore node data else insertAfter node data) s1
            = (s2, Done tt) -> invariantI2 (root s2) = true).
  { intros data [Hfree Hdata] H. destruct before.
    - exact (insertBefore_keeps_I2 s1 node data s2 Hc1 HI1 Hfree Hdata H).
    - exact (insertAfter_keeps_I2 s1 node data s2 Hc1 HI1 Hfree Hdata H). }
  cbv zeta in Hbody.
  destruct (String.eqb ty "text").
  { destruct (prompt "insert text" "enter the text") as [t|].
    - destruct (String.eqb t "").
      + injection Hbody as <-. exact HI1.
      + apply (Hplace _ (createTextNodes_plain t) Hbody).
    - injection Hbody as <-. exact HI1. }
  destruct (String.eqb ty "space").
  { apply (Hplace _ (createTextNodes_plain " ") Hbody). }
  destruct (String.eqb ty "mark").
  { destruct (prompt "insert mark" "enter the mark") as [t|].
    - destruct (String.eqb t "").
      + injection Hbody as <-. exact HI1.
      + apply (Hplace [NodeUtils.createMarkNode t] (conj eq_refl eq_refl) Hbody).
    - injection Hbody as <-. exact HI1. }
  destruct (String.eqb ty "newline").
  { apply (Hplace [NodeUtils.createNewLineNode] (conj eq_refl eq_refl) Hbody). }
  discriminate Hbody.
Qed.

Lemma updateContent_keeps_I2 node newContent s s' :
  (0 <= count s)%Z -> invariantI2 (root s) = true ->
  updateContent node newContent s = (s', Done tt) ->
  invariantI2 (root s') = true.
Proof.
  intros Hc HI Hrun. unfold updateContent in Hrun.
  match type of Hrun with
  | runAtomOperation ?f s = _ =>
      assert (Hst : stable f) by solve_stable;
      destruct (@runAtomOperation_done_inv unit f s tt Hst Hc) as (s2 & Hbody & Hroot);
      [rewrite Hrun; reflexivity|]
  end.
  rewrite Hrun in Hroot. cbn [fst] in Hroot. rewrite Hroot. clear Hroot Hrun Hst.
  set (s1 := setCount (count s + 1)%Z s) in *.
  inv_bind Hbody. inv_bind Hbody. inv_bind Hbody.
  apply bind_inv in Hbody. destruct Hbody as (s3 & u & Hlen & Hbody).
  assert (s3 = s1) as ->.
  { destruct (ENodeType.eqb (type a) ENodeType.Text || ENodeType.eqb (type a) ENodeType.Chord).
    - apply assert_inv in Hlen. destruct Hlen as [-> _]. reflexivity.
    - injection Hlen as <-. reflexivity. }
  assert (Hset : forall c, invariantI2 (root (setRoot (modifyNode node (setContent c) (root s1)) s1))
                           = true).
  { intros c. cbn [root setRoot]. apply setContent_keeps_I2 with (n := a); assumption. }
  assert (Htext : (x <- modifyRoot (modifyNode node (setContent (firstChar newContent))) ;;
                   (if 0 <? String.length (restChars newContent)
                    then insertAfter node (NodeUtils.createTextNodes (restChars newContent))
                    else ret tt)) s1 = (s2, Done tt) -> invariantI2 (root s2) = true).
  { intros H. inv_bind H.
    destruct (0 <? String.length (restChars newContent)).
    - eapply insertAfter_keeps_I2;
        [| apply Hset | apply createTextNodes_plain | apply createTextNodes_plain | exact H].
      simpl. lia.
    - injection H as <-. apply Hset. }
  destruct (type a); try (injection Hbody as <-; exact HI); try (exact (Htext Hbody)).
  apply modifyRoot_inv in Hbody. subst s2. apply Hset.
Qed.

(** X25: the insertions of nodes without chords keep the purity rule
    (invariant I2): when it holds in the tree, it holds again after a
    successful [insert] or [updateContent], and after a successful
    [insertAfter] or [insertBefore] of nodes that satisfy it and have no
    chord in them. *)
Theorem insertions_without_chords_keep_the_purity_rule
    (c : E unit) (s s' : SheetEditorCore) :
  (0 <= count s)%Z ->
  invariantI2 (root s) = true ->
  (exists node data, forallb chordFree data = true /\ forallb invariantI2 data = true
                     /\ (c = insertAfter node data \/ c = insertBefore node data))
  \/ (exists prompt node ty before, c = insert prompt node ty before)
  \/ (exists node newContent, c = updateContent node newContent) ->
  c s = (s', Done tt) ->
  invariantI2 (root s') = true.
Proof.
  intros Hc HI [(node & data & Hfree & Hdata & [-> | ->])
               | [(prompt & node & ty & before & ->) | (node & newContent & ->)]] Hrun.
  - exact (insertAfter_keeps_I2 s node data s' Hc HI Hfree Hdata Hrun).
  - exact (insertBefore_keeps_I2 s node data s' Hc HI Hfree Hdata Hrun).
  - exact (insert_keeps_I2 prompt node ty before s s' Hc HI Hrun).
  - exact (updateContent_keeps_I2 node newContent s s' Hc HI Hrun).
Qed.

Lemma insertions_without_chords_keep_the_purity_rule_witness :
  invariantI2 (root (fst (insert (fun _ _ => Some "la") [0; 0] "text" false
     (Sample.editorOf [mkNode ENodeType.UnderlinePure "" None
                         [Sample.pureNode "a"; Sample.pureNode "b"]]))))
  = true.
Proof.
  exact (insertions_without_chords_keep_the_purity_rule
    (insert (fun _ _ => Some "la") [0; 0] "text" false)
    (Sample.editorOf [mkNode ENodeType.UnderlinePure "" None
                        [Sample.pureNode "a"; Sample.pureNode "b"]]) _
    (Z.le_refl 0%Z) eq_refl
    (or_intror (or_introl (ex_intro _ (fun _ _ => Some "la")
       (ex_intro _ [0; 0] (ex_intro _ "text" (ex_intro _ false eq_refl))))))
    eq_refl).
Defined.

(** ** Extension and merge of underlines *)

Lemma addUnderlineForChord_computed s chordNode s2 :
  (0 <= count s)%Z ->
  (let f := n <- deref chordNode ;;
            assert (NodeUtils.isChord n) "only a chord can get an underline" ;;
            r <- gets root ;;
            match NodeUtils.findNextNodeByType r chordNode (type n) with
            | None => raise "cannot add an underline: no next chord"
            | Some nextChordNode =>
                if option_ref_eqb (NodeUtils.parent chordNode) (NodeUtils.parent nextChordNode)
                then addUnderline_sameLevel chordNode nextChordNode
                else if NodeUtils.includes (NodeUtils.parentsOf chordNode)
                                           (NodeUtils.parent nextChordNode)
                then addUnderline_extendForward chordNode nextChordNode
                else if NodeUtils.includes (NodeUtils.parentsOf nextChordNode)
                                           (NodeUtils.parent chordNode)
                then addUnderline_extendBackward chordNode nextChordNode
                else addUnderline_merge chordNode nextChordNode
            end in
   f (setCount (count s + 1)%Z s) = (s2, Done tt)) ->
  snd (addUnderlineForChord chordNode s) = Done tt
  /\ root (fst (addUnderlineForChord chordNode s)) = root s2.
Proof.
  intros Hc Hrun. cbv zeta in Hrun. unfold addUnderlineForChord.
  match goal with
  | |- snd (runAtomOperation ?f s) = _ /\ _ =>
      assert (Hst : stable f)
        by (unfold addUnderline_sameLevel, addUnderline_extendForward,
              addUnderline_extendBackward, addUnderline_merge; solve_stable);
      exact (@runAtomOperation_done unit f s s2 tt Hst Hc Hrun)
  end.
Qed.

(** X26: the other three cases of the addition, on the smallest trees that show
    them, for chords of any content and chord data: next to an underline
    that ends with the chord, the next chord is taken into the underline;
    a chord before an underline that begins with the next chord is taken
    into it; two neighbouring underlines of the same tag become one new
    underline with the children of both. *)
Theorem addUnderline_extends_and_merges
    (s : SheetEditorCore) (ty ut rt : ENodeType.t) (rc uc uc' c1 c2 c3 c4 : string)
    (rd ud ud' d1 d2 d3 d4 : option ChordData) :
  ty = ENodeType.Chord \/ ty = ENodeType.ChordPure ->
  ut = ENodeType.Underline \/ ut = ENodeType.UnderlinePure ->
  (0 <= count s)%Z ->
  (root s = mkNode rt rc rd [mkNode ut uc ud [mkNode ty c1 d1 []; mkNode ty c2 d2 []];
                             mkNode ty c3 d3 []] ->
   snd (addUnderlineForChord [0; 1] s) = Done tt
   /\ children (root (fst (addUnderlineForChord [0; 1] s)))
      = [mkNode ut uc ud [mkNode ty c1 d1 []; mkNode ty c2 d2 []; mkNode ty c3 d3 []]])
  /\ (root s = mkNode rt rc rd [mkNode ty c1 d1 [];
                                mkNode ut uc ud [mkNode ty c2 d2 []; mkNode ty c3 d3 []]] ->
      snd (addUnderlineForChord [0] s) = Done tt
      /\ children (root (fst (addUnderlineForChord [0] s)))
         = [mkNode ut uc ud [mkNode ty c1 d1 []; mkNode ty c2 d2 []; mkNode ty c3 d3 []]])
  /\ (root s = mkNode rt rc rd [mkNode ut uc ud [mkNode ty c1 d1 []; mkNode ty c2 d2 []];
                                mkNode ut uc' ud' [mkNode ty c3 d3 []; mkNode ty c4 d4 []]] ->
      snd (addUnderlineForChord [0; 1] s) = Done tt
      /\ children (root (fst (addUnderlineForChord [0; 1] s)))
         = [mkNode ut "" None [mkNode ty c1 d1 []; mkNode ty c2 d2 [];
                               mkNode ty c3 d3 []; mkNode ty c4 d4 []]]).
Proof.
  intros Hty Hut Hc.
  split; [|split]; intros Hroot.
  - assert (Hbody : exists s2,
      root s2 = mkNode rt rc rd
                  [mkNode ut uc ud [mkNode ty c1 d1 []; mkNode ty c2 d2 []; mkNode ty c3 d3 []]]
      /\ snd (addUnderlineForChord [0; 1] s) = Done tt
      /\ root (fst (addUnderlineForChord [0; 1] s)) = root s2).
    { destruct s as [m r h c]. simpl in Hroot. subst r.
      destruct Hty as [-> | ->], Hut as [-> | ->];
        eexists; (split; [|apply addUnderlineForChord_computed; [exact Hc|];
                           cbv - [Z.add]; reflexivity]); reflexivity. }
    destruct Hbody as (s2 & Hr & H1 & H2). split; [exact H1 | rewrite H2, Hr; reflexivity].
  - assert (Hbody : exists s2,
      root s2 = mkNode rt rc rd
                  [mkNode ut uc ud [mkNode ty c1 d1 []; mkNode ty c2 d2 []; mkNode ty c3 d3 []]]
      /\ snd (addUnderlineForChord [0] s) = Done tt
      /\ root (fst (addUnderlineForChord [0] s)) = root s2).
    { destruct s as [m r h c]. simpl in Hroot. subst r.
      destruct Hty as [-> | ->], Hut as [-> | ->];
        eexists; (split; [|apply addUnderlineForChord_computed; [exact Hc|];
                           cbv - [Z.add]; reflexivity]); reflexivity. }
    destruct Hbody as (s2 & Hr & H1 & H2). split; [exact H1 | rewrite H2, Hr; reflexivity].
  - assert (Hbody : exists s2,
      root s2 = mkNode rt rc rd
                  [mkNode ut "" None [mkNode ty c1 d1 []; mkNode ty c2 d2 [];
                                      mkNode ty c3 d3 []; mkNode ty c4 d4 []]]
      /\ snd (addUnderlineForChord [0; 1] s) = Done tt
      /\ root (fst (addUnderlineForChord [0; 1] s)) = root s2).
    { destruct s as [m r h c]. simpl in Hroot. subst r.
      destruct Hty as [-> | ->], Hut as [-> | ->];
        eexists; (split; [|apply addUnderlineForChord_computed; [exact Hc|];
                           cbv - [Z.add]; reflexivity]); reflexivity. }
    destruct Hbody as (s2 & Hr & H1 & H2). split; [exact H1 | rewrite H2, Hr; reflexivity].
Qed.

Lemma addUnderline_extends_and_merges_witness :
  children (root (fst (addUnderlineForChord [0; 1]
     (Sample.editorOf [Sample.underlineOf [Sample.chordNode "a"; Sample.chordNode "b"];
                       Sample.chordNode "c"]))))
  = [Sample.underlineOf [Sample.chordNode "a"; Sample.chordNode "b"; Sample.chordNode "c"]]
  /\ children (root (fst (addUnderlineForChord [0]
        (Sample.editorOf [Sample.chordNode "a";
                          Sample.underlineOf [Sample.chordNode "b"; Sample.chordNode "c"]]))))
     = [Sample.underlineOf [Sample.chordNode "a"; Sample.chordNode "b"; Sample.chordNode "c"]]
  /\ children (root (fst (addUnderlineForChord [0; 1]
        (Sample.editorOf [Sample.underlineOf [Sample.chordNode "a"; Sample.chordNode "b"];
                          Sample.underlineOf [Sample.chordNode "c"; Sample.chordNode "d"]]))))
     = [Sample.underlineOf [Sample.chordNode "a"; Sample.chordNode "b";
                            Sample.chordNode "c"; Sample.chordNode "d"]].
Proof.
  split; [|split].
  - exact (proj2 (proj1 (addUnderline_extends_and_merges
      (Sample.editorOf [Sample.underlineOf [Sample.chordNode "a"; Sample.chordNode "b"];
                        Sample.chordNode "c"])
      ENodeType.Chord ENodeType.Underline ENodeType.Root "" "" "" "a" "b" "c" "d"
      None None None (Some 0%Z) (Some 0%Z) (Some 0%Z) (Some 0%Z)
      (or_introl eq_refl) (or_introl eq_refl) (Z.le_refl 0%Z)) eq_refl)).
  - exact (proj2 (proj1 (proj2 (addUnderline_extends_and_merges
      (Sample.editorOf [Sample.chordNode "a";
                        Sample.underlineOf [Sample.chordNode "b"; Sample.chordNode "c"]])
      ENodeType.Chord ENodeType.Underline ENodeType.Root "" "" "" "a" "b" "c" "d"
      None None None (Some 0%Z) (Some 0%Z) (Some 0%Z) (Some 0%Z)
      (or_introl eq_refl) (or_introl eq_refl) (Z.le_refl 0%Z))) eq_refl)).
  - exact (proj2 (proj2 (proj2 (addUnderline_extends_and_merges
      (Sample.editorOf [Sample.underlineOf [Sample.chordNode "a"; Sample.chordNode "b"];
                        Sample.underlineOf [Sample.chordNode "c"; Sample.chordNode "d"]])
      ENodeType.Chord ENodeType.Underline ENodeType.Root "" "" "" "a" "b" "c" "d"
      None None None (Some 0%Z) (Some 0%Z) (Some 0%Z) (Some 0%Z)
      (or_introl eq_refl) (or_introl eq_refl) (Z.le_refl 0%Z))) eq_refl)).
Defined.

(** ** Addition and removal of an underline, one after the other *)

Lemma nth_error_at {A} (a : list A) x b i :
  i = List.length a -> nth_error (a ++ x :: b) i = Some x.
Proof. intros ->. rewrite nth_error_app2, Nat.sub_diag by lia. reflexivity. Qed.

Lemma nth_error_at_next {A} (a : list A) x y b i :
  i = List.length a -> nth_error (a ++ x :: y :: b) (S i) = Some y.
Proof.
  intros ->. rewrite nth_error_app2 by lia.
  replace (S (List.length a) - List.length a) with 1 by lia. reflexivity.
Qed.

Lemma skipn_nth_error {A} (l : list A) j y :
  nth_error l j = Some y -> exists l', skipn j l = y :: l'.
Proof.
  revert l. induction j as [|j IH]; intros [|z l] H; simpl in *; try discriminate.
  - injection H as ->. eauto.
  - apply IH. exact H.
Qed.

(** The traversal from a leaf visits its next sibling first. *)
Lemma refsAfter_leaf_head : forall q root P k x y,
  getNode root q = Some P ->
  nth_error (children P) k = Some x -> children x = [] ->
  nth_error (children P) (S k) = Some y ->
  exists rest, NodeUtils.refsAfter root (q ++ [k]) = (q ++ [S k]) :: rest.
Proof.
  induction q as [|i q IH]; intros root P k x y HP Hx Hleaf Hy.
  - simpl in HP. injection HP as ->. cbn [app NodeUtils.refsAfter]. rewrite Hx.
    cbn [NodeUtils.refsAfter]. rewrite Hleaf. cbn [NodeUtils.preorderRefsList map app].
    destruct (skipn_nth_error _ _ _ Hy) as [l ->]. cbn [NodeUtils.preorderRefsList].
    destruct y as [ty cy dy csy]. cbn [NodeUtils.preorderRefs map app]. eauto.
  - simpl in HP. destruct (nth_error (children root) i) as [c|] eqn:Ec; [|discriminate HP].
    destruct (IH c P k x y HP Hx Hleaf Hy) as [rest Hrest].
    cbn [app NodeUtils.refsAfter]. rewrite Ec, Hrest. cbn [map app]. eauto.
Qed.

Lemma findNextNodeByType_next_sibling ty P k x y :
  nth_error (children P) k = Some x -> children x = [] ->
  nth_error (children P) (S k) = Some y -> type y = ty ->
  NodeUtils.findNextNodeByType P [k] ty = Some [S k].
Proof.
  intros Hx Hleaf Hy Hty.
  cbn [NodeUtils.findNextNodeByType]. rewrite Hx, Hleaf. cbn [NodeUtils.findInList].
  destruct (skipn_nth_error _ _ _ Hy) as [l ->]. cbn [NodeUtils.findInList].
  rewrite findIn_eq, Hty, ENodeType_eqb_refl. reflexivity.
Qed.

Lemma modifyChildren_same g p root n :
  getNode root p = Some n -> g (children n) = children n -> modifyChildren p g root = root.
Proof.
  intros Hn Hg.
  rewrite (@modifyChildren_ext_at p g (fun cs => cs) root n Hn Hg).
  unfold modifyChildren. apply modifyNode_id. intros x. apply setChildren_children.
Qed.

(** The addition at a chord whose next sibling is a chord of the same
    purity wraps the two chords in a new underline of that purity. *)
Lemma addUnderline_adjacent s q P pre post ty c1 c2 d1 d2 :
  (0 <= count s)%Z ->
  ty = ENodeType.Chord \/ ty = ENodeType.ChordPure ->
  getNode (root s) q = Some P ->
  children P = pre ++ mkNode ty c1 d1 [] :: mkNode ty c2 d2 [] :: post ->
  snd (addUnderlineForChord (q ++ [List.length pre]) s) = Done tt
  /\ root (fst (addUnderlineForChord (q ++ [List.length pre]) s))
     = modifyChildren q
         (fun _ => pre ++ mkNode (match ty with
                                  | ENodeType.ChordPure => ENodeType.UnderlinePure
                                  | _ => ENodeType.Underline
                                  end) "" None [mkNode ty c1 d1 []; mkNode ty c2 d2 []]
                       :: post)
         (root s).
Proof.
  intros Hc Hty HP Hcs.
  set (k := List.length pre) in *.
  set (C1 := mkNode ty c1 d1 []) in *. set (C2 := mkNode ty c2 d2 []) in *.
  set (s1 := setCount (count s + 1)%Z s).
  assert (Hk1 : nth_error (children P) k = Some C1).
  { rewrite Hcs. apply nth_error_at. reflexivity. }
  assert (Hk2 : nth_error (children P) (S k) = Some C2).
  { rewrite Hcs. apply nth_error_at_next. reflexivity. }
  assert (H1 : getNode (root s1) (q ++ [k]) = Some C1).
  { rewrite getNode_snoc. change (root s1) with (root s). rewrite HP. exact Hk1. }
  assert (H2 : getNode (root s1) (q ++ [S k]) = Some C2).
  { rewrite getNode_snoc. change (root s1) with (root s). rewrite HP. exact Hk2. }
  assert (Hchord : NodeUtils.isChord C1 = true /\ NodeUtils.isChord C2 = true).
  { destruct Hty as [-> | ->]; split; reflexivity. }
  assert (Hnext : NodeUtils.findNextNodeByType (root s1) (q ++ [k]) ty = Some (q ++ [S k])).
  { apply findNextNodeByType_context with (n := P); [exact HP|].
    apply findNextNodeByType_next_sibling with (x := C1) (y := C2);
      [exact Hk1 | reflexivity | exact Hk2 | reflexivity]. }
  destruct (refsAfter_leaf_head q (root s1) P k C1 C2 HP Hk1 eq_refl Hk2) as [rest Hrest].
  apply addUnderlineForChord_computed with
    (s2 := setRoot (modifyChildren q
             (fun _ => pre ++ mkNode (match ty with
                                      | ENodeType.ChordPure => ENodeType.UnderlinePure
                                      | _ => ENodeType.Underline
                                      end) "" None [C1; C2] :: post) (root s)) s1);
    [exact Hc|].
  cbv zeta. fold s1.
  rewrite bind_eq, (@deref_ok s1 _ _ H1).
  rewrite bind_eq, (proj1 Hchord). cbn [assert ret].
  rewrite bind_eq. unfold gets at 1. cbv beta.
  change (type C1) with ty. rewrite Hnext.
  rewrite !parent_snoc. cbn [option_ref_eqb]. rewrite ref_eqb_refl.
  unfold addUnderline_sameLevel.
  rewrite bind_eq, parentOf_ok.
  rewrite bind_eq, (@deref_ok s1 q P HP).
  rewrite !getSelfIndex_snoc.
  assert (Hbetween : NodeUtils.getSiblingBetween (children P) k (S k) true true = [C1; C2]).
  { unfold NodeUtils.getSiblingBetween. rewrite Hcs.
    rewrite slice_at by reflexivity.
    replace (S (S k) - k) with 2 by lia. reflexivity. }
  rewrite Hbetween. rewrite bind_eq. cbn [List.length Nat.leb assert ret].
  assert (Hends : __assertBeginAndEnd [C1; C2] s1 = (s1, Done tt)).
  { unfold __assertBeginAndEnd. destruct Hty as [-> | ->]; reflexivity. }
  rewrite bind_eq, Hends.
  rewrite bind_eq. unfold gets at 1. cbv beta.
  assert (Htrav : NodeUtils.traverseForward (root s1) (q ++ [k]) false
                    (purityCallback (q ++ [S k])) (false, false)
                  = (ENodeType.eqb ty ENodeType.Chord, ENodeType.eqb ty ENodeType.ChordPure)).
  { unfold NodeUtils.traverseForward. cbn [app]. rewrite Hrest.
    cbn [NodeUtils.visitRefs]. rewrite H2.
    unfold purityCallback. rewrite ref_eqb_refl. reflexivity. }
  rewrite Htrav.
  assert (Hpure : negb (ENodeType.eqb ty ENodeType.Chord && ENodeType.eqb ty ENodeType.ChordPure)
                  = true)
    by (destruct Hty as [-> | ->]; reflexivity).
  rewrite bind_eq, Hpure. cbn [assert ret].
  enough (Hroot :
    modifyNode (q ++ [k]) (append [C1; C2])
      (modifyChildren q (spliceOut (S k) 2)
         (modifyChildren q
            (spliceIn k [NodeUtils.createUnderlineNode (ENodeType.eqb ty ENodeType.ChordPure)])
            (root s)))
    = modifyChildren q
        (fun _ => pre ++ mkNode (match ty with
                                 | ENodeType.ChordPure => ENodeType.UnderlinePure
                                 | _ => ENodeType.Underline
                                 end) "" None [C1; C2] :: post) (root s))
    by (unfold bind, modifyRoot, modify; rewrite <- Hroot; reflexivity).
  rewrite modifyNode_snoc, !modifyChildren_compose.
  apply modifyChildren_ext_at with (n := P); [exact HP|].
  rewrite Hcs.
  rewrite spliceIn_at by reflexivity.
  change (pre ++ [NodeUtils.createUnderlineNode (ENodeType.eqb ty ENodeType.ChordPure)]
              ++ C1 :: C2 :: post)
    with (pre ++ NodeUtils.createUnderlineNode (ENodeType.eqb ty ENodeType.ChordPure)
              :: C1 :: C2 :: post).
  rewrite cons_as_app.
  rewrite spliceOut_at by (rewrite length_app; simpl; fold k; lia).
  cbn [skipn]. rewrite <- app_assoc. cbn [app].
  rewrite modifyNth_at by reflexivity.
  destruct Hty as [-> | ->]; reflexivity.
Qed.

(** The removal at the first chord of an underline that holds exactly two
    chords dissolves the underline: the two chords take its place. *)
Lemma removeUnderline_of_two s q k u ty c1 c2 d1 d2 :
  (0 <= count s)%Z ->
  ty = ENodeType.Chord \/ ty = ENodeType.ChordPure ->
  getNode (root s) (q ++ [k]) = Some u ->
  NodeUtils.isUnderline u = true ->
  children u = [mkNode ty c1 d1 []; mkNode ty c2 d2 []] ->
  snd (removeUnderlineFromChordToNext ((q ++ [k]) ++ [0]) s) = Done tt
  /\ root (fst (removeUnderlineFromChordToNext ((q ++ [k]) ++ [0]) s))
     = modifyChildren q (replaceAt k [mkNode ty c1 d1 []; mkNode ty c2 d2 []]) (root s).
Proof.
  intros Hc Hty Hu Hul Hch.
  set (U := q ++ [k]) in *.
  set (s1 := setCount (count s + 1)%Z s).
  assert (Hr1 : root s1 = root s) by reflexivity.
  assert (H0 : getNode (root s1) (U ++ [0]) = Some (mkNode ty c1 d1 [])).
  { rewrite getNode_snoc, Hr1, Hu, Hch. reflexivity. }
  assert (Hchord : forall c d, NodeUtils.isChord (mkNode ty c d []) = true).
  { intros c d. destruct Hty as [-> | ->]; reflexivity. }
  assert (Hnext : NodeUtils.findNextNodeByType (root s1) (U ++ [0]) ty = Some (U ++ [1])).
  { apply findNextNodeByType_context with (n := u); [exact Hu|].
    destruct u as [tu cu du chs]. simpl in Hch. subst chs.
    simpl. rewrite ENodeType_eqb_refl. reflexivity. }
  unfold removeUnderlineFromChordToNext.
  match goal with
  | |- snd (runAtomOperation ?f s) = _ /\ _ =>
      assert (Hst : stable f)
        by (unfold removeUnderline_dissolve, removeUnderline_shrinkTail,
              removeUnderline_shrinkHead, removeUnderline_split; solve_stable);
      apply (@runAtomOperation_done unit f s
               (setRoot (modifyChildren q
                           (replaceAt k [mkNode ty c1 d1 []; mkNode ty c2 d2 []]) (root s)) s1)
               tt Hst Hc)
  end.
  fold s1.
  rewrite bind_eq, (@deref_ok s1 _ _ H0).
  rewrite bind_eq, Hchord. cbn [assert ret].
  rewrite bind_eq, parentOf_ok.
  rewrite bind_eq. unfold gets at 1. cbv beta.
  rewrite bind_eq, (@parentIsUnderline_snoc (root s1) U 0 u Hu), Hul. cbn [assert ret].
  rewrite bind_eq, (@isLastChild_snoc (root s1) U 0 u Hu), Hch.
  cbn [assert ret negb Nat.eqb List.length].
  cbn [type]. rewrite Hnext.
  rewrite commonAncestor_siblings.
  rewrite bind_eq, (@deref_ok s1 U u Hu).
  rewrite bind_eq, Hul. cbn [assert ret].
  rewrite bind_eq. cbn [assert ret].
  unfold NodeUtils.isFirstChild. rewrite getSelfIndex_snoc.
  rewrite (@isLastChild_snoc (root s1) U 1 u Hu), Hch.
  cbn [Nat.eqb List.length andb negb].
  unfold removeUnderline_dissolve.
  rewrite bind_eq, (@deref_ok s1 U u Hu).
  rewrite bind_eq. change (parentOf U) with (parentOf (q ++ [k])). rewrite parentOf_ok.
  change (NodeUtils.getSelfIndex U) with (NodeUtils.getSelfIndex (q ++ [k])).
  rewrite getSelfIndex_snoc, Hch. reflexivity.
Qed.

Lemma runAtomOperation_count {A} (f : E A) s :
  stable f -> (0 <= count s)%Z -> count (fst (runAtomOperation f s)) = count s.
Proof.
  intros Hf Hc. destruct (Z.eq_dec (count s) 0) as [H0|H0].
  - rewrite runAtomOperation_outer by assumption.
    destruct (f (setCount 1%Z s)) as [s2 [a|e]]; simpl; congruence.
  - rewrite runAtomOperation_nested by (assumption || lia).
    destruct (f (setCount (count s + 1)%Z s)) as [s2 [a|e]]; reflexivity.
Qed.

(** X27: round trip: the addition of an underline at a chord whose next sibling
    is a chord of the same purity, anywhere in the tree, wraps the two
    chords in a new underline of their purity, and the removal at the
    first chord right after it gives back the very tree from before. *)
Theorem add_then_remove_underline_round_trip
    (s : SheetEditorCore) (q : NodeRef) (P : SheetNode) (pre post : list SheetNode)
    (ty : ENodeType.t) (c1 c2 : string) (d1 d2 : option ChordData) :
  (0 <= count s)%Z ->
  ty = ENodeType.Chord \/ ty = ENodeType.ChordPure ->
  getNode (root s) q = Some P ->
  children P = pre ++ mkNode ty c1 d1 [] :: mkNode ty c2 d2 [] :: post ->
  snd (addUnderlineForChord (q ++ [List.length pre]) s) = Done tt
  /\ root (fst (addUnderlineForChord (q ++ [List.length pre]) s))
     = modifyChildren q
         (fun _ => pre ++ mkNode (match ty with
                                  | ENodeType.ChordPure => ENodeType.UnderlinePure
                                  | _ => ENodeType.Underline
                                  end) "" None [mkNode ty c1 d1 []; mkNode ty c2 d2 []]
                       :: post)
         (root s)
  /\ snd (removeUnderlineFromChordToNext ((q ++ [List.length pre]) ++ [0])
            (fst (addUnderlineForChord (q ++ [List.length pre]) s))) = Done tt
  /\ root (fst (removeUnderlineFromChordToNext ((q ++ [List.length pre]) ++ [0])
                  (fst (addUnderlineForChord (q ++ [List.length pre]) s))))
     = root s.
Proof.
  intros Hc Hty HP Hcs.
  destruct (addUnderline_adjacent s q P pre post ty c1 c2 d1 d2 Hc Hty HP Hcs) as [Ha1 Ha2].
  set (s' := fst (addUnderlineForChord (q ++ [List.length pre]) s)) in *.
  set (U := mkNode (match ty with
                    | ENodeType.ChordPure => ENodeType.UnderlinePure
                    | _ => ENodeType.Underline
                    end) "" None [mkNode ty c1 d1 []; mkNode ty c2 d2 []]) in *.
  assert (Hc' : (0 <= count s')%Z).
  { unfold s', addUnderlineForChord. rewrite runAtomOperation_count;
      [exact Hc | | exact Hc].
    unfold addUnderline_sameLevel, addUnderline_extendForward,
      addUnderline_extendBackward, addUnderline_merge; solve_stable. }
  assert (HU : getNode (root s') (q ++ [List.length pre]) = Some U).
  { rewrite Ha2, getNode_snoc, getNode_modifyChildren, HP. cbn [option_map].
    rewrite children_setChildren. apply nth_error_at. reflexivity. }
  assert (Hul : NodeUtils.isUnderline U = true) by (destruct Hty as [-> | ->]; reflexivity).
  destruct (removeUnderline_of_two s' q (List.length pre) U ty c1 c2 d1 d2
              Hc' Hty HU Hul eq_refl) as [Hr1 Hr2].
  split; [exact Ha1 | split; [exact Ha2 | split; [exact Hr1|]]].
  rewrite Hr2, Ha2, modifyChildren_compose.
  apply modifyChildren_same with (n := P); [exact HP|].
  rewrite Hcs. apply replaceAt_at. reflexivity.
Qed.

Lemma add_then_remove_underline_round_trip_witness :
  root (fst (removeUnderlineFromChordToNext [1; 0]
               (fst (addUnderlineForChord [1]
                       (Sample.editorOf [Sample.textNode "t"; Sample.pureNode "a";
                                         Sample.pureNode "b"; Sample.textNode "u"])))))
  = Sample.rootOf [Sample.textNode "t"; Sample.pureNode "a";
                   Sample.pureNode "b"; Sample.textNode "u"].
Proof.
  exact (proj2 (proj2 (proj2 (add_then_remove_underline_round_trip
    (Sample.editorOf [Sample.textNode "t"; Sample.pureNode "a";
                      Sample.pureNode "b"; Sample.textNode "u"])
    [] (Sample.rootOf [Sample.textNode "t"; Sample.pureNode "a";
                       Sample.pureNode "b"; Sample.textNode "u"])
    [Sample.textNode "t"] [Sample.textNode "u"] ENodeType.ChordPure "a" "b"
    (Some 0%Z) (Some 0%Z) (Z.le_refl 0%Z) (or_intror eq_refl) eq_refl eq_refl)))).
Defined.

(** ** The edition of a run of texts *)

Lemma textRun_app a b :
  allTexts a = true -> noTextAhead b = true -> textRun (a ++ b) = List.length a.
Proof.
  intros Ha Hb. induction a as [|x a IH]; simpl in *.
  - destruct b as [|y b]; [reflexivity|]. simpl in *.
    destruct (ENodeType.eqb (type y) ENodeType.Text); [discriminate Hb | reflexivity].
  - apply andb_true_iff in Ha as [Hx Ha]. rewrite Hx, (IH Ha). reflexivity.
Qed.

Lemma allTexts_rev a : allTexts a = true -> allTexts (rev a) = true.
Proof.
  unfold allTexts. rewrite !forallb_forall. intros H x Hx. apply H, in_rev. exact Hx.
Qed.

Lemma edit_run_lists {A} (l1 run1 : list A) (n : A) (run2 l2 new : list A) :
  spliceOut (List.length l1 + List.length new) (List.length run2)
    (spliceOut (List.length l1) (List.length run1 + 1)
       (spliceIn (List.length l1 + List.length run1 + 1) new
          (l1 ++ run1 ++ n :: run2 ++ l2)))
  = l1 ++ new ++ l2.
Proof.
  replace (l1 ++ run1 ++ n :: run2 ++ l2) with ((l1 ++ run1 ++ [n]) ++ run2 ++ l2)
    by (rewrite <- !app_assoc; reflexivity).
  rewrite spliceIn_at by (rewrite !length_app; simpl; lia).
  rewrite <- !app_assoc.
  rewrite spliceOut_at by reflexivity.
  replace (run1 ++ [n] ++ new ++ run2 ++ l2) with ((run1 ++ [n]) ++ new ++ run2 ++ l2)
    by (rewrite <- !app_assoc; reflexivity).
  rewrite skipn_at by (rewrite length_app; simpl; lia).
  replace (l1 ++ new ++ run2 ++ l2) with ((l1 ++ new) ++ run2 ++ l2)
    by (rewrite <- !app_assoc; reflexivity).
  rewrite spliceOut_at by (rewrite length_app; lia).
  rewrite skipn_at by reflexivity.
  rewrite <- app_assoc. reflexivity.
Qed.

(** X28: the edition replaces the node and the texts next to it on both sides,
    up to the first sibling that is not a text, by one text node per
    character of the text the user gives; the user is shown the contents
    of the replaced nodes, in order. *)
Theorem editTextWithNeighbor_replaces_the_run
    (prompt : string -> string -> option string) (s : SheetEditorCore)
    (par : NodeRef) (P n : SheetNode) (l1 run1 run2 l2 : list SheetNode)
    (c : ascii) (rest : string) :
  (0 <= count s)%Z ->
  getNode (root s) par = Some P ->
  children P = l1 ++ run1 ++ n :: run2 ++ l2 ->
  allTexts run1 = true -> allTexts run2 = true ->
  noTextAhead (rev l1) = true -> noTextAhead l2 = true ->
  prompt "edit text"
    (String.append (String.concat "" (map content run1))
       (String.append (content n) (String.concat "" (map content run2))))
  = Some (String c rest) ->
  snd (editTextWithNeighbor prompt (Some (par ++ [List.length l1 + List.length run1])) s)
  = Done tt
  /\ root (fst (editTextWithNeighbor prompt
                  (Some (par ++ [List.length l1 + List.length run1])) s))
     = modifyChildren par
         (fun _ => l1 ++ NodeUtils.createTextNodes (String c rest) ++ l2) (root s).
Proof.
  intros Hc HP Hcs Hr1 Hr2 Hl1 Hl2 Hprompt.
  set (i := List.length l1 + List.length run1).
  set (s1 := setCount (count s + 1)%Z s).
  assert (Hn : getNode (root s1) (par ++ [i]) = Some n).
  { rewrite getNode_snoc. change (root s1) with (root s). rewrite HP, Hcs.
    rewrite app_assoc. apply nth_error_at. rewrite length_app. reflexivity. }
  assert (Hfirst : firstn i (children P) = l1 ++ run1).
  { rewrite Hcs, app_assoc. apply firstn_at. rewrite length_app. reflexivity. }
  assert (Hskip : skipn (S i) (children P) = run2 ++ l2).
  { rewrite Hcs.
    replace (l1 ++ run1 ++ n :: run2 ++ l2) with ((l1 ++ run1 ++ [n]) ++ run2 ++ l2)
      by (rewrite <- !app_assoc; reflexivity).
    apply skipn_at. rewrite !length_app. simpl. unfold i. lia. }
  assert (Hbefore : textRun (rev (firstn i (children P))) = List.length run1).
  { rewrite Hfirst, rev_app_distr, textRun_app, length_rev;
      [reflexivity | apply allTexts_rev; exact Hr1 | exact Hl1]. }
  assert (Hafter : textRun (skipn (S i) (children P)) = List.length run2).
  { rewrite Hskip. apply textRun_app; assumption. }
  assert (Hs1 : slice (i - List.length run1) i (children P) = run1).
  { rewrite Hcs. replace (i - List.length run1) with (List.length l1) by (unfold i; lia).
    rewrite slice_at by reflexivity.
    replace (i - List.length l1) with (List.length run1) by (unfold i; lia).
    apply firstn_at. reflexivity. }
  assert (Hs2 : slice (S i) (S i + List.length run2) (children P) = run2).
  { unfold slice. rewrite Hskip.
    replace (S i + List.length run2 - S i) with (List.length run2) by lia.
    apply firstn_at. reflexivity. }
  unfold editTextWithNeighbor.
  match goal with
  | |- snd (runAtomOperation ?f s) = _ /\ _ =>
      assert (Hst : stable f) by solve_stable;
      apply (@runAtomOperation_done unit f s
               (setRoot (modifyChildren par
                           (fun _ => l1 ++ NodeUtils.createTextNodes (String c rest) ++ l2)
                           (root s)) s1)
               tt Hst Hc)
  end.
  fold s1.
  rewrite bind_eq, (@deref_ok s1 _ _ Hn).
  rewrite bind_eq. unfold gets at 1. cbv beta zeta.
  rewrite parent_snoc, getSelfIndex_snoc.
  change (root s1) with (root s). rewrite HP.
  rewrite Hbefore, Hafter, Hs1, Hs2, Hprompt.
  cbn [String.eqb].
  rewrite bind_eq, parentOf_ok.
  enough (Hroot :
    modifyChildren par
      (spliceOut (i - List.length run1
                  + List.length (NodeUtils.createTextNodes (String c rest)))
                 (List.length run2))
      (modifyChildren par (spliceOut (i - List.length run1) (List.length run1 + 1))
         (modifyChildren par (spliceIn (i + 1) (NodeUtils.createTextNodes (String c rest)))
            (root s)))
    = modifyChildren par
        (fun _ => l1 ++ NodeUtils.createTextNodes (String c rest) ++ l2) (root s))
    by (unfold bind, modifyRoot, modify; rewrite <- Hroot; reflexivity).
  rewrite !modifyChildren_compose.
  apply modifyChildren_ext_at with (n := P); [exact HP|].
  rewrite Hcs.
  replace (i - List.length run1) with (List.length l1) by (unfold i; lia).
  unfold i. apply edit_run_lists.
Qed.

Lemma editTextWithNeighbor_replaces_the_run_witness :
  children (root (fst (editTextWithNeighbor (fun _ text => Some (String.append text "!"))
     (Some [2])
     (Sample.editorOf [Sample.chordNode "c"; Sample.textNode "l"; Sample.textNode "a";
                       Sample.textNode "s"; Sample.chordNode "d"; Sample.textNode "t"]))))
  = [Sample.chordNode "c"; Sample.textNode "l"; Sample.textNode "a"; Sample.textNode "s";
     Sample.textNode "!"; Sample.chordNode "d"; Sample.textNode "t"].
Proof.
  exact (f_equal children (proj2 (editTextWithNeighbor_replaces_the_run
    (fun _ text => Some (String.append text "!"))
    (Sample.editorOf [Sample.chordNode "c"; Sample.textNode "l"; Sample.textNode "a";
                      Sample.textNode "s"; Sample.chordNode "d"; Sample.textNode "t"])
    []
    (Sample.rootOf [Sample.chordNode "c"; Sample.textNode "l"; Sample.textNode "a";
                    Sample.textNode "s"; Sample.chordNode "d"; Sample.textNode "t"])
    (Sample.textNode "a") [Sample.chordNode "c"] [Sample.textNode "l"]
    [Sample.textNode "s"] [Sample.chordNode "d"; Sample.textNode "t"]
    "l"%char "as!"
    (Z.le_refl 0%Z) eq_refl eq_refl eq_refl eq_refl eq_refl eq_refl eq_refl))).
Defined.

(** ** The purity toggle and the removal of a node *)

(** An atom operation whose action succeeds and leaves the counter as it
    got it. *)
Lemma runAtomOperation_counted {A} (f : E A) s s2 a :
  (0 <= count s)%Z ->
  f (setCount (count s + 1)%Z s) = (s2, Done a) ->
  count s2 = (count s + 1)%Z ->
  snd (runAtomOperation f s) = Done a
  /\ root (fst (runAtomOperation f s)) = root s2
  /\ count (fst (runAtomOperation f s)) = count s.
Proof.
  intros Hc Hrun Hcnt.
  unfold runAtomOperation, AtomEditOperation.run, AtomEditOperation.beginOperation, modify.
  rewrite Hrun.
  unfold AtomEditOperation.endOperation, bind, modify, gets, assert.
  cbn [count setCount Eff.failed]. rewrite Hcnt.
  replace (count s + 1 - 1)%Z with (count s) by lia.
  assert (H1 : (0 <=? count s)%Z = true) by (apply Z.leb_le; lia).
  rewrite H1. cbn [ret]. destruct (count s =? 0)%Z; repeat split.
Qed.

Lemma isInUnderline_modifyNode f : forall node root,
  isInUnderline (modifyNode node f root) node = isInUnderline root node.
Proof.
  induction node as [|i p IH]; intros root; [reflexivity|].
  cbn [modifyNode isInUnderline]. rewrite children_setChildren, nth_error_modifyNth.
  change (NodeUtils.isUnderline (setChildren _ root)) with (NodeUtils.isUnderline root).
  destruct (nth_error (children root) i) as [c|]; cbn [option_map]; [rewrite IH|]; reflexivity.
Qed.

Lemma mapTags_eq f n :
  mapTags f n = mkNode (f (type n)) (content n) (chord n) (map (mapTags f) (children n)).
Proof. destruct n; reflexivity. Qed.

Lemma no_descendant_of_a_missing_tag f ty :
  (forall t, ENodeType.eqb (f t) ty = false) ->
  forall n, hasDescendantOfType ty (mapTags f n) = false.
Proof.
  intros Hf. induction n as [t c d cs IHcs] using SheetNode_nested_ind.
  rewrite mapTags_eq, hasDescendantOfType_eq. cbn [children].
  induction IHcs as [|x l Hx _ IHl]; [reflexivity|].
  cbn [map existsb]. rewrite Hx, IHl.
  rewrite (mapTags_eq f x). cbn [type]. rewrite Hf. reflexivity.
Qed.

(** A subtree whose tags were all made pure, or all made annotated,
    satisfies the purity rule. *)
Lemma invariantI2_mapTags f :
  (f = toPure \/ f = toAnnotated) -> forall n, invariantI2 (mapTags f n) = true.
Proof.
  intros Hf. induction n as [t c d cs IHcs] using SheetNode_nested_ind.
  rewrite invariantI2_eq. apply andb_true_iff. split.
  - destruct Hf as [-> | ->].
    + assert (H : hasDescendantOfType ENodeType.Chord (mapTags toPure (mkNode t c d cs)) = false)
        by (apply no_descendant_of_a_missing_tag; intros []; reflexivity).
      rewrite H. rewrite mapTags_eq. cbn [type]. destruct t; reflexivity.
    + assert (H : hasDescendantOfType ENodeType.ChordPure
                    (mapTags toAnnotated (mkNode t c d cs)) = false)
        by (apply no_descendant_of_a_missing_tag; intros []; reflexivity).
      rewrite H. rewrite mapTags_eq. cbn [type]. destruct t; reflexivity.
  - rewrite mapTags_eq. cbn [children].
    induction IHcs as [|x l Hx _ IHl]; [reflexivity|].
    cbn [map forallb]. rewrite Hx, IHl. reflexivity.
Qed.

Section ChainedRemovalFacts.
Variable removeAllUnderlineOfChord : NodeRef -> E NodeRef.

Lemma toggleChordType_in_place s node n ty ty' :
  (0 <= count s)%Z ->
  getNode (root s) node = Some n ->
  isInUnderline (root s) node = false ->
  (ty = ENodeType.Chord /\ ty' = ENodeType.ChordPure)
  \/ (ty = ENodeType.ChordPure /\ ty' = ENodeType.Chord) ->
  type n = ty ->
  snd (toggleChordType removeAllUnderlineOfChord node s) = Done tt
  /\ root (fst (toggleChordType removeAllUnderlineOfChord node s))
     = modifyNode node (setType ty') (root s)
  /\ count (fst (toggleChordType removeAllUnderlineOfChord node s)) = count s.
Proof.
  intros Hc Hn Hout Hty Htn.
  unfold toggleChordType.
  apply runAtomOperation_counted with
    (s2 := setRoot (modifyNode node (setType ty') (root s)) (setCount (count s + 1)%Z s));
    [exact Hc | | reflexivity].
  rewrite bind_eq, (@deref_ok (setCount (count s + 1)%Z s) node n) by exact Hn.
  rewrite bind_eq. unfold gets at 1. cbv beta.
  change (root (setCount (count s + 1)%Z s)) with (root s).
  rewrite Htn, Hout.
  destruct Hty as [[-> ->] | [-> ->]]; reflexivity.
Qed.

(** X29: the purity toggle, apart from the case in which the underlines of the
    chord are removed first.  A chord outside every underline changes its
    own tag only, and a second toggle gives back the tree from before.
    For a chord inside underlines the whole outermost underline around it
    changes purity: every annotated chord and underline of it becomes pure
    when the chord is annotated and the underline has no text other than
    spaces, every pure one becomes annotated when the chord is pure; the
    purity rule (invariant I2) holds in that underline afterwards. *)
Theorem toggleChordType_flips_the_purity
    (s : SheetEditorCore) (node : NodeRef) (n : SheetNode) :
  (0 <= count s)%Z ->
  getNode (root s) node = Some n ->
  (isInUnderline (root s) node = false ->
   (type n = ENodeType.Chord ->
    snd (toggleChordType removeAllUnderlineOfChord node s) = Done tt
    /\ root (fst (toggleChordType removeAllUnderlineOfChord node s))
       = modifyNode node (setType ENodeType.ChordPure) (root s))
   /\ (type n = ENodeType.ChordPure ->
       snd (toggleChordType removeAllUnderlineOfChord node s) = Done tt
       /\ root (fst (toggleChordType removeAllUnderlineOfChord node s))
          = modifyNode node (setType ENodeType.Chord) (root s))
   /\ (NodeUtils.isChord n = true ->
       snd ((toggleChordType removeAllUnderlineOfChord node ;;
             toggleChordType removeAllUnderlineOfChord node) s) = Done tt
       /\ root (fst ((toggleChordType removeAllUnderlineOfChord node ;;
                      toggleChordType removeAllUnderlineOfChord node) s)) = root s))
  /\ (forall topUnderline u,
        isInUnderline (root s) node = true ->
        topUnderlineLoop (root s) (rev node) None = Some topUnderline ->
        getNode (root s) topUnderline = Some u ->
        (type n = ENodeType.Chord -> hasNonEmptyTextNode u = false ->
         snd (toggleChordType removeAllUnderlineOfChord node s) = Done tt
         /\ root (fst (toggleChordType removeAllUnderlineOfChord node s))
            = modifyNode topUnderline (mapTags toPure) (root s)
         /\ invariantI2 (mapTags toPure u) = true)
        /\ (type n = ENodeType.ChordPure ->
            snd (toggleChordType removeAllUnderlineOfChord node s) = Done tt
            /\ root (fst (toggleChordType removeAllUnderlineOfChord node s))
               = modifyNode topUnderline (mapTags toAnnotated) (root s)
            /\ invariantI2 (mapTags toAnnotated u) = true)).
Proof.
  intros Hc Hn. split.
  - intros Hout. split; [|split].
    + intros Hty.
      destruct (toggleChordType_in_place s node n ENodeType.Chord ENodeType.ChordPure
                  Hc Hn Hout (or_introl (conj eq_refl eq_refl)) Hty) as (H1 & H2 & _).
      split; assumption.
    + intros Hty.
      destruct (toggleChordType_in_place s node n ENodeType.ChordPure ENodeType.Chord
                  Hc Hn Hout (or_intror (conj eq_refl eq_refl)) Hty) as (H1 & H2 & _).
      split; assumption.
    + intros Hch.
      assert (Hty : exists ty ty',
                ((ty = ENodeType.Chord /\ ty' = ENodeType.ChordPure)
                 \/ (ty = ENodeType.ChordPure /\ ty' = ENodeType.Chord))
                /\ type n = ty).
      { unfold NodeUtils.isChord in Hch. destruct (type n) eqn:E; try discriminate Hch.
        - exists ENodeType.Chord, ENodeType.ChordPure. auto.
        - exists ENodeType.ChordPure, ENodeType.Chord. auto. }
      destruct Hty as (ty & ty' & Hcase & Htn).
      destruct (toggleChordType_in_place s node n ty ty' Hc Hn Hout Hcase Htn)
        as (H1 & H2 & H3).
      rewrite bind_eq.
      destruct (toggleChordType removeAllUnderlineOfChord node s) as [s1 r1] eqn:E1.
      cbn [fst snd] in H1, H2, H3. subst r1.
      assert (Hc1 : (0 <= count s1)%Z) by lia.
      assert (Hn1 : getNode (root s1) node = Some (setType ty' n)).
      { rewrite H2, getNode_modifyNode, Hn. reflexivity. }
      assert (Hout1 : isInUnderline (root s1) node = false).
      { rewrite H2, isInUnderline_modifyNode. exact Hout. }
      assert (Hcase' : (ty' = ENodeType.Chord /\ ty = ENodeType.ChordPure)
                       \/ (ty' = ENodeType.ChordPure /\ ty = ENodeType.Chord))
        by (destruct Hcase as [[-> ->] | [-> ->]]; auto).
      destruct (toggleChordType_in_place s1 node (setType ty' n) ty' ty
                  Hc1 Hn1 Hout1 Hcase' eq_refl) as (H4 & H5 & _).
      split; [exact H4|].
      rewrite H5, H2, modifyNode_compose.
      rewrite (@modifyNode_ext_at node _ (fun x => x) (root s) n Hn).
      * apply modifyNode_id. reflexivity.
      * destruct n as [t c d cs]. simpl in Htn. subst t. reflexivity.
  - intros top u Hin Htop Hu. split.
    + intros Hty Htext.
      assert (H : snd (toggleChordType removeAllUnderlineOfChord node s) = Done tt
                  /\ root (fst (toggleChordType removeAllUnderlineOfChord node s))
                     = modifyNode top (mapTags toPure) (root s)
                  /\ count (fst (toggleChordType removeAllUnderlineOfChord node s)) = count s).
      { unfold toggleChordType.
        apply runAtomOperation_counted with
          (s2 := setRoot (modifyNode top (mapTags toPure) (root s))
                   (setCount (count s + 1)%Z s));
          [exact Hc | | reflexivity].
        rewrite bind_eq, (@deref_ok (setCount (count s + 1)%Z s) node n) by exact Hn.
        rewrite bind_eq. unfold gets at 1. cbv beta.
        change (root (setCount (count s + 1)%Z s)) with (root s).
        rewrite Hty, Hin, Htop. cbn [ENodeType.eqb negb].
        rewrite bind_eq, (@deref_ok (setCount (count s + 1)%Z s) top u) by exact Hu.
        rewrite Htext. reflexivity. }
      destruct H as (H1 & H2 & _). repeat split; try assumption.
      apply invariantI2_mapTags. left. reflexivity.
    + intros Hty.
      assert (H : snd (toggleChordType removeAllUnderlineOfChord node s) = Done tt
                  /\ root (fst (toggleChordType removeAllUnderlineOfChord node s))
                     = modifyNode top (mapTags toAnnotated) (root s)
                  /\ count (fst (toggleChordType removeAllUnderlineOfChord node s)) = count s).
      { unfold toggleChordType.
        apply runAtomOperation_counted with
          (s2 := setRoot (modifyNode top (mapTags toAnnotated) (root s))
                   (setCount (count s + 1)%Z s));
          [exact Hc | | reflexivity].
        rewrite bind_eq, (@deref_ok (setCount (count s + 1)%Z s) node n) by exact Hn.
        rewrite bind_eq. unfold gets at 1. cbv beta.
        change (root (setCount (count s + 1)%Z s)) with (root s).
        rewrite Hty, Hin, Htop. cbn [ENodeType.eqb negb].
        rewrite bind_eq, (@deref_ok (setCount (count s + 1)%Z s) top u) by exact Hu.
        reflexivity. }
      destruct H as (H1 & H2 & _). repeat split; try assumption.
      apply invariantI2_mapTags. right. reflexivity.
Qed.
End ChainedRemovalFacts.

Lemma toggleChordType_flips_the_purity_witness :
  root (fst (toggleChordType (fun node => ret node) [0; 0]
     (Sample.editorOf [Sample.underlineOf [Sample.chordNode "a"; Sample.textNode " ";
                                           Sample.chordNode "b"]])))
  = Sample.rootOf [mkNode ENodeType.UnderlinePure "" None
                     [Sample.pureNode "a"; Sample.textNode " "; Sample.pureNode "b"]]
  /\ root (fst (toggleChordType (fun node => ret node) [0; 1]
        (Sample.editorOf [mkNode ENodeType.UnderlinePure "" None
                            [Sample.pureNode "a"; Sample.pureNode "b"]])))
     = Sample.rootOf [Sample.underlineOf [Sample.chordNode "a"; Sample.chordNode "b"]]
  /\ root (fst (toggleChordType (fun node => ret node) [1]
        (Sample.editorOf [Sample.textNode "t"; Sample.chordNode "a"])))
     = Sample.rootOf [Sample.textNode "t"; Sample.pureNode "a"]
  /\ root (fst (toggleChordType (fun node => ret node) [1]
        (Sample.editorOf [Sample.textNode "t"; Sample.pureNode "a"])))
     = Sample.rootOf [Sample.textNode "t"; Sample.chordNode "a"]
  /\ root (fst ((toggleChordType (fun node => ret node) [1] ;;
                 toggleChordType (fun node => ret node) [1])
                  (Sample.editorOf [Sample.textNode "t"; Sample.chordNode "a"])))
     = Sample.rootOf [Sample.textNode "t"; Sample.chordNode "a"].
Proof.
  split; [|split; [|split; [|split]]].
  - exact (proj1 (proj2 (proj1 (proj2 (toggleChordType_flips_the_purity (fun node => ret node)
      (Sample.editorOf [Sample.underlineOf [Sample.chordNode "a"; Sample.textNode " ";
                                            Sample.chordNode "b"]])
      [0; 0] (Sample.chordNode "a") (Z.le_refl 0%Z) eq_refl)
      [0] (Sample.underlineOf [Sample.chordNode "a"; Sample.textNode " "; Sample.chordNode "b"])
      eq_refl eq_refl eq_refl) eq_refl eq_refl))).
  - exact (proj1 (proj2 (proj2 (proj2 (toggleChordType_flips_the_purity (fun node => ret node)
      (Sample.editorOf [mkNode ENodeType.UnderlinePure "" None
                          [Sample.pureNode "a"; Sample.pureNode "b"]])
      [0; 1] (Sample.pureNode "b") (Z.le_refl 0%Z) eq_refl)
      [0] (mkNode ENodeType.UnderlinePure "" None [Sample.pureNode "a"; Sample.pureNode "b"])
      eq_refl eq_refl eq_refl) eq_refl))).
  - exact (proj2 (proj1 (proj1 (toggleChordType_flips_the_purity (fun node => ret node)
      (Sample.editorOf [Sample.textNode "t"; Sample.chordNode "a"])
      [1] (Sample.chordNode "a") (Z.le_refl 0%Z) eq_refl) eq_refl) eq_refl)).
  - exact (proj2 (proj1 (proj2 (proj1 (toggleChordType_flips_the_purity (fun node => ret node)
      (Sample.editorOf [Sample.textNode "t"; Sample.pureNode "a"])
      [1] (Sample.pureNode "a") (Z.le_refl 0%Z) eq_refl) eq_refl)) eq_refl)).
  - exact (proj2 (proj2 (proj2 (proj1 (toggleChordType_flips_the_purity (fun node => ret node)
      (Sample.editorOf [Sample.textNode "t"; Sample.chordNode "a"])
      [1] (Sample.chordNode "a") (Z.le_refl 0%Z) eq_refl) eq_refl)) eq_refl)).
Defined.

Lemma invariantI1_getNode p : forall root n,
  invariantI1 root = true -> getNode root p = Some n -> invariantI1 n = true.
Proof.
  induction p as [|i p IH]; intros root n HI Hn; simpl in Hn.
  - injection Hn as <-. exact HI.
  - destruct (nth_error (children root) i) as [c|] eqn:Ec; [|discriminate].
    rewrite invariantI1_eq in HI. apply andb_true_iff in HI as [_ Hall].
    rewrite forallb_forall in Hall.
    apply (IH c n); [|exact Hn]. apply Hall. eapply nth_error_In. exact Ec.
Qed.

(** The removal of one child strictly inside the children of a node does
    not change its anchors; outside an underline no removal does. *)
Lemma anchors_spliceOut (P : SheetNode) (i : nat) :
  (NodeUtils.isUnderline P = true -> 0 < i /\ S i < List.length (children P)) ->
  anchors (setChildren (spliceOut i 1 (children P)) P) = anchors P.
Proof.
  intros Hk. destruct P as [t c d cs]. unfold setChildren, anchors.
  cbn [type content chord children] in *.
  rewrite (beginsWithChord_eq (mkNode t c d (spliceOut i 1 cs))),
          (beginsWithChord_eq (mkNode t c d cs)),
          (endsWithChord_eq (mkNode t c d (spliceOut i 1 cs))),
          (endsWithChord_eq (mkNode t c d cs)).
  unfold NodeUtils.isChord. cbn [type children].
  change (NodeUtils.isUnderline (mkNode t c d (spliceOut i 1 cs)))
    with (NodeUtils.isUnderline (mkNode t c d cs)).
  destruct (NodeUtils.isUnderline (mkNode t c d cs)) eqn:Hu; [|reflexivity].
  specialize (Hk eq_refl). destruct Hk as [Hk0 Hk1].
  assert (Hhd : hd false (map beginsWithChord (spliceOut i 1 cs))
                = hd false (map beginsWithChord cs)).
  { unfold spliceOut. destruct cs as [|x cs']; [simpl in Hk1; lia|].
    destruct i as [|i']; [lia|]. reflexivity. }
  assert (Hlast : last (map endsWithChord (spliceOut i 1 cs)) false
                  = last (map endsWithChord cs) false).
  { assert (Hne : map endsWithChord (skipn (i + 1) cs) <> []).
    { intros H. apply map_eq_nil in H.
      apply (f_equal (@List.length _)) in H. rewrite length_skipn in H. simpl in H. lia. }
    unfold spliceOut. rewrite map_app, last_app_nonempty by exact Hne.
    rewrite <- (firstn_skipn (i + 1) cs) at 2. rewrite map_app, last_app_nonempty by exact Hne.
    reflexivity. }
  rewrite Hhd, Hlast. reflexivity.
Qed.

Section RemovalFacts.
Variable removeAllUnderlineOfChord : NodeRef -> E NodeRef.

(** X30: the removal of a node that is not a chord takes exactly that node,
    with its subtree, out of the children of its parent, whatever the
    chained removal of underlines does; when the node is a text, a mark or
    a new line and the anchor rule (invariant I1) holds in the tree, it
    holds again afterwards. *)
Theorem remove_of_a_node_that_is_not_a_chord
    (s : SheetEditorCore) (par : NodeRef) (i : nat) (P n : SheetNode) :
  (0 <= count s)%Z ->
  getNode (root s) par = Some P ->
  nth_error (children P) i = Some n ->
  NodeUtils.isChord n = false ->
  snd (remove removeAllUnderlineOfChord (par ++ [i]) s) = Done tt
  /\ root (fst (remove removeAllUnderlineOfChord (par ++ [i]) s))
     = modifyChildren par (spliceOut i 1) (root s)
  /\ (invariantI1 (root s) = true -> NodeUtils.isUnderline n = false ->
      invariantI1 (root (fst (remove removeAllUnderlineOfChord (par ++ [i]) s))) = true).
Proof.
  intros Hc HP Hi Hch.
  assert (Hn : getNode (root s) (par ++ [i]) = Some n).
  { rewrite getNode_snoc, HP. exact Hi. }
  assert (Hrun : snd (remove removeAllUnderlineOfChord (par ++ [i]) s) = Done tt
    /\ root (fst (remove removeAllUnderlineOfChord (par ++ [i]) s))
       = modifyChildren par (spliceOut i 1) (root s)
    /\ count (fst (remove removeAllUnderlineOfChord (par ++ [i]) s)) = count s).
  { unfold remove.
    apply runAtomOperation_counted with
      (s2 := setRoot (modifyChildren par (spliceOut i 1) (root s))
               (setCount (count s + 1)%Z s));
      [exact Hc | | reflexivity].
    rewrite bind_eq, (@deref_ok (setCount (count s + 1)%Z s) (par ++ [i]) n) by exact Hn.
    rewrite Hch. rewrite bind_eq. unfold ret at 1.
    rewrite bind_eq, parentOf_ok, getSelfIndex_snoc. reflexivity. }
  destruct Hrun as (H1 & H2 & _). split; [exact H1 | split; [exact H2|]].
  intros HI Hul. rewrite H2.
  pose proof (invariantI1_getNode par (root s) P HI HP) as HIP.
  assert (Hb : beginsWithChord n = false /\ endsWithChord n = false).
  { rewrite beginsWithChord_eq, endsWithChord_eq, Hch, Hul. split; reflexivity. }
  assert (Hlen : i < List.length (children P)) by (apply nth_error_Some; congruence).
  assert (Hk : NodeUtils.isUnderline P = true -> 0 < i /\ S i < List.length (children P)).
  { intros HuP. rewrite invariantI1_eq, HuP in HIP.
    apply andb_true_iff in HIP as [Hown _]. apply andb_true_iff in Hown as [Hbeg Hend].
    rewrite beginsWithChord_eq in Hbeg. rewrite endsWithChord_eq in Hend.
    rewrite HuP in Hbeg, Hend.
    assert (HchP : NodeUtils.isChord P = false).
    { unfold NodeUtils.isChord, NodeUtils.isUnderline in *. destruct (type P); congruence. }
    rewrite HchP in Hbeg, Hend.
    split.
    - destruct i as [|i']; [|lia].
      destruct (children P) as [|x l]; [discriminate Hi|].
      simpl in Hi. injection Hi as ->. simpl in Hbeg. destruct Hb as [Hb _]. congruence.
    - destruct (Nat.eq_dec (S i) (List.length (children P))) as [Heq|Hne]; [|lia].
      exfalso.
      rewrite (nth_error_split_at _ _ Hi) in Hend.
      rewrite skipn_all2 in Hend by lia.
      rewrite map_app, last_app_nonempty in Hend by discriminate.
      simpl in Hend. destruct Hb as [_ Hb]. congruence. }
  unfold modifyChildren.
  apply (anchor_rule_modifyNode _ _ (root s) P HP).
  - apply anchors_spliceOut. exact Hk.
  - intros _. pose proof (anchors_spliceOut P i Hk) as Ha.
    rewrite invariantI1_eq in HIP |- *. apply andb_true_iff in HIP as [Hown Hall].
    apply andb_true_iff. split.
    + destruct (anchors_inv _ _ Ha) as (Ht & Hbe & Hen).
      unfold NodeUtils.isUnderline in *. rewrite Ht, Hbe, Hen. exact Hown.
    + rewrite children_setChildren. unfold spliceOut.
      rewrite forallb_forall in Hall. rewrite forallb_app. apply andb_true_iff.
      split; apply forallb_forall; intros x Hx; apply Hall.
      * rewrite <- (firstn_skipn i (children P)). apply in_or_app. left. exact Hx.
      * rewrite <- (firstn_skipn (i + 1) (children P)). apply in_or_app. right. exact Hx.
  - exact HI.
Qed.
End RemovalFacts.

Lemma remove_of_a_node_that_is_not_a_chord_witness :
  children (root (fst (remove (fun node => ret node) [0; 1]
     (Sample.editorOf [Sample.underlineOf [Sample.chordNode "a"; Sample.textNode "t";
                                           Sample.chordNode "b"]]))))
  = [Sample.underlineOf [Sample.chordNode "a"; Sample.chordNode "b"]]
  /\ invariantI1 (root (fst (remove (fun node => ret node) [0; 1]
        (Sample.editorOf [Sample.underlineOf [Sample.chordNode "a"; Sample.textNode "t";
                                              Sample.chordNode "b"]]))))
     = true.
Proof.
  pose proof (remove_of_a_node_that_is_not_a_chord (fun node => ret node)
    (Sample.editorOf [Sample.underlineOf [Sample.chordNode "a"; Sample.textNode "t";
                                          Sample.chordNode "b"]])
    [0] 1 (Sample.underlineOf [Sample.chordNode "a"; Sample.textNode "t"; Sample.chordNode "b"])
    (Sample.textNode "t") (Z.le_refl 0%Z) eq_refl eq_refl eq_refl) as (_ & H2 & H3).
  split; [exact (f_equal children H2) | exact (H3 eq_refl eq_refl)].
Defined.
